(** * Sugarscape: a shallow embedding of [Sugarscape.py]

    The engine of the Epstein-Axtell Sugarscape (after Downey's Think
    Complexity): a square toroidal grid of sugar levels capped by a fixed
    capacity grid, a population of agents that look, move, harvest and die,
    and the occupancy set that keeps one agent per cell.

    NumPy arrays are lists of rows, the occupancy set is a [gset], agent
    objects live in a heap indexed by reference so that the agent list and
    the shuffled activation order alias the same objects, and the global
    NumPy random source is an explicit tape threaded through the state. *)

From Stdlib Require Import ZArith QArith Reals Lia Lra.
From stdpp Require Import gmap list sorting functions.

Local Open Scope Z_scope.
#[local] Set Warnings "-clear-no-such-hyp".  (* raised inside set_solver *)

(** ** Python exceptions and results *)

Inductive Exn := AssertionError | KeyError | ValueError | IndexError.

(** A call either returns, raises, or is still looping when the fuel given
    to the unbounded [while True] of [random_loc] runs out. *)
Inductive Res (A : Type) :=
  | Ok (a : A)
  | Raise (e : Exn)
  | Looping.
Arguments Ok {A} a.
Arguments Raise {A} e.
Arguments Looping {A}.

Definition res_bind {A B} (m : Res A) (k : A → Res B) : Res B :=
  match m with
  | Ok a => k a
  | Raise e => Raise e
  | Looping => Looping
  end.

Notation "x ←? m ; k" := (res_bind m (λ x, k))
  (at level 20, m at level 100, k at level 200, right associativity,
   format "x  ←?  m ;  '/' k").
Notation "' p ←? m ; k" := (res_bind m (λ p, k))
  (at level 20, p pattern, m at level 100, k at level 200,
   right associativity, format "' p  ←?  m ;  '/' k").

(** Lifts a lookup that raises [e] when it has no result. *)
Definition or_raise {A} (e : Exn) (o : option A) : Res A :=
  match o with Some a => Ok a | None => Raise e end.

(** ** The random source

    [np.random] is one process-wide generator.  It is a tape of naturals
    and a cursor; every draw reads the cell under the cursor and advances. *)

Record Rng := MkRng { tape : nat → nat; cursor : nat }.

(** [np.random.randint(k)]: a draw in [0, k). *)
Definition randint (k : nat) (g : Rng) : nat * Rng :=
  ((tape g (cursor g) `mod` k)%nat, MkRng (tape g) (S (cursor g))).

Definition swap {A} (l : list A) (i j : nat) : list A :=
  match l !! i, l !! j with
  | Some x, Some y => <[i:=y]> (<[j:=x]> l)
  | _, _ => l
  end.

(** [np.random.shuffle]: for [i] from the last index down to 1, exchange
    row [i] with a row drawn in [0, i]. *)
Fixpoint shuffle_from {A} (i : nat) (l : list A) (g : Rng) : list A * Rng :=
  match i with
  | O => (l, g)
  | S i' => let '(j, g') := randint (S i) g in shuffle_from i' (swap l i j) g'
  end.

Definition shuffle {A} (l : list A) (g : Rng) : list A * Rng :=
  shuffle_from (length l - 1)%nat l g.

(** ** Two-dimensional integer arrays *)

(** NumPy index normalisation along an axis of length [len]: a negative
    index counts from the end, anything outside [-len, len) is an
    [IndexError]. *)
Definition norm_index (len : nat) (i : Z) : option nat :=
  if bool_decide (0 ≤ i < Z.of_nat len) then Some (Z.to_nat i)
  else if bool_decide (- Z.of_nat len ≤ i < 0)
       then Some (Z.to_nat (i + Z.of_nat len))
  else None.

(** [a[loc]] for a tuple [loc]. *)
Definition getitem (a : list (list Z)) (loc : Z * Z) : option Z :=
  r ← norm_index (length a) loc.1;
  row ← a !! r;
  c ← norm_index (length row) loc.2;
  row !! c.

(** [a[loc] = v]. *)
Definition setitem (a : list (list Z)) (loc : Z * Z) (v : Z)
  : option (list (list Z)) :=
  r ← norm_index (length a) loc.1;
  row ← a !! r;
  c ← norm_index (length row) loc.2;
  Some (<[r := <[c := v]> row]> a).

(** An [n] by [n] array. *)
Definition square (n : Z) (a : list (list Z)) : Prop :=
  length a = Z.to_nat n ∧ Forall (λ row, length row = Z.to_nat n) a.

(** ** Distances

    [np.hypot(dx, dy)] on integers is the Euclidean norm.  A distance is
    kept as its square, an exact integer: the square root is monotone, so
    minima and comparisons against the integer bin edges are decided on the
    squares ([hypot_lt_edge] relates this to the real square root). *)

Record Dist := MkDist { dist_sq : Z }.

Definition hypot (dx dy : Z) : Dist := MkDist (dx * dx + dy * dy).

(** The real number a [Dist] stands for. *)
Definition dist_R (d : Dist) : R := sqrt (IZR (dist_sq d)).

Definition dist_min (d1 d2 : Dist) : Dist :=
  MkDist (Z.min (dist_sq d1) (dist_sq d2)).

(** [d < b] for a non-negative integer edge [b]. *)
Definition dist_ltb_edge (d : Dist) (b : Z) : bool :=
  bool_decide (dist_sq d < b * b).

(** [np.indices((n, n))] paired up: entry [x][y] is [(x, y)]. *)
Definition indices (n : Z) : list (list (Z * Z)) :=
  (λ x, (λ y, (x, y)) <$> seqZ 0 n) <$> seqZ 0 n.

Definition distances_from (n i j : Z) : list (list Dist) :=
  (λ row : list (Z * Z), (λ '(x, y), hypot (x - i) (y - j)) <$> row)
    <$> indices n.

(** [np.minimum], elementwise. *)
Definition minimum_dist (a b : list (list Dist)) : list (list Dist) :=
  zip_with (zip_with dist_min) a b.

(** [np.digitize(x, bins)] for monotonically decreasing [bins] (and
    [right=False]): the index [i] with [bins[i-1] > x >= bins[i]], which is
    the number of edges strictly above [x]. *)
Definition digitize1 (bins : list Z) (x : Dist) : Z :=
  Z.of_nat (length (filter (λ b, dist_ltb_edge x b = true) bins)).

Definition digitize (a : list (list Dist)) (bins : list Z) : list (list Z) :=
  (λ row : list Dist, digitize1 bins <$> row) <$> a.

Definition make_capacity (n : Z) : list (list Z) :=
  let dist1 := distances_from n 15 15 in
  let dist2 := distances_from n 35 35 in
  let dist := minimum_dist dist1 dist2 in
  let bins := [21; 16; 11; 6] in
  digitize dist bins.

(** The capacity of one cell, as [make_capacity] computes it. *)
Definition cell_capacity (i j : Z) : Z :=
  digitize1 [21; 16; 11; 6] (dist_min (hypot (i - 15) (j - 15)) (hypot (i - 35) (j - 35))).


(** ** Configuration

    [params] is a dictionary read with [params.get(key, default)]; an
    absent key is [None] and the default is applied where the source
    applies it. *)

Record Params := MkParams {
  starting_box : option (Z * Z);
  num_agents : option Z;
  grow_rate : option Z;
  replace : option bool
}.

(** ** Agents *)

(** Modelled from the spec: the [Agent] class of module [SugarAgent] is
    imported by [Sugarscape.py] and is not among the sources.  The fields
    are those of the spec's data model ([loc] is the attribute the engine
    reads); [lifespan] is the configured maximum lifespan. *)
Record Agent := MkAgent {
  loc : Z * Z;
  vision : Z;
  metabolism : Q;
  reserve : Q;
  age : Z;
  lifespan : Q
}.

(** The attributes a new agent draws at random. *)
Record Traits := MkTraits {
  t_vision : Z;
  t_metabolism : Q;
  t_reserve : Q;
  t_lifespan : Q
}.

(** Modelled from the spec: starvation is the reserve at or below zero. *)
Definition is_starving (a : Agent) : bool := Qle_bool (reserve a) 0.

(** Modelled from the spec: natural death is the age exceeding the
    lifespan. *)
Definition is_old (a : Agent) : bool :=
  negb (Qle_bool (inject_Z (age a)) (lifespan a)).

(** Agent objects are compared and removed by identity: a reference. *)
Abbreviation ref := nat (only parsing).

Definition null_agent : Agent := MkAgent (0, 0) 0 0 0 0 0.

(** ** Observable events

    A ghost history with no counterpart in the source: the code never reads
    it.  [EvHarvest loc occ] records a call [harvest(loc)] and whether [loc]
    was in the occupied set at that moment. *)
Inductive Event :=
  | EvActivate (r : ref)
  | EvHarvest (l : Z * Z) (occ : bool)
  | EvDeath (r : ref)
  | EvSpawn (r : ref) (a : Agent).

(** ** The engine state

    The attributes of a [Sugarscape] object, followed by the part of the
    interpreter's world the methods touch: the heap of agent objects with
    its allocation pointer, the random source, and the ghost history. *)
Record Sugarscape := MkSugarscape {
  grid_n : Z;
  params : Params;
  agent_count_seq : list nat;
  capacity : list (list Z);
  array : list (list Z);
  agents : list ref;
  occupied : gset (Z * Z);
  objects : ref → Agent;
  next_ref : ref;
  rng : Rng;
  trace : list Event
}.

Definition set_array (a : list (list Z)) (s : Sugarscape) : Sugarscape :=
  MkSugarscape (grid_n s) (params s) (agent_count_seq s) (capacity s) a
    (agents s) (occupied s) (objects s) (next_ref s) (rng s) (trace s).

Definition set_agents (l : list ref) (s : Sugarscape) : Sugarscape :=
  MkSugarscape (grid_n s) (params s) (agent_count_seq s) (capacity s) (array s)
    l (occupied s) (objects s) (next_ref s) (rng s) (trace s).

Definition set_occupied (o : gset (Z * Z)) (s : Sugarscape) : Sugarscape :=
  MkSugarscape (grid_n s) (params s) (agent_count_seq s) (capacity s) (array s)
    (agents s) o (objects s) (next_ref s) (rng s) (trace s).

Definition set_agent_count_seq (q : list nat) (s : Sugarscape) : Sugarscape :=
  MkSugarscape (grid_n s) (params s) q (capacity s) (array s)
    (agents s) (occupied s) (objects s) (next_ref s) (rng s) (trace s).

Definition set_rng (g : Rng) (s : Sugarscape) : Sugarscape :=
  MkSugarscape (grid_n s) (params s) (agent_count_seq s) (capacity s) (array s)
    (agents s) (occupied s) (objects s) (next_ref s) g (trace s).

(** Mutates the object behind [r]. *)
Definition set_object (r : ref) (a : Agent) (s : Sugarscape) : Sugarscape :=
  MkSugarscape (grid_n s) (params s) (agent_count_seq s) (capacity s) (array s)
    (agents s) (occupied s) (<[r := a]> (objects s)) (next_ref s) (rng s)
    (trace s).

(** Allocates a new object and returns its reference. *)
Definition alloc (a : Agent) (s : Sugarscape) : ref * Sugarscape :=
  (next_ref s,
   MkSugarscape (grid_n s) (params s) (agent_count_seq s) (capacity s)
     (array s) (agents s) (occupied s) (<[next_ref s := a]> (objects s))
     (S (next_ref s)) (rng s) (trace s)).

Definition emit (e : Event) (s : Sugarscape) : Sugarscape :=
  MkSugarscape (grid_n s) (params s) (agent_count_seq s) (capacity s) (array s)
    (agents s) (occupied s) (objects s) (next_ref s) (rng s) (trace s ++ [e]).

(** ** Module-level functions *)

(** [[(i, j) for i in range(n) for j in range(m)]] *)
Definition make_locs (n m : Z) : list (Z * Z) :=
  i ← seqZ 0 n; (λ j, (i, j)) <$> seqZ 0 m.

Definition make_array (d : Z) (g : Rng) : list (Z * Z) * Rng :=
  shuffle [(- d, 0); (d, 0); (0, - d); (0, d)] g.

(** [[make_array(d) for d in ds]], drawing left to right. *)
Fixpoint make_arrays (ds : list Z) (g : Rng) : list (list (Z * Z)) * Rng :=
  match ds with
  | [] => ([], g)
  | d :: ds' =>
      let '(a, g1) := make_array d g in
      let '(rest, g2) := make_arrays ds' g1 in
      (a :: rest, g2)
  end.

(** [np.vstack] of an empty list of arrays raises [ValueError]. *)
Definition make_visible_locs (vision : Z) (g : Rng)
  : Res (list (Z * Z) * Rng) :=
  let '(arrays, g') := make_arrays (seqZ 1 vision) g in
  match arrays with
  | [] => Raise ValueError
  | _ => Ok (concat arrays, g')
  end.

(** ** Methods of [Sugarscape] *)

(** NumPy's integer [%]: the sign follows the divisor, and a zero divisor
    gives zero. *)
Definition np_mod (a n : Z) : Z := if bool_decide (n = 0) then 0 else a `mod` n.

(** One row of [(locs + center) % n]. *)
Definition wrap (n : Z) (center off : Z * Z) : Z * Z :=
  (np_mod (off.1 + center.1) n, np_mod (off.2 + center.2) n).

(** [np.argmax]: the index of the first maximum. *)
Fixpoint argmax_from (best : Z) (besti i : nat) (t : list Z) : nat :=
  match t with
  | [] => besti
  | x :: t' =>
      if bool_decide (best < x) then argmax_from x i (S i) t'
      else argmax_from best besti (S i) t'
  end.

Definition argmax (t : list Z) : nat :=
  match t with
  | [] => 0%nat
  | x :: t' => argmax_from x 0 1 t'
  end.

(** [[a[loc] for loc in locs]] *)
Fixpoint getitems (a : list (list Z)) (locs : list (Z * Z)) : Res (list Z) :=
  match locs with
  | [] => Ok []
  | l :: locs' =>
      x ←? or_raise IndexError (getitem a l);
      xs ←? getitems a locs';
      Ok (x :: xs)
  end.

(** The capacity array is what [np.digitize] returns, an array of 64-bit
    signed integers, and the level array is a copy of it: sums on them
    wrap around silently. *)
Definition int64_min : Z := - 2 ^ 63.
Definition int64_max : Z := 2 ^ 63 - 1.

Definition wrap64 (z : Z) : Z := (z + 2 ^ 63) `mod` 2 ^ 64 - 2 ^ 63.

(** [grow]: [self.array + grow_rate] is a 64-bit sum for a grow rate that
    is itself a 64-bit integer; [np.minimum] then caps it by the capacity.
    (What NumPy does with a Python integer outside the 64-bit range
    depends on its version; the properties below that speak about the
    sum assume the range.) *)
Definition grow (s : Sugarscape) : Sugarscape :=
  let grow_rate := default 1 (grow_rate (params s)) in
  set_array
    (zip_with (zip_with (λ x c, Z.min (wrap64 (x + grow_rate)) c))
       (array s) (capacity s))
    s.

Definition look_and_move (center : Z * Z) (vision : Z) (s : Sugarscape)
  : Res ((Z * Z) * Sugarscape) :=
  '(locs, g) ←? make_visible_locs vision (rng s);
  let s := set_rng g s in
  let locs := wrap (grid_n s) center <$> locs in
  let empty_locs := filter (λ l, l ∉ occupied s) locs in
  if bool_decide (length empty_locs = 0%nat) then Ok (center, s)
  else
    t ←? getitems (array s) empty_locs;
    let i := argmax t in
    l ←? or_raise IndexError (empty_locs !! i);
    Ok (l, s).

Definition harvest (l : Z * Z) (s : Sugarscape) : Res (Z * Sugarscape) :=
  let s := emit (EvHarvest l (bool_decide (l ∈ occupied s))) s in
  sugar ←? or_raise IndexError (getitem (array s) l);
  a ←? or_raise IndexError (setitem (array s) l 0);
  Ok (sugar, set_array a s).

(** The shape of an array as [make_agents] reads it. *)
Definition shape (a : list (list Z)) : Z * Z :=
  (Z.of_nat (length a),
   Z.of_nat (match a with [] => 0%nat | row :: _ => length row end)).

(** [l.remove(x)]: deletes the first occurrence, [ValueError] if none. *)
Fixpoint list_remove (x : ref) (l : list ref) : option (list ref) :=
  match l with
  | [] => None
  | y :: l' =>
      if bool_decide (x = y) then Some l'
      else l'' ← list_remove x l'; Some (y :: l'')
  end.

(** [[agent.loc for agent in self.agents]] *)
Definition agent_locs (s : Sugarscape) : list (Z * Z) :=
  (λ r, loc (objects s r)) <$> agents s.

(** ** Sequences of field operations *)

Inductive FieldOp :=
  | OpGrow
  | OpHarvest (l : Z * Z).

(** A call that raises leaves the object as it was: [harvest] raises on
    its first array read, before any write. *)
Definition run_op (op : FieldOp) (s : Sugarscape) : Sugarscape :=
  match op with
  | OpGrow => grow s
  | OpHarvest l => match harvest l s with Ok (_, s') => s' | _ => s end
  end.

Definition run_ops (ops : list FieldOp) (s : Sugarscape) : Sugarscape :=
  foldl (λ s op, run_op op s) s ops.

(** The bound on one cell: the level [x] is at most the capacity [c], the
    capacity is not negative, and the level is not negative when the grow
    rate [g] is not and the sum of the capacity and the grow rate does not
    overflow. *)
Definition cell_ok (g x c : Z) : Prop :=
  x ≤ c ∧ 0 ≤ c ∧ (0 ≤ g → c + g ≤ int64_max → 0 ≤ x).

Definition field_ok (s : Sugarscape) : Prop :=
  Forall2 (Forall2 (cell_ok (default 1 (grow_rate (params s)))))
    (array s) (capacity s).

Section Engine.

(** The random draws of the [Agent] constructor, a parameter of the model:
    the constructor is not among the sources. *)
Variable draw_traits : Params → Rng → Traits * Rng.

(** Modelled from the spec: [Agent(loc, params)] is created at [loc] with
    age zero and draws its other attributes. *)
Definition new_Agent (l : Z * Z) (p : Params) (g : Rng) : Agent * Rng :=
  let '(t, g') := draw_traits p g in
  (MkAgent l (t_vision t) (t_metabolism t) (t_reserve t) 0 (t_lifespan t), g').

(** Modelled from the spec: [Agent.step(env)] moves to the cell chosen by
    [env.look_and_move], harvests it into the reserve, pays the metabolism
    and ages by one. *)
Definition Agent_step (r : ref) (s : Sugarscape) : Res Sugarscape :=
  let a := objects s r in
  '(dest, s) ←? look_and_move (loc a) (vision a) s;
  let s :=
    set_object r
      (MkAgent dest (vision a) (metabolism a) (reserve a) (age a) (lifespan a))
      s in
  '(sugar, s) ←? harvest dest s;
  Ok (set_object r
        (MkAgent dest (vision a) (metabolism a)
           (reserve a + inject_Z sugar - metabolism a)%Q (age a + 1)
           (lifespan a))
        s).

(** [[Agent(locs[i], params) for i in range(num_agents)]] over the rows
    [locs[0 .. num_agents)], in order. *)
Fixpoint make_agent_list (locs : list (Z * Z)) (s : Sugarscape)
  : list ref * Sugarscape :=
  match locs with
  | [] => ([], s)
  | l :: locs' =>
      let '(a, g) := new_Agent l (params s) (rng s) in
      let '(r, s) := alloc a (set_rng g s) in
      let '(rs, s) := make_agent_list locs' s in
      (r :: rs, s)
  end.

Definition make_agents (s : Sugarscape) : Res Sugarscape :=
  let '(n, m) := default (shape (array s)) (starting_box (params s)) in
  let locs := make_locs n m in
  let '(locs, g) := shuffle locs (rng s) in
  let s := set_rng g s in
  let num_agents := default 400 (num_agents (params s)) in
  if bool_decide (num_agents ≤ Z.of_nat (length locs)) then
    let '(rs, s) := make_agent_list (take (Z.to_nat num_agents) locs) s in
    let s := set_agents rs s in
    Ok (set_occupied (list_to_set (agent_locs s)) s)
  else Raise AssertionError.

(** [Sugarscape(n, **params)], run with the random source [g].
    [np.indices] rejects a negative dimension. *)
Definition Sugarscape_init (n : Z) (p : Params) (g : Rng) : Res Sugarscape :=
  if bool_decide (n < 0) then Raise ValueError
  else
    let capacity := make_capacity n in
    make_agents
      (MkSugarscape n p [] capacity capacity [] ∅ (λ _, null_agent) 0%nat g []).

(** [random_loc]: the loop is unbounded; [fuel] bounds the number of
    draws the model follows.  [randint(0, size=2)] raises [ValueError]. *)
Fixpoint random_loc (fuel : nat) (s : Sugarscape)
  : Res ((Z * Z) * Sugarscape) :=
  match fuel with
  | O => Looping
  | S fuel' =>
      if bool_decide (grid_n s ≤ 0) then Raise ValueError
      else
        let '(i, g1) := randint (Z.to_nat (grid_n s)) (rng s) in
        let '(j, g2) := randint (Z.to_nat (grid_n s)) g1 in
        let l := (Z.of_nat i, Z.of_nat j) in
        let s := set_rng g2 s in
        if bool_decide (l ∉ occupied s) then Ok (l, s)
        else random_loc fuel' s
  end.

Definition add_agent (fuel : nat) (s : Sugarscape) : Res (ref * Sugarscape) :=
  '(l, s) ←? random_loc fuel s;
  let '(a, g) := new_Agent l (params s) (rng s) in
  let '(r, s) := alloc a (set_rng g s) in
  let s := emit (EvSpawn r a) s in
  let s := set_agents (agents s ++ [r]) s in
  let s := set_occupied ({[loc (objects s r)]} ∪ occupied s) s in
  Ok (r, s).

(** The body of the loop of [step] for the agent behind [r]. *)
Definition agent_turn (fuel : nat) (replace : bool) (r : ref) (s : Sugarscape)
  : Res Sugarscape :=
  let s := emit (EvActivate r) s in
  (* mark the current cell unoccupied; set.remove raises KeyError *)
  let l := loc (objects s r) in
  if bool_decide (l ∈ occupied s) then
    let s := set_occupied (occupied s ∖ {[l]}) s in
    s ←? Agent_step r s;
    if is_starving (objects s r) || is_old (objects s r) then
      rs ←? or_raise ValueError (list_remove r (agents s));
      let s := emit (EvDeath r) (set_agents rs s) in
      if replace then '(_, s) ←? add_agent fuel s; Ok s
      else Ok s
    else Ok (set_occupied ({[loc (objects s r)]} ∪ occupied s) s)
  else Raise KeyError.

Fixpoint step_loop (fuel : nat) (replace : bool) (order : list ref)
    (s : Sugarscape) : Res Sugarscape :=
  match order with
  | [] => Ok s
  | r :: order' =>
      s ←? agent_turn fuel replace r s;
      step_loop fuel replace order' s
  end.

(** [step]: [np.random.permutation] shuffles a copy of the agent list, so
    the loop runs over the population as it was when the step began. *)
Definition step (fuel : nat) (s : Sugarscape) : Res (nat * Sugarscape) :=
  let replace := default false (replace (params s)) in
  let '(random_order, g) := shuffle (agents s) (rng s) in
  let s := set_rng g s in
  s ←? step_loop fuel replace random_order s;
  let s := set_agent_count_seq (agent_count_seq s ++ [length (agents s)]) s in
  let s := grow s in
  Ok (length (agents s), s).

(** The engine states reachable from construction by completed steps. *)
Inductive reachable : Sugarscape → Prop :=
  | reachable_init (n : Z) (p : Params) (g : Rng) (s : Sugarscape) :
      Sugarscape_init n p g = Ok s → reachable s
  | reachable_step (fuel k : nat) (s s' : Sugarscape) :
      reachable s → step fuel s = Ok (k, s') → reachable s'.

End Engine.

(** ** Sample instances, used to run the model on concrete inputs *)

(** Trait draws in the ranges of Think Complexity's agent (vision in
    [1, 6], metabolism in [1, 4], initial sugar in [5, 25]) with a lifespan
    read from the tape. *)
Definition sample_traits (p : Params) (g : Rng) : Traits * Rng :=
  let '(v, g1) := randint 6 g in
  let '(m, g2) := randint 4 g1 in
  let '(r, g3) := randint 21 g2 in
  let '(l, g4) := randint 100 g3 in
  (MkTraits (1 + Z.of_nat v) (inject_Z (1 + Z.of_nat m))
     (inject_Z (5 + Z.of_nat r)) (inject_Z (Z.of_nat l)), g4).

(** A random source that replays [l] and then draws zeros. *)
Definition list_tape (l : list nat) : Rng := MkRng (λ i, nth i l 0%nat) 0.

(** The final state of a call, or [d] when it did not return. *)
Definition ok_state (d : Sugarscape) (r : Res Sugarscape) : Sugarscape :=
  match r with Ok s => s | _ => d end.

Definition ok_step (d : Sugarscape) (r : Res (nat * Sugarscape)) : Sugarscape :=
  match r with Ok (_, s) => s | _ => d end.

Definition blank : Sugarscape :=
  MkSugarscape 0 (MkParams None None None None) [] [] [] [] ∅
    (λ _, null_agent) 0%nat (list_tape []) [].

(** Two agents in the 2 by 2 corner of a grid of size 2; the second is
    given a lifespan of zero and dies in its first step. *)
Definition demo_params : Params := MkParams (Some (2, 2)) (Some 2) None None.

Definition demo_tape : Rng := list_tape [0; 0; 0; 0; 0; 0; 50]%nat.

Definition demo_state : Sugarscape :=
  ok_state blank (Sugarscape_init sample_traits 2 demo_params demo_tape).

Definition demo_after : Sugarscape :=
  ok_step blank (step sample_traits 3 demo_state).

(** The same corner with [replace] enabled: both agents die in the first
    step and each is replaced. *)
Definition demo_params_replace : Params :=
  MkParams (Some (2, 2)) (Some 2) None (Some true).

Definition demo_tape_replace : Rng :=
  list_tape [0; 0; 0; 0; 0; 0; 0; 0; 0; 0; 0; 0; 0; 0; 0; 0; 0; 0; 0; 0; 50;
             0; 0; 0; 0; 0; 1; 0; 0; 0; 0; 50]%nat.

Definition demo_state_replace : Sugarscape :=
  ok_state blank
    (Sugarscape_init sample_traits 2 demo_params_replace demo_tape_replace).

Definition demo_after_replace : Sugarscape :=
  ok_step blank (step sample_traits 3 demo_state_replace).

(** An empty grid of size 2 whose grow rate is the largest 64-bit
    integer. *)
Definition overflow_state : Sugarscape :=
  ok_state blank
    (Sugarscape_init sample_traits 2
       (MkParams None (Some 0) (Some int64_max) None) (list_tape [])).

(** One agent in the corner of a grid of size [n]. *)
Definition corner_params : Params := MkParams (Some (1, 1)) (Some 1) None None.

Definition corner_state (n : Z) : Sugarscape :=
  ok_state blank (Sugarscape_init sample_traits n corner_params (list_tape [])).

(** The distance of a kernel offset from the center, in cells. *)
Definition offset_dist (o : Z * Z) : Z := Z.max (Z.abs o.1) (Z.abs o.2).

(** ** Invariants *)

(** The occupancy invariant: no two live agents share a cell, the occupied
    set is the set of their cells, and every reference in the agent list
    has been allocated. *)
Definition occupancy_inv (s : Sugarscape) : Prop :=
  NoDup (agent_locs s) ∧
  occupied s = list_to_set (agent_locs s) ∧
  Forall (λ r, (r < next_ref s)%nat) (agents s).

(** The liveness check of [step]. *)
Definition is_dead (a : Agent) : bool := is_starving a || is_old a.

(** What one pass through the loop body of [step] does for the agent
    behind [r]: it releases its cell [l], moves to and harvests a cell [d]
    that is then unoccupied, and either survives there, or dies, or dies
    and is replaced by a new agent [a] behind a fresh reference. *)
Inductive turn_spec (replace : bool) (r : ref) (s s' : Sugarscape) : Prop :=
  | turn_survive (d : Z * Z) :
      d ∉ occupied s ∖ {[loc (objects s r)]} →
      is_dead (objects s' r) = false →
      trace s' = trace s ++ [EvActivate r; EvHarvest d false] →
      agents s' = agents s →
      occupied s' = {[d]} ∪ (occupied s ∖ {[loc (objects s r)]}) →
      loc (objects s' r) = d →
      next_ref s' = next_ref s →
      (∀ x, x ≠ r → objects s' x = objects s x) →
      turn_spec replace r s s'
  | turn_die (d : Z * Z) :
      replace = false →
      d ∉ occupied s ∖ {[loc (objects s r)]} →
      is_dead (objects s' r) = true →
      trace s' = trace s ++ [EvActivate r; EvHarvest d false; EvDeath r] →
      list_remove r (agents s) = Some (agents s') →
      occupied s' = occupied s ∖ {[loc (objects s r)]} →
      next_ref s' = next_ref s →
      (∀ x, x ≠ r → objects s' x = objects s x) →
      turn_spec replace r s s'
  | turn_replace (d : Z * Z) (a : Agent) (rs : list ref) :
      replace = true →
      d ∉ occupied s ∖ {[loc (objects s r)]} →
      (r ≠ next_ref s → is_dead (objects s' r) = true) →
      trace s' = trace s ++ [EvActivate r; EvHarvest d false; EvDeath r;
                             EvSpawn (next_ref s) a] →
      list_remove r (agents s) = Some rs →
      agents s' = rs ++ [next_ref s] →
      loc a ∉ occupied s ∖ {[loc (objects s r)]} →
      occupied s' = {[loc a]} ∪ (occupied s ∖ {[loc (objects s r)]}) →
      objects s' (next_ref s) = a →
      next_ref s' = S (next_ref s) →
      (∀ x, x ≠ r → x ≠ next_ref s → objects s' x = objects s x) →
      turn_spec replace r s s'.

(** The loop of [step] over an activation order, turn by turn. *)
Inductive run_spec (replace : bool) : list ref → Sugarscape → Sugarscape → Prop :=
  | run_nil (s : Sugarscape) : run_spec replace [] s s
  | run_cons (r : ref) (order : list ref) (s s1 s' : Sugarscape) :
      turn_spec replace r s s1 → run_spec replace order s1 s' →
      run_spec replace (r :: order) s s'.

(** ** Reading the ghost history *)

Definition activated (tr : list Event) : list ref :=
  omap (λ e, match e with EvActivate r => Some r | _ => None end) tr.

Definition harvested (tr : list Event) : list ((Z * Z) * bool) :=
  omap (λ e, match e with EvHarvest l o => Some (l, o) | _ => None end) tr.

Definition deaths (tr : list Event) : list ref :=
  omap (λ e, match e with EvDeath r => Some r | _ => None end) tr.

Definition spawned (tr : list Event) : list (ref * Agent) :=
  omap (λ e, match e with EvSpawn r a => Some (r, a) | _ => None end) tr.

(** What became of an agent in its pass through the loop of [step]. *)
Inductive Fate :=
  | Survived
  | Died
  | Replaced (r : ref) (a : Agent).

(** One pass through the loop of [step] as the history shows it: the agent
    activated, the cell harvested on its behalf, and what became of it. *)
Record Turn := MkTurn { who : ref; cell : Z * Z; fate : Fate }.

(** The events of a pass, in the order the loop body emits them: one
    activation, one harvest of a cell that is not occupied (flag [false]),
    then the death and the replacement, if any. *)
Definition turn_events (t : Turn) : list Event :=
  [EvActivate (who t); EvHarvest (cell t) false] ++
  match fate t with
  | Survived => []
  | Died => [EvDeath (who t)]
  | Replaced r a => [EvDeath (who t); EvSpawn r a]
  end.

(** A call that does not raise [KeyError], the failure of
    [self.occupied.remove]. *)
Definition never_KeyError {A} (m : Res A) : Prop := m ≠ Raise KeyError.

(** ** Measures and shapes used in the further properties *)

(** Two arrays of the same shape, row by row. *)
Definition same_shape (a b : list (list Z)) : Prop :=
  Forall2 (λ r cr, length r = length cr) a b.

(** [np.sum(a)]: the total of all cells. *)
Definition array_sum (a : list (list Z)) : Z := foldr Z.add 0 (concat a).

(** A coordinate pair inside the grid of size [n]. *)
Definition in_grid (n : Z) (l : Z * Z) : Prop := 0 ≤ l.1 < n ∧ 0 ≤ l.2 < n.

(** The grid invariant: the grid has a positive size, the level and
    capacity arrays are [n] by [n], and every agent is inside the grid. *)
Definition grid_inv (s : Sugarscape) : Prop :=
  0 < grid_n s ∧ square (grid_n s) (array s) ∧
  square (grid_n s) (capacity s) ∧
  Forall (λ r, in_grid (grid_n s) (loc (objects s r))) (agents s).

(** Every agent sees at least one cell away. *)
Definition vision_inv (s : Sugarscape) : Prop :=
  Forall (λ r, 1 ≤ vision (objects s r)) (agents s).

(** [m] completed calls of [step] lead from the first state to the
    second. *)
Inductive steps (draw_traits : Params → Rng → Traits * Rng)
  : nat → Sugarscape → Sugarscape → Prop :=
  | steps_O (s : Sugarscape) : steps draw_traits 0 s s
  | steps_S (m fuel k : nat) (s s1 s2 : Sugarscape) :
      steps draw_traits m s s1 → step draw_traits fuel s1 = Ok (k, s2) →
      steps draw_traits (S m) s s2.

(** ** The viewer's coordinates *)

(** [np.transpose] of a two-dimensional array given by its rows; the
    array built from an empty list has no second axis and is returned as
    it is. *)
Definition transpose (a : list (list Z)) : list (list Z) :=
  match a with
  | [] => []
  | row :: _ => (λ c, omap (λ r : list Z, r !! c) a) <$> seq 0 (length row)
  end.

(** [x, y = a]: unpacking along the first axis, [ValueError] unless there
    are exactly two items. *)
Definition unpack2 {A} (l : list A) : Res (A * A) :=
  match l with
  | [x; y] => Ok (x, y)
  | _ => Raise ValueError
  end.

(** [SugarscapeViewer.get_coords] on the viewee [s].  The sums with [0.5]
    are exact in floating point for every index an array can have; they
    are kept as rationals. *)
Definition get_coords (s : Sugarscape) : Res (list Q * list Q) :=
  '(rows, cols) ←? unpack2 (transpose ((λ l, [l.1; l.2]) <$> agent_locs s));
  let xs := (λ c, inject_Z c + (1 # 2))%Q <$> cols in
  let ys := (λ r, inject_Z r + (1 # 2))%Q <$> rows in
  Ok (xs, ys).

(* ================================================================= *)
(** * Properties *)

Lemma norm_index_in (len : nat) (i : Z) :
  0 ≤ i < Z.of_nat len → norm_index len i = Some (Z.to_nat i).
Proof. intros H. unfold norm_index. by rewrite bool_decide_eq_true_2. Qed.

Lemma make_capacity_length n : length (make_capacity n) = Z.to_nat n.
Proof.
  unfold make_capacity, digitize, minimum_dist, distances_from, indices.
  rewrite length_fmap, length_zip_with, !length_fmap, !length_seqZ. lia.
Qed.

Lemma make_capacity_row n (i : nat) :
  (i < Z.to_nat n)%nat →
  make_capacity n !! i = Some ((λ y, cell_capacity (Z.of_nat i) y) <$> seqZ 0 n).
Proof.
  intros Hi.
  unfold make_capacity, digitize, minimum_dist, distances_from, indices.
  rewrite list_lookup_fmap, lookup_zip_with, !list_lookup_fmap.
  rewrite lookup_seqZ_lt by lia. simpl. f_equal.
  induction (seqZ 0 n) as [|y l IH]; [done|].
  rewrite !fmap_cons. cbn [zip_with]. rewrite fmap_cons, IH. done.
Qed.

Lemma make_capacity_getitem n i j :
  0 ≤ i < n → 0 ≤ j < n →
  getitem (make_capacity n) (i, j) = Some (cell_capacity i j).
Proof.
  intros Hi Hj. unfold getitem. simpl.
  rewrite make_capacity_length, norm_index_in by lia. simpl.
  rewrite make_capacity_row by lia. simpl.
  rewrite length_fmap, length_seqZ, norm_index_in by lia. simpl.
  rewrite list_lookup_fmap, lookup_seqZ_lt by lia. simpl.
  do 2 f_equal; lia.
Qed.

(** ** The random shuffle permutes *)

Lemma insert_Permutation {A} (l : list A) (i : nat) (x y : A) :
  l !! i = Some y → <[i:=x]> l ≡ₚ x :: delete i l.
Proof.
  revert i. induction l as [|z l IH]; intros [|i] H; simplify_eq/=; [done|].
  rewrite (IH i H). apply Permutation_swap.
Qed.

Lemma swap_Permutation {A} (l : list A) (i j : nat) : swap l i j ≡ₚ l.
Proof.
  unfold swap.
  destruct (l !! i) as [x|] eqn:Hi; [|done].
  destruct (l !! j) as [y|] eqn:Hj; [|done].
  destruct (decide (i = j)) as [->|Hne].
  - simplify_eq. by rewrite list_insert_insert_eq, list_insert_id.
  - assert (Hi' : <[j:=x]> l !! i = Some x)
      by (by rewrite list_lookup_insert_ne).
    etrans; [apply (insert_Permutation _ _ _ _ Hi')|].
    etrans; [|symmetry; apply (delete_Permutation l j y Hj)].
    apply Permutation_cons; [done|].
    apply (Permutation_cons_inv (a := x)).
    etrans; [symmetry; apply (delete_Permutation _ i x Hi')|].
    by apply (insert_Permutation l j x y).
Qed.

Lemma shuffle_from_Permutation {A} (i : nat) (l : list A) (g : Rng) :
  (shuffle_from i l g).1 ≡ₚ l.
Proof.
  revert l g. induction i as [|i IH]; intros l g; simpl; [done|].
  rewrite IH. apply swap_Permutation.
Qed.

Lemma shuffle_Permutation {A} (l : list A) (g : Rng) : (shuffle l g).1 ≡ₚ l.
Proof. apply shuffle_from_Permutation. Qed.

Lemma shuffle_Permutation' {A} (l l' : list A) (g g' : Rng) :
  shuffle l g = (l', g') → l' ≡ₚ l.
Proof. intros H. pose proof (shuffle_Permutation l g) as Hp. by rewrite H in Hp. Qed.

(** ** The visibility kernel *)

Lemma make_arrays_blocks (ds : list Z) (g : Rng) :
  Forall2 (λ d a, a ≡ₚ [(- d, 0); (d, 0); (0, - d); (0, d)])
    ds (make_arrays ds g).1.
Proof.
  revert g. induction ds as [|d ds IH]; intros g; cbn [make_arrays];
    [constructor|].
  destruct (make_array d g) as [a g1] eqn:Ha.
  specialize (IH g1). destruct (make_arrays ds g1) as [rest g2].
  cbn [fst] in *.
  constructor; [|done]. by apply (shuffle_Permutation' _ _ g g1).
Qed.

Lemma concat_block {A} (ls : list (list A)) (k : nat) (a : list A) :
  Forall (λ b, length b = 4%nat) ls → ls !! k = Some a →
  take 4 (drop (4 * k) (concat ls)) = a.
Proof.
  intros Hlen. revert k. induction Hlen as [|b ls Hb _ IH]; intros k Hk; [done|].
  destruct k as [|k]; simpl in Hk.
  - simplify_eq. change (4 * 0)%nat with 0%nat. cbn [drop concat].
    by rewrite drop_0, take_app_length'.
  - replace (4 * S k)%nat with (length b + 4 * k)%nat by lia.
    cbn [concat]. rewrite drop_app_add'; [|done]. by apply IH.
Qed.

Lemma concat_blocks_length {A} (ls : list (list A)) :
  Forall (λ b, length b = 4%nat) ls → length (concat ls) = (4 * length ls)%nat.
Proof.
  induction 1 as [|b ls Hb _ IH]; [done|]. simpl. rewrite length_app. lia.
Qed.

Lemma np_mod_range (a n : Z) : 0 < n → 0 ≤ np_mod a n < n.
Proof.
  intros Hn. unfold np_mod. rewrite bool_decide_eq_false_2 by lia.
  by apply Z.mod_pos_bound.
Qed.

Lemma wrap_range (n : Z) (center off : Z * Z) :
  0 < n → 0 ≤ (wrap n center off).1 < n ∧ 0 ≤ (wrap n center off).2 < n.
Proof. intros Hn. split; apply np_mod_range; done. Qed.

Lemma make_visible_locs_Ok (v : Z) (g : Rng) :
  1 ≤ v →
  make_visible_locs v g =
    Ok (concat (make_arrays (seqZ 1 v) g).1, (make_arrays (seqZ 1 v) g).2).
Proof.
  intros Hv. unfold make_visible_locs.
  pose proof (make_arrays_blocks (seqZ 1 v) g) as HF.
  destruct (make_arrays (seqZ 1 v) g) as [arrays g'] eqn:E. simpl in *.
  apply Forall2_length in HF. rewrite length_seqZ in HF.
  destruct arrays; [simpl in HF; lia|done].
Qed.

(** The three draws of [np.random.shuffle] on an array of four rows. *)
Lemma shuffle4_draws {A} (a b c e : A) (g : Rng) :
  shuffle [a; b; c; e] g
  = (swap (swap (swap [a; b; c; e] 3 (tape g (cursor g) `mod` 4)%nat)
             2 (tape g (S (cursor g)) `mod` 3)%nat)
       1 (tape g (S (S (cursor g))) `mod` 2)%nat,
     MkRng (tape g) (3 + cursor g)).
Proof. reflexivity. Qed.

Ltac solve_draws j1 j2 j3 :=
  exists j1, j2, j3; intros g H1 H2 H3;
  rewrite shuffle4_draws, H1, H2, H3; reflexivity.

Ltac search_draws :=
  first [ solve_draws 0%nat 0%nat 0%nat
        | solve_draws 0%nat 0%nat 1%nat
        | solve_draws 0%nat 1%nat 0%nat
        | solve_draws 0%nat 1%nat 1%nat
        | solve_draws 0%nat 2%nat 0%nat
        | solve_draws 0%nat 2%nat 1%nat
        | solve_draws 1%nat 0%nat 0%nat
        | solve_draws 1%nat 0%nat 1%nat
        | solve_draws 1%nat 1%nat 0%nat
        | solve_draws 1%nat 1%nat 1%nat
        | solve_draws 1%nat 2%nat 0%nat
        | solve_draws 1%nat 2%nat 1%nat
        | solve_draws 2%nat 0%nat 0%nat
        | solve_draws 2%nat 0%nat 1%nat
        | solve_draws 2%nat 1%nat 0%nat
        | solve_draws 2%nat 1%nat 1%nat
        | solve_draws 2%nat 2%nat 0%nat
        | solve_draws 2%nat 2%nat 1%nat
        | solve_draws 3%nat 0%nat 0%nat
        | solve_draws 3%nat 0%nat 1%nat
        | solve_draws 3%nat 1%nat 0%nat
        | solve_draws 3%nat 1%nat 1%nat
        | solve_draws 3%nat 2%nat 0%nat
        | solve_draws 3%nat 2%nat 1%nat ].

(** Every order of the four rows is the outcome of some three draws. *)
Lemma shuffle4_onto {A} (a b c e : A) (p : list A) :
  p ≡ₚ [a; b; c; e] →
  ∃ j1 j2 j3 : nat, ∀ g,
    tape g (cursor g) = j1 → tape g (S (cursor g)) = j2 →
    tape g (S (S (cursor g))) = j3 →
    (shuffle [a; b; c; e] g).1 = p.
Proof.
  intros Hp. symmetry in Hp. apply permutations_Permutation in Hp.
  let l := eval vm_compute in (permutations [a; b; c; e]) in
  change (permutations [a; b; c; e]) with l in Hp.
  repeat (apply elem_of_cons in Hp as [->|Hp]);
    [..|by apply elem_of_nil in Hp]; search_draws.
Qed.

Lemma make_arrays_rng (ds : list Z) (g : Rng) :
  (make_arrays ds g).2 = MkRng (tape g) (3 * length ds + cursor g).
Proof.
  revert g. induction ds as [|d ds IH]; intros g; cbn [make_arrays].
  { by destruct g. }
  unfold make_array. rewrite shuffle4_draws.
  specialize (IH (MkRng (tape g) (3 + cursor g))).
  destruct (make_arrays ds _) as [rest g2]. cbn [fst snd tape cursor] in *.
  rewrite IH. cbn [length]. f_equal. lia.
Qed.

Lemma make_arrays_lookup (ds : list Z) (g : Rng) (k : nat) (d : Z) :
  ds !! k = Some d →
  (make_arrays ds g).1 !! k
  = Some (make_array d (MkRng (tape g) (3 * k + cursor g))).1.
Proof.
  revert g k. induction ds as [|d0 ds IH]; intros g k Hk; [done|].
  cbn [make_arrays]. unfold make_array at 1. rewrite shuffle4_draws.
  specialize (IH (MkRng (tape g) (3 + cursor g))).
  destruct (make_arrays ds _) as [rest g2]. cbn [fst snd tape cursor] in *.
  destruct k as [|k]; cbn in Hk.
  - injection Hk as ->. cbn [lookup list_lookup].
    f_equal; unfold make_array; by rewrite shuffle4_draws.
  - etrans; [exact (IH k Hk)|].
    by replace (3 * S k + cursor g)%nat with (3 * k + (3 + cursor g))%nat
      by lia.
Qed.

(** Every order of the block for distance [d] is produced by some state
    of the random source. *)
Lemma kernel_block_onto (v d : Z) (p : list (Z * Z)) :
  1 ≤ d ≤ v → p ≡ₚ [(- d, 0); (d, 0); (0, - d); (0, d)] →
  ∃ g0, take 4 (drop (Z.to_nat (4 * (d - 1)))
                  (concat (make_arrays (seqZ 1 v) g0).1)) = p.
Proof.
  intros Hd Hp.
  destruct (shuffle4_onto _ _ _ _ p Hp) as (j1 & j2 & j3 & Hdraw).
  set (k := Z.to_nat (d - 1)).
  set (g0 := MkRng (λ i, nth (i - 3 * k) [j1; j2; j3] 0%nat) 0).
  exists g0.
  pose proof (make_arrays_blocks (seqZ 1 v) g0) as HF.
  assert (Hlen : Forall (λ b : list (Z * Z), length b = 4%nat)
                   (make_arrays (seqZ 1 v) g0).1).
  { clear -HF. induction HF as [|d1 a ds ls Ha _ IH]; constructor; [|done].
    by rewrite (Permutation_length Ha). }
  assert (Hd' : seqZ 1 v !! k = Some d).
  { unfold k. rewrite lookup_seqZ_lt by lia. f_equal. lia. }
  replace (Z.to_nat (4 * (d - 1))) with (4 * k)%nat by lia.
  rewrite (concat_block _ k _ Hlen (make_arrays_lookup _ g0 k d Hd')).
  unfold make_array. apply Hdraw; cbn [tape cursor g0].
  - by replace (3 * k + 0 - 3 * k)%nat with 0%nat by lia.
  - by replace (S (3 * k + 0) - 3 * k)%nat with 1%nat by lia.
  - by replace (S (S (3 * k + 0)) - 3 * k)%nat with 2%nat by lia.
Qed.

Lemma np_mod_divide (a n : Z) : n ≠ 0 → (n | np_mod a n - a).
Proof.
  intros Hn. unfold np_mod. rewrite bool_decide_eq_false_2 by done.
  exists (- (a `div` n)). pose proof (Z.div_mod a n Hn). lia.
Qed.

(** The cells [look_and_move] chooses from: the center, or the wrapped
    translation of an offset of the kernel it drew. *)
Lemma look_and_move_from_kernel (c : Z * Z) (v : Z) (s s' : Sugarscape)
    (d : Z * Z) (locs : list (Z * Z)) (g' : Rng) :
  make_visible_locs v (rng s) = Ok (locs, g') →
  look_and_move c v s = Ok (d, s') →
  s' = set_rng g' s ∧
  (d = c ∨ ((d ∉ occupied s) ∧ ∃ o, o ∈ locs ∧ d = wrap (grid_n s) c o)).
Proof.
  intros Hk. unfold look_and_move. rewrite Hk. cbn [res_bind].
  change (grid_n (set_rng g' s)) with (grid_n s).
  change (occupied (set_rng g' s)) with (occupied s).
  change (array (set_rng g' s)) with (array s).
  case_bool_decide.
  { intros [= <- <-]. by split; [|left]. }
  destruct (getitems _ _) as [t| |]; [|done..]. cbn [res_bind].
  destruct (filter _ _ !! argmax t) as [l|] eqn:Hl; [|done].
  cbn [or_raise res_bind]. intros [= <- <-]. split; [done|right].
  apply list_elem_of_lookup_2, list_elem_of_filter in Hl as [Hfree Hin].
  apply list_elem_of_fmap in Hin as (o & -> & Ho). eauto.
Qed.

(** C4: for a vision [v] of at least one and any state of the random
    source, the kernel is [4 * v] offsets in [v] blocks of four; the block
    for distance [d] is a permutation of the four cardinal offsets at
    distance [d] (so no offset is diagonal), and the call consumes three
    draws per block, so the next call shuffles with fresh draws.  The
    caller translates by the center and wraps: on a grid of positive size
    [n] the candidate for an offset is the cell of [0,n) x [0,n) whose
    coordinates are congruent modulo [n] to those of the center plus the
    offset, and the cell [look_and_move] returns is the center or such a
    candidate for an offset of this kernel.  The order inside a block is random: every order of the four
    offsets at distance [d] is the block of some state of the random
    source. *)
Theorem make_visible_locs_blocks (v : Z) (g : Rng) :
  1 ≤ v →
  (∃ locs g',
    make_visible_locs v g = Ok (locs, g') ∧
    g' = MkRng (tape g) (3 * Z.to_nat v + cursor g) ∧
    length locs = Z.to_nat (4 * v) ∧
    (∀ d, 1 ≤ d ≤ v →
       take 4 (drop (Z.to_nat (4 * (d - 1))) locs)
         ≡ₚ [(- d, 0); (d, 0); (0, - d); (0, d)]) ∧
    (∀ n center, 0 < n →
       Forall (λ c, 0 ≤ c.1 < n ∧ 0 ≤ c.2 < n) (wrap n center <$> locs)) ∧
    (∀ n center, 0 < n →
       Forall (λ o, (n | (wrap n center o).1 - (center.1 + o.1)) ∧
                    (n | (wrap n center o).2 - (center.2 + o.2))) locs) ∧
    (∀ s center d s', rng s = g →
       look_and_move center v s = Ok (d, s') →
       s' = set_rng g' s ∧
       (d = center ∨ ∃ o, o ∈ locs ∧ d = wrap (grid_n s) center o))) ∧
  (∀ d p, 1 ≤ d ≤ v → p ≡ₚ [(- d, 0); (d, 0); (0, - d); (0, d)] →
     ∃ g0 locs0 g0',
       make_visible_locs v g0 = Ok (locs0, g0') ∧
       take 4 (drop (Z.to_nat (4 * (d - 1))) locs0) = p).
Proof.
  intros Hv. split.
  - eexists _, _. split; [by apply make_visible_locs_Ok|].
    split.
    { rewrite make_arrays_rng, length_seqZ. reflexivity. }
    pose proof (make_arrays_blocks (seqZ 1 v) g) as HF.
    set (arrays := (make_arrays (seqZ 1 v) g).1) in *.
    assert (Hlen : Forall (λ b : list (Z * Z), length b = 4%nat) arrays).
    { clear -HF. induction HF as [|d a ds ls Ha _ IH]; constructor; [|done].
      by rewrite (Permutation_length Ha). }
    split; [|split; [|split; [|split]]].
    + rewrite concat_blocks_length by done.
      rewrite <- (Forall2_length HF), length_seqZ. lia.
    + intros d Hd.
      assert (Hd' : seqZ 1 v !! Z.to_nat (d - 1) = Some d).
      { rewrite lookup_seqZ_lt by lia. f_equal. lia. }
      destruct (Forall2_lookup_l _ _ _ _ _ HF Hd') as (a & Ha & Hperm).
      replace (Z.to_nat (4 * (d - 1))) with (4 * Z.to_nat (d - 1))%nat by lia.
      by rewrite (concat_block arrays _ a Hlen Ha).
    + intros n center Hn. apply Forall_fmap, Forall_forall.
      intros off _. by apply wrap_range.
    + intros n center Hn. apply Forall_forall. intros o _.
      unfold wrap. cbn [fst snd].
      replace (center.1 + o.1) with (o.1 + center.1) by lia.
      replace (center.2 + o.2) with (o.2 + center.2) by lia.
      split; apply np_mod_divide; lia.
    + intros s center d s' Hg Hlm.
      destruct (look_and_move_from_kernel center v s s' d
                  (concat arrays) (make_arrays (seqZ 1 v) g).2) as [Hs' Hd].
      { rewrite Hg. by apply make_visible_locs_Ok. }
      { exact Hlm. }
      split; [exact Hs'|].
      destruct Hd as [->|(_ & o & Ho & ->)]; [by left|right; by exists o].
  - intros d p Hd Hp. destruct (kernel_block_onto v d p Hd Hp) as [g0 Hg0].
    eexists g0, _, _. split; [by apply make_visible_locs_Ok|exact Hg0].
Qed.

(** ** Arrays and the first maximum *)

Lemma argmax_from_split (t p : list Z) (best : Z) (besti : nat) :
  (∃ p1 p2, p = p1 ++ best :: p2 ∧ length p1 = besti ∧
     Forall (λ x, x < best) p1 ∧ Forall (λ x, x ≤ best) p2) →
  ∃ l1 m l2, p ++ t = l1 ++ m :: l2 ∧
     length l1 = argmax_from best besti (length p) t ∧
     Forall (λ x, x < m) l1 ∧ Forall (λ x, x ≤ m) l2.
Proof.
  revert p best besti.
  induction t as [|x t IH]; intros p best besti (p1 & p2 & -> & <- & H1 & H2).
  - exists p1, best, p2. by rewrite app_nil_r.
  - cbn [argmax_from]. case_bool_decide as Hx.
    + destruct (IH ((p1 ++ best :: p2) ++ [x]) x (length (p1 ++ best :: p2)))
        as (l1 & m & l2 & Heq & Hlen & Hl1 & Hl2).
      { exists (p1 ++ best :: p2), []. split_and!; [done..| |constructor].
        apply Forall_app; split; [|constructor].
        - eapply List.Forall_impl; [|exact H1]. intros; simpl in *; lia.
        - lia.
        - eapply List.Forall_impl; [|exact H2]. intros; simpl in *; lia. }
      replace (length ((p1 ++ best :: p2) ++ [x]))
        with (S (length (p1 ++ best :: p2))) in Hlen
        by (rewrite (length_app _ [x]); simpl; lia).
      exists l1, m, l2. split_and!; [|done..].
      by rewrite <- Heq, <- (app_assoc _ [x] t).
    + destruct (IH ((p1 ++ best :: p2) ++ [x]) best (length p1))
        as (l1 & m & l2 & Heq & Hlen & Hl1 & Hl2).
      { exists p1, (p2 ++ [x]). rewrite <- app_assoc.
        split_and!; [done..|]. apply Forall_app; split; [done|].
        apply Forall_singleton. lia. }
      replace (length ((p1 ++ best :: p2) ++ [x]))
        with (S (length (p1 ++ best :: p2))) in Hlen
        by (rewrite (length_app _ [x]); simpl; lia).
      exists l1, m, l2. split_and!; [|done..].
      by rewrite <- Heq, <- (app_assoc _ [x] t).
Qed.

Lemma argmax_split (t : list Z) :
  t ≠ [] →
  ∃ l1 m l2, t = l1 ++ m :: l2 ∧ length l1 = argmax t ∧
     Forall (λ x, x < m) l1 ∧ Forall (λ x, x ≤ m) l2.
Proof.
  destruct t as [|x t]; [done|]. intros _.
  apply (argmax_from_split t [x] x 0). exists [], []. by repeat split.
Qed.

Lemma getitems_Ok (a : list (list Z)) (cand : list (Z * Z)) (t : list Z) :
  getitems a cand = Ok t ↔ Forall2 (λ c x, getitem a c = Some x) cand t.
Proof.
  revert t. induction cand as [|c cand IH]; intros t; simpl.
  - split; [by intros [= <-]; constructor|]. by inversion 1.
  - destruct (getitem a c) as [x|] eqn:Hx; simpl.
    + destruct (getitems a cand) as [xs| |] eqn:Hxs; simpl.
      * split.
        -- intros [= <-]. constructor; [done|]. by apply IH.
        -- inversion 1; simplify_eq. f_equal. f_equal.
           assert (Ok xs = Ok l') as [= ->]; [|done]. by apply IH.
      * split; [done|]. inversion 1; simplify_eq.
        assert (Raise e = Ok l') by by apply IH. done.
      * split; [done|]. inversion 1; simplify_eq.
        assert (@Looping (list Z) = Ok l') by by apply IH. done.
    + split; [done|]. inversion 1; simplify_eq.
Qed.

Lemma getitems_total (a : list (list Z)) (cand : list (Z * Z)) :
  Forall (λ c, is_Some (getitem a c)) cand → ∃ t, getitems a cand = Ok t.
Proof.
  induction 1 as [|c cand [x Hx] _ [t Ht]]; simpl; [by eexists|].
  rewrite Hx, Ht. simpl. by eexists.
Qed.

Lemma getitem_square (n : Z) (a : list (list Z)) (i j : Z) :
  square n a → 0 ≤ i < n → 0 ≤ j < n → is_Some (getitem a (i, j)).
Proof.
  intros [Hlen Hrows] Hi Hj. unfold getitem. simpl.
  rewrite norm_index_in by lia. simpl.
  destruct (lookup_lt_is_Some_2 a (Z.to_nat i)) as [row Hrow]; [lia|].
  rewrite Hrow. simpl.
  assert (length row = Z.to_nat n) as Hr.
  { by apply (Forall_lookup_1 _ _ _ _ Hrows Hrow). }
  rewrite norm_index_in by lia. simpl.
  apply lookup_lt_is_Some_2. lia.
Qed.

Lemma filter_split_inv {A} (P : A → Prop) `{!∀ x, Decision (P x)}
    (l c1 : list A) (x : A) (c2 : list A) :
  filter P l = c1 ++ x :: c2 →
  ∃ l1 l2, l = l1 ++ x :: l2 ∧ filter P l1 = c1 ∧ filter P l2 = c2 ∧ P x.
Proof.
  revert c1. induction l as [|y l IH]; intros c1 Hf.
  - by destruct c1.
  - rewrite filter_cons in Hf. destruct (decide (P y)) as [Hy|Hy].
    + destruct c1 as [|z c1]; simpl in Hf.
      * injection Hf as -> <-. exists [], l. by rewrite filter_nil.
      * injection Hf as -> Hf.
        destruct (IH _ Hf) as (l1 & l2 & -> & <- & <- & Hx).
        exists (z :: l1), l2. by rewrite filter_cons_True.
    + destruct (IH _ Hf) as (l1 & l2 & -> & <- & <- & Hx).
      exists (y :: l1), l2. by rewrite filter_cons_False.
Qed.

Lemma filter_nil_Forall {A} (P : A → Prop) `{!∀ x, Decision (P x)}
    (l : list A) :
  filter P l = [] ↔ Forall (λ x, ¬ P x) l.
Proof.
  induction l as [|x l IH]; [by split; [constructor|]|].
  rewrite filter_cons. destruct (decide (P x)) as [Hx|Hx].
  - split; [done|]. by inversion 1.
  - rewrite IH. split; [by constructor|]. by inversion 1.
Qed.

Lemma seqZ_sorted (m n : Z) : StronglySorted Z.le (seqZ m n).
Proof.
  remember (Z.to_nat n) as k eqn:Hk. revert m n Hk.
  induction k as [|k IH]; intros m n Hk.
  - rewrite seqZ_nil by lia. constructor.
  - rewrite seqZ_cons by lia. constructor; [apply IH; lia|].
    apply Forall_seqZ. intros; lia.
Qed.

Lemma same_dist_sorted (d : Z) (a : list (Z * Z)) :
  Forall (λ o, offset_dist o = d) a →
  StronglySorted (λ o o', offset_dist o ≤ offset_dist o') a.
Proof.
  induction 1 as [|o a Ho Ha IH]; constructor; [done|].
  eapply List.Forall_impl; [|exact Ha]. intros o' Ho'. simpl in *. lia.
Qed.

Lemma cardinal_dist (d : Z) (a : list (Z * Z)) :
  0 ≤ d → a ≡ₚ [(- d, 0); (d, 0); (0, - d); (0, d)] →
  Forall (λ o, offset_dist o = d) a.
Proof.
  intros Hd Ha. rewrite Ha. unfold offset_dist.
  repeat constructor; simpl; lia.
Qed.

Lemma blocks_sorted (ds : list Z) (arrays : list (list (Z * Z))) :
  Forall2 (λ d a, a ≡ₚ [(- d, 0); (d, 0); (0, - d); (0, d)]) ds arrays →
  Forall (λ d, 0 ≤ d) ds → StronglySorted Z.le ds →
  StronglySorted (λ o o', offset_dist o ≤ offset_dist o') (concat arrays) ∧
  Forall (λ o, offset_dist o ∈ ds) (concat arrays).
Proof.
  induction 1 as [|d a ds arrays Ha _ IH]; intros Hpos Hs; simpl.
  { split; constructor. }
  apply Forall_cons_1 in Hpos as [Hd Hpos].
  apply StronglySorted_cons in Hs as [Hle Hs].
  destruct (IH Hpos Hs) as [IHs IHd].
  pose proof (cardinal_dist d a Hd Ha) as Hda.
  split.
  - apply StronglySorted_app_2; [|by eapply same_dist_sorted|done].
    intros x1 x2 H1 H2.
    rewrite (proj1 (list.Forall_forall _ _) Hda x1 H1).
    pose proof (proj1 (list.Forall_forall _ _) IHd x2 H2) as H2'.
    by apply (proj1 (list.Forall_forall _ _) Hle).
  - apply Forall_app; split.
    + eapply List.Forall_impl; [|exact Hda]. intros o ->. apply list_elem_of_here.
    + eapply List.Forall_impl; [|exact IHd]. intros o Ho. by apply list_elem_of_further.
Qed.

Lemma make_visible_locs_sorted (v : Z) (g g' : Rng) (locs : list (Z * Z)) :
  make_visible_locs v g = Ok (locs, g') →
  StronglySorted (λ o o', offset_dist o ≤ offset_dist o') locs.
Proof.
  unfold make_visible_locs.
  pose proof (make_arrays_blocks (seqZ 1 v) g) as HF.
  destruct (make_arrays (seqZ 1 v) g) as [arrays g1]. simpl in HF.
  destruct arrays as [|a arrays]; [done|]. intros [= <- <-].
  apply (blocks_sorted (seqZ 1 v) (a :: arrays)); [done| |apply seqZ_sorted].
  apply Forall_seqZ. intros; lia.
Qed.

(** ** Looking and moving *)

Lemma Forall2_elem_of_l {A B} (R : A → B → Prop) (l : list A) (k : list B)
    (x : A) :
  Forall2 R l k → x ∈ l → ∃ y, y ∈ k ∧ R x y.
Proof.
  intros HF Hx. apply list_elem_of_lookup in Hx as [i Hi].
  destruct (Forall2_lookup_l _ _ _ _ _ HF Hi) as (y & Hy & HR).
  exists y. split; [|done]. by eapply list_elem_of_lookup_2.
Qed.

Lemma look_and_move_candidates (a : list (list Z)) (occ : gset (Z * Z))
    (f : Z * Z → Z * Z) (P : Z → Prop) (l : list (Z * Z)) (t : list Z) :
  Forall2 (λ c x, getitem a c = Some x) (filter (λ c, c ∉ occ) (f <$> l)) t →
  Forall P t →
  Forall (λ o, f o ∉ occ → ∃ x, getitem a (f o) = Some x ∧ P x) l.
Proof.
  intros HF HP. apply list.Forall_forall. intros o Ho Hocc.
  assert (f o ∈ filter (λ c, c ∉ occ) (f <$> l)) as Hin.
  { apply list_elem_of_filter. split; [done|]. by apply list_elem_of_fmap_2. }
  destruct (Forall2_elem_of_l _ _ _ _ HF Hin) as (x & Hx & Hget).
  exists x. split; [done|]. by apply (proj1 (list.Forall_forall _ _) HP).
Qed.

(** C3: with a vision of at least one on a grid of positive size, the
    result is the center when every wrapped visible cell is occupied;
    otherwise it is an unoccupied visible cell whose level is the maximum
    over the unoccupied visible cells, every unoccupied cell generated
    before it has a strictly lower level, and the kernel offsets before it
    are no farther and those after it no closer than its own. *)
Theorem look_and_move_policy (center : Z * Z) (v : Z) (s : Sugarscape) :
  1 ≤ v → 0 < grid_n s → square (grid_n s) (array s) →
  ∃ locs g',
    make_visible_locs v (rng s) = Ok (locs, g') ∧
    (Forall (λ o, wrap (grid_n s) center o ∈ occupied s) locs →
       look_and_move center v s = Ok (center, set_rng g' s)) ∧
    (¬ Forall (λ o, wrap (grid_n s) center o ∈ occupied s) locs →
       ∃ pre o post lvl,
         locs = pre ++ o :: post ∧
         look_and_move center v s
           = Ok (wrap (grid_n s) center o, set_rng g' s) ∧
         (wrap (grid_n s) center o ∉ occupied s) ∧
         getitem (array s) (wrap (grid_n s) center o) = Some lvl ∧
         Forall (λ o', wrap (grid_n s) center o' ∉ occupied s →
                   ∃ x, getitem (array s) (wrap (grid_n s) center o') = Some x
                        ∧ x < lvl) pre ∧
         Forall (λ o', wrap (grid_n s) center o' ∉ occupied s →
                   ∃ x, getitem (array s) (wrap (grid_n s) center o') = Some x
                        ∧ x ≤ lvl) post ∧
         Forall (λ o', offset_dist o' ≤ offset_dist o) pre ∧
         Forall (λ o', offset_dist o ≤ offset_dist o') post).
Proof.
  intros Hv Hn Hsq.
  pose proof (make_visible_locs_Ok v (rng s) Hv) as Hk.
  pose proof (make_visible_locs_sorted _ _ _ _ Hk) as Hsorted.
  eexists _, _. split; [exact Hk|].
  set (locs := concat (make_arrays (seqZ 1 v) (rng s)).1) in *.
  set (g' := (make_arrays (seqZ 1 v) (rng s)).2) in *.
  unfold look_and_move. rewrite Hk. cbn [res_bind].
  change (grid_n (set_rng g' s)) with (grid_n s).
  change (occupied (set_rng g' s)) with (occupied s).
  change (array (set_rng g' s)) with (array s).
  set (cand := filter (λ l, l ∉ occupied s) (wrap (grid_n s) center <$> locs)).
  split.
  - intros Hall. rewrite bool_decide_eq_true_2; [done|].
    apply length_zero_iff_nil, filter_nil_Forall.
    apply (proj2 (Forall_fmap _ _ _)).
    eapply List.Forall_impl; [|exact Hall]. simpl. tauto.
  - intros Hnot.
    assert (cand ≠ []) as Hcand.
    { intros Hnil. apply Hnot. apply filter_nil_Forall in Hnil.
      apply (proj1 (Forall_fmap _ _ _)) in Hnil.
      eapply List.Forall_impl; [|exact Hnil]. simpl. intros o Ho.
      by apply dec_stable. }
    rewrite bool_decide_eq_false_2
      by (by intros ?%length_zero_iff_nil).
    destruct (getitems_total (array s) cand) as [t Ht].
    { apply list.Forall_forall. intros [i j] Hin.
      apply list_elem_of_filter in Hin as [_ Hin].
      apply list_elem_of_fmap in Hin as (o & Ho & _).
      destruct (wrap_range (grid_n s) center o Hn) as [Hi Hj].
      rewrite <- Ho in Hi, Hj. by eapply getitem_square. }
    rewrite Ht. cbn [res_bind]. apply getitems_Ok in Ht.
    destruct (argmax_split t) as (t1 & m & t2 & -> & Hlen & Ht1 & Ht2).
    { intros ->. apply Forall2_nil_inv_r in Ht. done. }
    apply Forall2_app_inv_r in Ht as (c1 & c' & Hc1 & Hc' & Hceq).
    apply Forall2_cons_inv_r in Hc' as (c & c2 & Hget & Hc2 & ->).
    assert (cand !! argmax (t1 ++ m :: t2) = Some c) as Hi.
    { rewrite <- Hlen, <- (Forall2_length Hc1), Hceq.
      by rewrite list_lookup_middle. }
    rewrite Hi. cbn [or_raise res_bind].
    unfold cand in Hceq.
    destruct (filter_split_inv _ _ _ _ _ Hceq)
      as (w1 & w2 & Hw & Hf1 & Hf2 & Hfree).
    apply fmap_app_inv in Hw as (pre & rest & -> & Hrest & Hlocs).
    symmetry in Hrest.
    apply fmap_cons_inv in Hrest as (o & post & -> & -> & ->).
    exists pre, o, post, m. rewrite Hlocs in Hsorted.
    split_and!; try done.
    + rewrite <- Hf1 in Hc1. by eapply look_and_move_candidates.
    + rewrite <- Hf2 in Hc2. by eapply look_and_move_candidates.
    + apply list.Forall_forall. intros o' Ho'.
      apply (StronglySorted_app_1_elem_of _ _ _ _ _ Hsorted Ho').
      apply list_elem_of_here.
    + apply StronglySorted_app_1_r, StronglySorted_cons in Hsorted.
      by destruct Hsorted.
Qed.

(** ** The resource field stays within its capacity *)

Lemma make_capacity_nonneg (n : Z) :
  Forall (Forall (λ c, 0 ≤ c)) (make_capacity n).
Proof.
  unfold make_capacity, digitize.
  apply (proj2 (Forall_fmap _ _ _)), Forall_true. intros row. simpl.
  apply (proj2 (Forall_fmap _ _ _)), Forall_true. intros d. simpl.
  unfold digitize1. lia.
Qed.

Lemma cell_capacity_range (i j : Z) : 0 ≤ cell_capacity i j ≤ 4.
Proof.
  unfold cell_capacity, digitize1.
  pose proof (length_filter
    (λ b, dist_ltb_edge
            (dist_min (hypot (i - 15) (j - 15)) (hypot (i - 35) (j - 35))) b
          = true) [21; 16; 11; 6]) as H.
  cbn [length] in H. lia.
Qed.

Lemma wrap64_small (z : Z) : int64_min ≤ z ≤ int64_max → wrap64 z = z.
Proof.
  unfold int64_min, int64_max, wrap64. intros Hz.
  rewrite Z.mod_small by lia. lia.
Qed.

Lemma wrap64_over (z : Z) :
  int64_max < z ≤ 2 * int64_max → wrap64 z = z - 2 ^ 64.
Proof.
  unfold int64_max, wrap64. intros Hz.
  rewrite <- (Z.mod_add _ (-1)) by lia.
  rewrite Z.mod_small by lia. lia.
Qed.

Lemma grow_field_ok (s : Sugarscape) : field_ok s → field_ok (grow s).
Proof.
  unfold field_ok, grow. simpl.
  generalize (default 1 (grow_rate (params s))) as g.
  intros g H. induction H as [|row crow a cap Hrow _ IH]; simpl; [constructor|].
  constructor; [|exact IH].
  clear -Hrow. induction Hrow as [|x c row crow (H1 & H2 & H3) _ IH]; simpl;
    constructor; [|exact IH].
  unfold cell_ok. split; [lia|]. split; [lia|]. intros Hg Hc.
  rewrite wrap64_small by (unfold int64_min; lia). lia.
Qed.

Lemma setitem_field_ok (g : Z) (a a' cap : list (list Z)) (l : Z * Z) :
  Forall2 (Forall2 (cell_ok g)) a cap → setitem a l 0 = Some a' →
  Forall2 (Forall2 (cell_ok g)) a' cap.
Proof.
  intros H. unfold setitem.
  destruct (norm_index (length a) l.1) as [r|]; [simpl|done].
  destruct (a !! r) as [row|] eqn:Hr; [simpl|done].
  destruct (norm_index (length row) l.2) as [c|]; [simpl|done].
  intros [= <-].
  destruct (Forall2_lookup_l _ _ _ _ _ H Hr) as (crow & Hcr & Hrow).
  rewrite <- (list_insert_id cap r crow Hcr).
  apply Forall2_insert; [done|].
  destruct (crow !! c) as [cc|] eqn:Hc.
  - rewrite <- (list_insert_id crow c cc Hc).
    apply Forall2_insert; [done|].
    destruct (Forall2_lookup_r _ _ _ _ _ Hrow Hc) as (x & _ & _ & Hcc & _).
    unfold cell_ok. lia.
  - apply lookup_ge_None in Hc.
    rewrite list_insert_ge; [done|]. by rewrite (Forall2_length Hrow).
Qed.

Lemma harvest_field_ok (l : Z * Z) (s s' : Sugarscape) (x : Z) :
  field_ok s → harvest l s = Ok (x, s') → field_ok s'.
Proof.
  unfold field_ok, harvest. simpl. intros H.
  destruct (getitem (array s) l); [simpl|done].
  destruct (setitem (array s) l 0) as [a|] eqn:Ha; [simpl|done].
  intros [= <- <-]. simpl. by eapply setitem_field_ok.
Qed.

Lemma run_ops_field_ok (ops : list FieldOp) (s : Sugarscape) :
  field_ok s → field_ok (run_ops ops s).
Proof.
  unfold run_ops. revert s.
  induction ops as [|op ops IH]; intros s H; simpl; [done|].
  apply IH. destruct op as [|l]; simpl.
  - by apply grow_field_ok.
  - destruct (harvest l s) as [[x s']| |] eqn:Hh; [|done..].
    by eapply harvest_field_ok.
Qed.

Lemma run_ops_frame (ops : list FieldOp) (s : Sugarscape) :
  capacity (run_ops ops s) = capacity s ∧ params (run_ops ops s) = params s.
Proof.
  unfold run_ops. revert s.
  induction ops as [|op ops IH]; intros s; simpl; [done|].
  destruct (IH (run_op op s)) as [-> ->].
  destruct op as [|l]; simpl; [done|]. unfold harvest. simpl.
  destruct (getitem (array s) l); [simpl|done].
  by destruct (setitem (array s) l 0).
Qed.

Lemma getitem_Forall2 (R : Z → Z → Prop) (a b : list (list Z)) (l : Z * Z)
    (c : Z) :
  Forall2 (Forall2 R) a b → getitem b l = Some c →
  ∃ x, getitem a l = Some x ∧ R x c.
Proof.
  intros H. unfold getitem. rewrite (Forall2_length H).
  destruct (norm_index (length b) l.1) as [r|]; [simpl|done].
  destruct (b !! r) as [brow|] eqn:Hb; [simpl|done].
  destruct (Forall2_lookup_r _ _ _ _ _ H Hb) as (arow & -> & Hrow). simpl.
  rewrite (Forall2_length Hrow).
  destruct (norm_index (length brow) l.2) as [k|]; [simpl|done].
  intros Hc. destruct (Forall2_lookup_r _ _ _ _ _ Hrow Hc) as (x & -> & Hx).
  by exists x.
Qed.

(** ** Construction *)

Lemma make_locs_length (n m : Z) :
  length (make_locs n m) = (Z.to_nat n * Z.to_nat m)%nat.
Proof.
  unfold make_locs. rewrite <- (length_seqZ 0 n).
  induction (seqZ 0 n) as [|i l IH]; [done|].
  rewrite bind_cons, length_app, IH, length_fmap, length_seqZ. simpl. lia.
Qed.

Lemma elem_of_make_locs (n m : Z) (l : Z * Z) :
  l ∈ make_locs n m ↔ 0 ≤ l.1 < n ∧ 0 ≤ l.2 < m.
Proof.
  unfold make_locs. rewrite list_elem_of_bind. split.
  - intros (i & Hl & Hi). apply list_elem_of_fmap in Hl as (j & -> & Hj).
    apply elem_of_seqZ in Hi, Hj. simpl. lia.
  - intros [Hi Hj]. exists l.1. split.
    + apply list_elem_of_fmap. exists l.2. split; [by destruct l|].
      apply elem_of_seqZ. lia.
    + apply elem_of_seqZ. lia.
Qed.

Lemma NoDup_make_locs (n m : Z) : NoDup (make_locs n m).
Proof.
  unfold make_locs. apply NoDup_bind; [| |apply NoDup_seqZ].
  - intros i1 i2 l _ _ (j1 & -> & _)%list_elem_of_fmap
      (j2 & [= -> _] & _)%list_elem_of_fmap. done.
  - intros i _. apply NoDup_fmap_2; [|apply NoDup_seqZ].
    by intros j1 j2 [= ->].
Qed.

Section Properties.

Variable draw_traits : Params → Rng → Traits * Rng.

Lemma new_Agent_loc (l : Z * Z) (p : Params) (g : Rng) :
  loc (new_Agent draw_traits l p g).1 = l.
Proof. unfold new_Agent. by destruct (draw_traits p g). Qed.

Lemma make_agent_list_frame (locs : list (Z * Z)) (s s' : Sugarscape)
    (rs : list nat) :
  make_agent_list draw_traits locs s = (rs, s') →
  grid_n s' = grid_n s ∧ params s' = params s ∧
  agent_count_seq s' = agent_count_seq s ∧ capacity s' = capacity s ∧
  array s' = array s ∧ agents s' = agents s ∧ occupied s' = occupied s ∧
  trace s' = trace s.
Proof.
  revert s rs. induction locs as [|l locs IH]; intros s rs; simpl.
  { by intros [= <- <-]. }
  destruct (new_Agent draw_traits l (params s) (rng s)) as [a g].
  destruct (make_agent_list draw_traits locs _) as [rs' s1] eqn:Hrec.
  intros [= <- <-]. by apply IH in Hrec.
Qed.

Lemma make_agent_list_refs (locs : list (Z * Z)) (s s' : Sugarscape)
    (rs : list nat) :
  make_agent_list draw_traits locs s = (rs, s') →
  rs = seq (next_ref s) (length locs) ∧
  next_ref s' = (next_ref s + length locs)%nat ∧
  (∀ r, (r < next_ref s)%nat → objects s' r = objects s r) ∧
  (λ r, loc (objects s' r)) <$> rs = locs.
Proof.
  revert s rs. induction locs as [|l locs IH]; intros s rs; simpl.
  { intros [= <- <-]. split_and!; [done|lia|done..]. }
  pose proof (new_Agent_loc l (params s) (rng s)) as Hloc.
  destruct (new_Agent draw_traits l (params s) (rng s)) as [a g].
  destruct (make_agent_list draw_traits locs _) as [rs' s1] eqn:Hrec.
  intros [= <- <-]. apply IH in Hrec as (-> & Hnext & Hold & Hlocs).
  simpl in *. split_and!; [done|lia| |].
  - intros r Hr. rewrite Hold by lia. by rewrite fn_lookup_insert_ne by lia.
  - f_equal; [|exact Hlocs].
    rewrite Hold by lia. by rewrite fn_lookup_insert.
Qed.

Lemma Sugarscape_init_field (n : Z) (p : Params) (g : Rng) (s : Sugarscape) :
  Sugarscape_init draw_traits n p g = Ok s →
  0 ≤ n ∧ grid_n s = n ∧ params s = p ∧ capacity s = make_capacity n ∧
  array s = make_capacity n ∧ trace s = [] ∧ agent_count_seq s = [].
Proof.
  unfold Sugarscape_init. case_bool_decide as Hn; [done|].
  unfold make_agents. cbn [array params rng starting_box].
  destruct (default _ _) as [bn bm].
  destruct (shuffle (make_locs bn bm) g) as [locs g1].
  case_bool_decide; [|done].
  destruct (make_agent_list _ _ _) as [rs s1] eqn:Hl.
  apply make_agent_list_frame in Hl as (? & ? & ? & ? & ? & ? & ? & ?).
  intros [= <-]. simpl in *. split_and!; [lia|done..].
Qed.

(** C2, amended: starting from construction, after any sequence of [grow]
    and [harvest] calls every cell's level is at most its capacity, and is
    at least zero provided the configured grow rate is not negative and
    its sum with the cell's capacity does not overflow the 64-bit integers
    of the array.  Capacities are at most 4, so this covers every grow
    rate from 0 to [2 ^ 63 - 5]. *)
Theorem level_within_capacity (n : Z) (p : Params) (g : Rng) (s : Sugarscape)
    (ops : list FieldOp) (i j : Z) :
  Sugarscape_init draw_traits n p g = Ok s →
  0 ≤ i < n → 0 ≤ j < n →
  ∃ x c,
    getitem (array (run_ops ops s)) (i, j) = Some x ∧
    getitem (capacity (run_ops ops s)) (i, j) = Some c ∧
    x ≤ c ∧ 0 ≤ c ≤ 4 ∧
    (0 ≤ default 1 (grow_rate p) →
     c + default 1 (grow_rate p) ≤ int64_max → 0 ≤ x).
Proof.
  intros Hinit Hi Hj.
  apply Sugarscape_init_field in Hinit as (_ & _ & Hp & Hcap & Harr & _).
  assert (field_ok s) as Hok.
  { unfold field_ok. rewrite Harr, Hcap. apply Forall_Forall2_diag.
    eapply List.Forall_impl; [|apply make_capacity_nonneg].
    intros row Hrow. apply Forall_Forall2_diag.
    eapply List.Forall_impl; [|exact Hrow].
    intros c Hc. unfold cell_ok. simpl in *. lia. }
  apply (run_ops_field_ok ops) in Hok. unfold field_ok in Hok.
  destruct (run_ops_frame ops s) as [Hc' Hp'].
  assert (getitem (capacity (run_ops ops s)) (i, j) = Some (cell_capacity i j))
    as Hget by (rewrite Hc', Hcap; by apply make_capacity_getitem).
  destruct (getitem_Forall2 _ _ _ _ _ Hok Hget) as (x & Hx & H1 & _ & H3).
  exists x, (cell_capacity i j). rewrite Hp', Hp in H3.
  pose proof (cell_capacity_range i j). done.
Qed.

Lemma make_agents_cases (s : Sugarscape) :
  let box := default (shape (array s)) (starting_box (params s)) in
  let cells := Z.of_nat (Z.to_nat box.1 * Z.to_nat box.2) in
  let k := default 400 (num_agents (params s)) in
  (cells < k ∧ make_agents draw_traits s = Raise AssertionError) ∨
  (k ≤ cells ∧
   ∃ s', make_agents draw_traits s = Ok s' ∧
     length (agents s') = Z.to_nat k ∧
     NoDup (agent_locs s') ∧
     Forall (λ l, 0 ≤ l.1 < box.1 ∧ 0 ≤ l.2 < box.2) (agent_locs s') ∧
     occupied s' = list_to_set (agent_locs s') ∧
     Forall (λ r, (r < next_ref s')%nat) (agents s') ∧
     grid_n s' = grid_n s).
Proof.
  intros box cells k. unfold make_agents. fold box. fold k.
  destruct box as [bn bm] eqn:Hbox. subst cells. cbn [fst snd].
  rewrite <- make_locs_length.
  pose proof (shuffle_Permutation (make_locs bn bm) (rng s)) as Hperm.
  destruct (shuffle (make_locs bn bm) (rng s)) as [locs g]. cbn [fst] in Hperm.
  rewrite <- (Permutation_length Hperm).
  change (params (set_rng g s)) with (params s). fold k.
  case_bool_decide as Hk; [right|left; split; [lia|done]].
  split; [done|].
  destruct (make_agent_list _ _ _) as [rs s1] eqn:Hl.
  pose proof (make_agent_list_frame _ _ _ _ Hl) as (Hn & _).
  apply make_agent_list_refs in Hl as (Hrs & Hnext & _ & Hlocs).
  eexists. split; [done|].
  assert (agent_locs (set_agents rs s1) = take (Z.to_nat k) locs) as Heq
    by exact Hlocs.
  unfold agent_locs in *. cbn [agents objects set_agents set_occupied] in *.
  rewrite Heq. split_and!.
  - rewrite Hrs, length_seq, length_take. lia.
  - eapply sublist_NoDup; [|apply sublist_take].
    rewrite Hperm. apply NoDup_make_locs.
  - apply list.Forall_forall. intros l Hin.
    apply (elem_of_make_locs bn bm). rewrite <- Hperm.
    eapply elem_of_sublist; [exact Hin|apply sublist_take].
  - done.
  - cbn [next_ref set_occupied set_agents].
    rewrite Hnext, Hrs. apply list.Forall_forall.
    intros r Hr%elem_of_seq. lia.
  - done.
Qed.

(** C8: construction of a grid of size [n >= 0] raises the assertion
    failure exactly when [num_agents] exceeds the number of cells of the
    starting box; otherwise it succeeds with [num_agents] agents, at
    pairwise distinct cells inside the box, whose cells form the occupied
    set. *)
Theorem construction_placement (n : Z) (p : Params) (g : Rng) :
  0 ≤ n →
  let box := default (n, n) (starting_box p) in
  let cells := Z.of_nat (Z.to_nat box.1 * Z.to_nat box.2) in
  let k := default 400 (num_agents p) in
  (Sugarscape_init draw_traits n p g = Raise AssertionError ↔ cells < k) ∧
  (k ≤ cells →
   ∃ s, Sugarscape_init draw_traits n p g = Ok s ∧
     length (agents s) = Z.to_nat k ∧
     NoDup (agent_locs s) ∧
     Forall (λ l, 0 ≤ l.1 < box.1 ∧ 0 ≤ l.2 < box.2) (agent_locs s) ∧
     occupied s = list_to_set (agent_locs s)).
Proof.
  intros Hn box cells k. unfold Sugarscape_init.
  rewrite bool_decide_eq_false_2 by lia.
  set (s0 := MkSugarscape n p [] (make_capacity n) (make_capacity n) [] ∅
               (λ _, null_agent) 0%nat g []).
  assert (shape (array s0) = (n, n)) as Hshape.
  { unfold shape. cbn [array s0]. rewrite make_capacity_length.
    destruct (make_capacity n) as [|row rows] eqn:Hcap.
    - apply (f_equal length) in Hcap. rewrite make_capacity_length in Hcap.
      simpl in Hcap. f_equal; lia.
    - assert (make_capacity n !! 0%nat = Some row) as Hrow by by rewrite Hcap.
      rewrite make_capacity_row in Hrow.
      + injection Hrow as <-. rewrite length_fmap, length_seqZ. f_equal; lia.
      + apply (f_equal length) in Hcap. rewrite make_capacity_length in Hcap.
        simpl in Hcap. lia. }
  pose proof (make_agents_cases s0) as Hcases.
  rewrite Hshape in Hcases. cbn [params s0] in Hcases.
  fold box in Hcases. fold cells in Hcases. fold k in Hcases.
  destruct Hcases
    as [[Hlt Hraise]|(Hle & s' & Hok & Hlen & Hnd & Hbox & Hocc & _)].
  - split; [by rewrite Hraise|lia].
  - split.
    + rewrite Hok. split; [done|lia].
    + intros _. by exists s'.
Qed.

(** ** One agent's turn, executed symbolically *)

Lemma look_and_move_Ok (c : Z * Z) (v : Z) (s s' : Sugarscape) (d : Z * Z) :
  look_and_move c v s = Ok (d, s') →
  ∃ g', s' = set_rng g' s ∧
    (d = c ∨ ((d ∉ occupied s) ∧ ∃ o, d = wrap (grid_n s) c o)).
Proof.
  unfold look_and_move.
  destruct (make_visible_locs v (rng s)) as [[locs g']| |]; [|done..].
  cbn [res_bind]. intros H. exists g'. revert H.
  change (grid_n (set_rng g' s)) with (grid_n s).
  change (occupied (set_rng g' s)) with (occupied s).
  change (array (set_rng g' s)) with (array s).
  case_bool_decide.
  { intros [= <- <-]. by split; [|left]. }
  destruct (getitems _ _) as [t| |]; [|done..]. cbn [res_bind].
  destruct (filter _ _ !! argmax t) as [l|] eqn:Hl; [|done].
  cbn [or_raise res_bind]. intros [= <- <-]. split; [done|right].
  apply list_elem_of_lookup_2, list_elem_of_filter in Hl as [Hfree Hin].
  apply list_elem_of_fmap in Hin as (o & -> & _). eauto.
Qed.

Lemma harvest_Ok (l : Z * Z) (s s' : Sugarscape) (x : Z) :
  harvest l s = Ok (x, s') →
  ∃ a, setitem (array s) l 0 = Some a ∧
    s' = set_array a (emit (EvHarvest l (bool_decide (l ∈ occupied s))) s).
Proof.
  unfold harvest. cbn [array emit].
  destruct (getitem (array s) l); [|done]. cbn [or_raise res_bind].
  destruct (setitem (array s) l 0) as [a|]; [|done].
  cbn [or_raise res_bind]. intros [= <- <-]. by exists a.
Qed.

Lemma Agent_step_Ok (r : nat) (s s' : Sugarscape) :
  Agent_step r s = Ok s' →
  ∃ d g a' sugar,
    (d = loc (objects s r) ∨
     ((d ∉ occupied s) ∧ ∃ o, d = wrap (grid_n s) (loc (objects s r)) o)) ∧
    setitem (array s) d 0 = Some a' ∧
    s' = MkSugarscape (grid_n s) (params s) (agent_count_seq s) (capacity s)
           a' (agents s) (occupied s)
           (<[r := MkAgent d (vision (objects s r)) (metabolism (objects s r))
                     (reserve (objects s r) + inject_Z sugar
                        - metabolism (objects s r))%Q
                     (age (objects s r) + 1) (lifespan (objects s r))]>
              (<[r := MkAgent d (vision (objects s r))
                        (metabolism (objects s r)) (reserve (objects s r))
                        (age (objects s r)) (lifespan (objects s r))]>
                 (objects s)))
           (next_ref s) g
           (trace s ++ [EvHarvest d (bool_decide (d ∈ occupied s))]).
Proof.
  unfold Agent_step.
  destruct (look_and_move _ _ s) as [[d s1]| |] eqn:Hlm; [|done..].
  apply look_and_move_Ok in Hlm as (g & -> & Hd). cbn [res_bind].
  destruct (harvest d _) as [[sugar s2]| |] eqn:Hh; [|done..].
  apply harvest_Ok in Hh as (a' & Ha' & ->). cbn [res_bind].
  intros [= <-]. exists d, g, a', sugar. split_and!; [done..|].
  done.
Qed.

Lemma random_loc_Ok (fuel : nat) (s s' : Sugarscape) (l : Z * Z) :
  random_loc fuel s = Ok (l, s') →
  (l ∉ occupied s) ∧ (0 ≤ l.1 < grid_n s ∧ 0 ≤ l.2 < grid_n s) ∧
  ∃ g, s' = set_rng g s.
Proof.
  revert s. induction fuel as [|fuel IH]; intros s; cbn [random_loc]; [done|].
  case_bool_decide as Hn; [done|].
  unfold randint. cbn [occupied set_rng].
  case_bool_decide as Hfree.
  - intros [= <- <-]. split; [done|]. split; [|by eexists]. cbn [fst snd].
    pose proof (Nat.mod_upper_bound
      (tape (rng s) (cursor (rng s))) (Z.to_nat (grid_n s))).
    pose proof (Nat.mod_upper_bound
      (tape (rng s) (S (cursor (rng s)))) (Z.to_nat (grid_n s))).
    lia.
  - intros H. apply IH in H as (Hfree' & Hgrid & g & ->).
    split; [done|]. split; [done|]. by exists g.
Qed.

Lemma add_agent_Ok (fuel : nat) (s s' : Sugarscape) (r : nat) :
  add_agent draw_traits fuel s = Ok (r, s') →
  ∃ a g,
    (loc a ∉ occupied s) ∧
    (0 ≤ (loc a).1 < grid_n s ∧ 0 ≤ (loc a).2 < grid_n s) ∧
    (∃ p g0, vision a = t_vision (draw_traits p g0).1) ∧
    r = next_ref s ∧
    s' = MkSugarscape (grid_n s) (params s) (agent_count_seq s) (capacity s)
           (array s) (agents s ++ [next_ref s]) ({[loc a]} ∪ occupied s)
           (<[next_ref s := a]> (objects s)) (S (next_ref s)) g
           (trace s ++ [EvSpawn (next_ref s) a]).
Proof.
  unfold add_agent.
  destruct (random_loc fuel s) as [[l s1]| |] eqn:Hl; [|done..].
  apply random_loc_Ok in Hl as (Hfree & Hgrid & g1 & ->). cbn [res_bind].
  pose proof (new_Agent_loc l (params (set_rng g1 s)) (rng (set_rng g1 s)))
    as Hloc.
  assert (∃ p g0, vision (new_Agent draw_traits l (params (set_rng g1 s))
                     (rng (set_rng g1 s))).1 = t_vision (draw_traits p g0).1)
    as Hvis.
  { exists (params (set_rng g1 s)), (rng (set_rng g1 s)).
    unfold new_Agent. by destruct (draw_traits _ _). }
  destruct (new_Agent _ _ _ _) as [a g]. cbn [fst] in Hloc, Hvis.
  cbn. intros [= <- <-]. exists a, g. rewrite fn_lookup_insert, Hloc.
  do 3 (split; [done|]). split; reflexivity.
Qed.

Lemma list_remove_Some (r : nat) (l l' : list nat) :
  list_remove r l = Some l' →
  ∃ a1 a2, l = a1 ++ r :: a2 ∧ l' = a1 ++ a2 ∧ r ∉ a1.
Proof.
  revert l'. induction l as [|y l IH]; intros l'; cbn [list_remove]; [done|].
  case_bool_decide as Hy.
  - intros [= <-]. subst y. exists [], l. split_and!; [done..|]. apply not_elem_of_nil.
  - destruct (list_remove r l) as [l''|]; [|done]. cbn. intros [= <-].
    destruct (IH l'' eq_refl) as (a1 & a2 & -> & -> & Hr).
    exists (y :: a1), a2. split_and!; [done..|].
    apply not_elem_of_cons. by split.
Qed.

Lemma list_remove_is_Some (r : nat) (l : list nat) :
  r ∈ l → is_Some (list_remove r l).
Proof.
  induction l as [|y l IH]; [by intros ?%elem_of_nil|].
  intros Hin. cbn [list_remove]. case_bool_decide as Hy; [by eexists|].
  apply elem_of_cons in Hin as [->|Hin]; [done|].
  destruct (IH Hin) as [l' ->]. by eexists.
Qed.

Lemma agent_turn_Ok (fuel : nat) (replace : bool) (r : nat)
    (s s' : Sugarscape) :
  agent_turn draw_traits fuel replace r s = Ok s' →
  loc (objects s r) ∈ occupied s ∧
  ∃ s1,
    Agent_step r
      (set_occupied (occupied s ∖ {[loc (objects s r)]})
         (emit (EvActivate r) s)) = Ok s1 ∧
    ((is_dead (objects s1 r) = false ∧
      s' = set_occupied ({[loc (objects s1 r)]} ∪ occupied s1) s1) ∨
     (is_dead (objects s1 r) = true ∧
      ∃ rs, list_remove r (agents s1) = Some rs ∧
        ((replace = false ∧ s' = emit (EvDeath r) (set_agents rs s1)) ∨
         (replace = true ∧
          ∃ r', add_agent draw_traits fuel
                  (emit (EvDeath r) (set_agents rs s1)) = Ok (r', s'))))).
Proof.
  unfold agent_turn. cbn [objects occupied emit].
  case_bool_decide as Hocc; [|done]. intros H. split; [done|]. revert H.
  destruct (Agent_step r _) as [s1| |]; [|done..]. cbn [res_bind].
  intros H. exists s1. split; [done|]. revert H.
  fold (is_dead (objects s1 r)).
  destruct (is_dead (objects s1 r)); [|intros [= <-]; by left].
  destruct (list_remove r (agents s1)) as [rs|]; [|done].
  cbn [or_raise res_bind]. intros H. right. split; [done|].
  exists rs. split; [done|]. destruct replace.
  - right. split; [done|].
    destruct (add_agent _ _ _) as [[r' s2]| |]; [|done..].
    cbn [res_bind] in H. injection H as <-. by exists r'.
  - left. split; [done|]. by injection H as <-.
Qed.

Lemma agent_turn_spec (fuel : nat) (replace : bool) (r : nat)
    (s s' : Sugarscape) :
  agent_turn draw_traits fuel replace r s = Ok s' → turn_spec replace r s s'.
Proof.
  intros H. apply agent_turn_Ok in H as (Hocc & s1 & Hstep & Hcase).
  apply Agent_step_Ok in Hstep as (d & g & a' & sugar & Hd & Hset & ->).
  cbn [objects occupied agents emit set_occupied grid_n] in *.
  assert (d ∉ occupied s ∖ {[loc (objects s r)]}) as Hfree.
  { destruct Hd as [->|[Hd _]]; [|done].
    intros [_ Hn]%elem_of_difference. apply Hn. by apply elem_of_singleton. }
  rewrite fn_lookup_insert in Hcase.
  destruct Hcase
    as [[Hdead ->]|(Hdead & rs & Hrs & [[-> ->]|(-> & r' & Hadd)])].
  - apply (turn_survive _ _ _ _ d); cbn; try done.
    + by rewrite fn_lookup_insert.
    + rewrite <- app_assoc. by rewrite bool_decide_eq_false_2.
    + by rewrite fn_lookup_insert.
    + intros x Hx. by rewrite !fn_lookup_insert_ne.
  - apply (turn_die _ _ _ _ d); cbn; try done.
    + by rewrite fn_lookup_insert.
    + rewrite <- !app_assoc. by rewrite bool_decide_eq_false_2.
    + intros x Hx. by rewrite !fn_lookup_insert_ne.
  - apply add_agent_Ok in Hadd as (a & g2 & Ha & _ & _ & _ & Hs').
    subst s'.
    cbn [objects occupied agents emit set_agents next_ref trace] in *.
    apply (turn_replace _ _ _ _ d a rs); cbn; try done.
    + intros Hne. by rewrite fn_lookup_insert_ne, fn_lookup_insert by done.
    + rewrite <- !app_assoc. by rewrite bool_decide_eq_false_2.
    + by rewrite fn_lookup_insert.
    + intros x Hx Hx'. by rewrite !fn_lookup_insert_ne.
Qed.

(** ** The occupancy invariant is kept by every turn *)

Lemma locs_ext (obj obj' : nat → Agent) (rs : list nat) :
  (∀ x, x ∈ rs → obj' x = obj x) →
  (λ r, loc (obj' r)) <$> rs = (λ r, loc (obj r)) <$> rs.
Proof.
  intros H. apply list_fmap_ext. intros i x Hx. simpl.
  by rewrite H by by eapply list_elem_of_lookup_2.
Qed.

Lemma occupancy_inv_split (s : Sugarscape) (r : nat) (a1 a2 : list nat) :
  occupancy_inv s → agents s = a1 ++ r :: a2 →
  let rest := (λ x, loc (objects s x)) <$> (a1 ++ a2) in
  NoDup rest ∧
  occupied s ∖ {[loc (objects s r)]} = list_to_set rest ∧
  loc (objects s r) ∈ occupied s ∧
  (r ∉ a1 ++ a2) ∧
  Forall (λ x, (x < next_ref s)%nat) (a1 ++ a2) ∧ (r < next_ref s)%nat.
Proof.
  intros (Hnd & Hocc & Hrefs) Heq rest. subst rest.
  unfold agent_locs in *. rewrite Heq in *.
  pose proof (NoDup_fmap_1 _ _ Hnd) as Hnd'.
  rewrite fmap_app, fmap_cons in Hnd, Hocc.
  apply list.NoDup_app in Hnd as (Hn1 & Hdisj & Hn2).
  apply list.NoDup_cons in Hn2 as [Hl2 Hn2].
  assert (loc (objects s r) ∉ (λ x, loc (objects s x)) <$> a1) as Hl1.
  { intros Hin. apply (Hdisj _ Hin). apply list_elem_of_here. }
  apply list.NoDup_app in Hnd' as (_ & Hd' & Hn2').
  apply list.NoDup_cons in Hn2' as [Hr2 _].
  apply Forall_app in Hrefs as [Hr1 Hrefs2].
  apply Forall_cons_1 in Hrefs2 as [Hr Hrefs2].
  rewrite fmap_app. split_and!.
  - apply list.NoDup_app. split_and!; [done| |done].
    intros x Hx Hx'. apply (Hdisj x Hx). by apply list_elem_of_further.
  - rewrite Hocc, !list_to_set_app_L, list_to_set_cons.
    set_solver.
  - rewrite Hocc, list_to_set_app_L, list_to_set_cons. set_solver.
  - intros [Hin|Hin]%elem_of_app; [|done].
    apply (Hd' r Hin). apply list_elem_of_here.
  - by apply Forall_app.
  - done.
Qed.

Lemma turn_spec_inv (replace : bool) (r : nat) (s s' : Sugarscape) :
  occupancy_inv s → r ∈ agents s → turn_spec replace r s s' →
  occupancy_inv s'.
Proof.
  intros Hinv Hr Hturn.
  destruct Hturn as
    [d Hfree _ _ Hag Hocc Hloc Hnext Hobj
    |d _ Hfree _ _ Hrm Hocc Hnext Hobj
    |d a rs _ Hfree _ _ Hrm Hag Hafree Hocc Hnew Hnext Hobj].
  - apply list_elem_of_split in Hr as (a1 & a2 & Heq).
    destruct (occupancy_inv_split s r a1 a2 Hinv Heq)
      as (Hnd & Hset & _ & Hnotin & Hrefs & Hlt).
    assert (agent_locs s' =
            ((λ x, loc (objects s x)) <$> a1) ++ d ::
            ((λ x, loc (objects s x)) <$> a2)) as Hlocs.
    { unfold agent_locs. rewrite Hag, Heq, fmap_app, fmap_cons, Hloc.
      apply not_elem_of_app in Hnotin as [Hn1 Hn2].
      f_equal; [|f_equal]; apply locs_ext; intros x Hx; apply Hobj;
        by intros ->. }
    rewrite fmap_app in Hnd, Hset.
    rewrite Hset in Hfree, Hocc. apply not_elem_of_list_to_set in Hfree.
    unfold occupancy_inv. rewrite Hlocs, Hocc, Hag, Hnext. split_and!.
    + rewrite <- Permutation_middle. by apply list.NoDup_cons.
    + rewrite !list_to_set_app_L, list_to_set_cons. set_solver.
    + by destruct Hinv as (_ & _ & ?).
  - apply list_remove_Some in Hrm as (a1 & a2 & Heq & Hag & _).
    destruct (occupancy_inv_split s r a1 a2 Hinv Heq)
      as (Hnd & Hset & _ & Hnotin & Hrefs & Hlt).
    assert (agent_locs s' = (λ x, loc (objects s x)) <$> (a1 ++ a2)) as Hlocs.
    { unfold agent_locs. rewrite Hag.
      apply locs_ext; intros x Hx; apply Hobj; by intros ->. }
    unfold occupancy_inv. by rewrite Hlocs, Hocc, Hag, Hnext.
  - apply list_remove_Some in Hrm as (a1 & a2 & Heq & -> & _).
    destruct (occupancy_inv_split s r a1 a2 Hinv Heq)
      as (Hnd & Hset & _ & Hnotin & Hrefs & Hlt).
    assert (agent_locs s' =
            ((λ x, loc (objects s x)) <$> (a1 ++ a2)) ++ [loc a]) as Hlocs.
    { unfold agent_locs. rewrite Hag, fmap_app. cbn [fmap list_fmap].
      rewrite Hnew. f_equal.
      apply locs_ext; intros x Hx; apply Hobj; [by intros ->|].
      intros ->. apply (proj1 (list.Forall_forall _ _) Hrefs) in Hx. lia. }
    rewrite Hset in Hafree, Hocc. apply not_elem_of_list_to_set in Hafree.
    unfold occupancy_inv. rewrite Hlocs, Hocc, Hag, Hnext. split_and!.
    + rewrite Permutation_app_comm. by apply list.NoDup_cons.
    + rewrite list_to_set_app_L. simpl. set_solver.
    + apply Forall_app. split.
      * eapply List.Forall_impl; [|exact Hrefs]. intros; simpl in *; lia.
      * apply Forall_singleton. lia.
Qed.

(** ** The loop of [step] *)

Lemma step_loop_spec (fuel : nat) (replace : bool) (order : list nat)
    (s s' : Sugarscape) :
  step_loop draw_traits fuel replace order s = Ok s' →
  run_spec replace order s s'.
Proof.
  revert s. induction order as [|r order IH]; intros s; cbn [step_loop].
  - intros [= <-]. constructor.
  - destruct (agent_turn draw_traits fuel replace r s) as [s1| |] eqn:Hturn;
      [|done..].
    cbn [res_bind]. intros Hrest.
    apply (run_cons _ _ _ _ s1); [by eapply agent_turn_spec|by apply IH].
Qed.

Lemma turn_spec_agents (replace : bool) (r : nat) (s s' : Sugarscape) :
  turn_spec replace r s s' →
  (next_ref s ≤ next_ref s')%nat ∧
  (∀ x, x ∈ agents s → x ≠ r → x ∈ agents s') ∧
  (∀ x, x ∈ agents s' → x ∈ agents s ∨ (x = next_ref s ∧ replace = true)) ∧
  (∀ x, x ≠ r → (x < next_ref s)%nat → objects s' x = objects s x).
Proof.
  intros [d _ _ _ Hag _ _ Hnext Hobj
         |d _ _ _ _ Hrm _ Hnext Hobj
         |d a rs Hrep _ _ _ Hrm Hag _ _ _ Hnext Hobj].
  - rewrite Hag, Hnext. split_and!; [lia|auto..].
  - apply list_remove_Some in Hrm as (a1 & a2 & -> & -> & _).
    rewrite Hnext. split_and!; [lia| | |auto].
    + intros x Hx Hne. rewrite elem_of_app, elem_of_cons in Hx.
      rewrite elem_of_app. naive_solver.
    + intros x Hx. left. rewrite elem_of_app in Hx.
      rewrite elem_of_app, elem_of_cons. naive_solver.
  - apply list_remove_Some in Hrm as (a1 & a2 & -> & -> & _).
    rewrite Hag, Hnext. split_and!; [lia| | |].
    + intros x Hx Hne. rewrite elem_of_app, elem_of_cons in Hx.
      rewrite !elem_of_app. naive_solver.
    + intros x Hx. rewrite !elem_of_app, list_elem_of_singleton in Hx.
      rewrite elem_of_app, elem_of_cons. naive_solver.
    + intros x Hx Hlt. apply Hobj; [done|lia].
Qed.

Lemma run_spec_inv (replace : bool) (order : list nat) (s s' : Sugarscape) :
  run_spec replace order s s' →
  occupancy_inv s → NoDup order → Forall (λ r, r ∈ agents s) order →
  occupancy_inv s'.
Proof.
  induction 1 as [s|r order s s1 s' Hturn _ IH]; intros Hinv Hnd Hin; [done|].
  apply list.NoDup_cons in Hnd as [Hr Hnd].
  apply Forall_cons_1 in Hin as [Hrin Hin].
  apply IH; [by eapply turn_spec_inv|done|].
  apply list.Forall_forall. intros x Hx.
  apply (turn_spec_agents _ _ _ _ Hturn).
  - by apply (proj1 (list.Forall_forall _ _) Hin).
  - by intros ->.
Qed.

Lemma run_spec_frame (replace : bool) (order : list nat) (s s' : Sugarscape) :
  run_spec replace order s s' →
  (next_ref s ≤ next_ref s')%nat ∧
  (∀ x, x ∉ agents s → (x < next_ref s)%nat → x ∉ agents s') ∧
  (∀ x, x ∈ agents s → x ∉ order → x ∈ agents s') ∧
  (∀ x, x ∉ order → (x < next_ref s)%nat → objects s' x = objects s x).
Proof.
  induction 1 as [s|r order s s1 s' Hturn _ IH]; [by split_and!|].
  destruct IH as (Hnext & Habs & Hstay & Hobj).
  destruct (turn_spec_agents _ _ _ _ Hturn) as (Hnext1 & Hkeep1 & Hnew1 & Hobj1).
  split_and!.
  - lia.
  - intros x Hx Hlt. apply Habs; [|lia].
    intros [Hin|[-> _]]%Hnew1; [done|lia].
  - intros x Hx [Hne Hnot]%not_elem_of_cons. apply Hstay; [|done].
    by apply Hkeep1.
  - intros x [Hne Hnot]%not_elem_of_cons Hlt.
    rewrite Hobj by (done || lia). by apply Hobj1.
Qed.

(** Splits the conjunctions at the top of the goal, not under binders. *)
Ltac conj_split := repeat refine (conj _ _).

Lemma activated_app (t1 t2 : list Event) :
  activated (t1 ++ t2) = activated t1 ++ activated t2.
Proof. apply omap_app. Qed.

Lemma harvested_app (t1 t2 : list Event) :
  harvested (t1 ++ t2) = harvested t1 ++ harvested t2.
Proof. apply omap_app. Qed.

Lemma deaths_app (t1 t2 : list Event) :
  deaths (t1 ++ t2) = deaths t1 ++ deaths t2.
Proof. apply omap_app. Qed.

Lemma spawned_app (t1 t2 : list Event) :
  spawned (t1 ++ t2) = spawned t1 ++ spawned t2.
Proof. apply omap_app. Qed.

Lemma run_spec_facts (replace : bool) (order : list nat) (s s' : Sugarscape) :
  run_spec replace order s s' →
  occupancy_inv s → NoDup order → Forall (λ r, r ∈ agents s) order →
  ∃ tr, trace s' = trace s ++ tr ∧
    activated tr = order ∧
    Forall (λ h, h.2 = false) (harvested tr) ∧
    length (harvested tr) = length order ∧
    (length (agents s') + length (deaths tr)
       = length (agents s) + length (spawned tr))%nat ∧
    (replace = false → spawned tr = []) ∧
    (replace = true → length (spawned tr) = length (deaths tr)) ∧
    (∀ r, r ∈ deaths tr → r ∈ order ∧ r ∉ agents s') ∧
    (∀ r, r ∈ order → r ∈ deaths tr ↔ is_dead (objects s' r) = true) ∧
    (∀ r a, (r, a) ∈ spawned tr →
       (next_ref s ≤ r)%nat ∧ r ∈ agents s' ∧ objects s' r = a).
Proof.
  induction 1 as [s|r order s s1 s' Hturn Hrun IH]; intros Hinv Hnd Hin.
  { exists []. rewrite app_nil_r. conj_split; try done.
    - by intros r ?%elem_of_nil.
    - by intros r ?%elem_of_nil.
    - by intros r a ?%elem_of_nil. }
  pose proof (turn_spec_inv _ _ _ _ Hinv
                (proj1 (Forall_cons_1 _ _ _ Hin)) Hturn) as Hinv1.
  apply list.NoDup_cons in Hnd as [Hr Hnd].
  apply Forall_cons_1 in Hin as [Hrin Hin].
  assert (Forall (λ x, (x < next_ref s)%nat) order) as Hlt.
  { destruct Hinv as (_ & _ & Hrefs). apply list.Forall_forall. intros x Hx.
    apply (proj1 (list.Forall_forall _ _) Hrefs).
    by apply (proj1 (list.Forall_forall _ _) Hin). }
  assert ((r < next_ref s)%nat) as Hrlt.
  { destruct Hinv as (_ & _ & Hrefs).
    by apply (proj1 (list.Forall_forall _ _) Hrefs). }
  destruct (turn_spec_agents _ _ _ _ Hturn) as (Hnext1 & Hkeep1 & Hnew1 & Hobj1).
  destruct (run_spec_frame _ _ _ _ Hrun) as (Hnext & Habs & Hstay & Hobj).
  destruct IH as (tr & Htr & Hact & Hocc & Hlen & Hcount & Hnosp & Hsp
                  & Hdeath & Hdead & Hspawn); [done..| |].
  { apply list.Forall_forall. intros x Hx. apply Hkeep1.
    - by apply (proj1 (list.Forall_forall _ _) Hin).
    - by intros ->. }
  assert (∀ x, x ∈ deaths tr → x ≠ r) as Hdne.
  { intros x Hx ->. by apply Hdeath in Hx as [? _]. }
  destruct Hturn as
    [d Hfree Hd Ht Hag _ _ Hn1 _
    |d Hrep Hfree Hd Ht Hrm _ Hn1 _
    |d a rs Hrep Hfree Hd Ht Hrm Hag Hafree _ Hnew Hn1 _].
  - exists ([EvActivate r; EvHarvest d false] ++ tr).
    rewrite activated_app, harvested_app, deaths_app, spawned_app.
    cbn [activated harvested deaths spawned omap list_omap app].
    conj_split.
    + by rewrite Htr, Ht, <- app_assoc.
    + by rewrite Hact.
    + by constructor.
    + cbn [length]. by rewrite Hlen.
    + by rewrite <- Hag.
    + done.
    + done.
    + intros x Hx. apply Hdeath in Hx as [Hx Hx']. split; [|done].
      by apply list_elem_of_further.
    + intros x [->|Hx]%elem_of_cons.
      * rewrite Hobj by (done || lia). rewrite Hd. split; [|done].
        intros Hx. by apply Hdne in Hx.
      * by apply Hdead.
    + intros x b Hx. apply Hspawn in Hx as (? & ? & ?).
      conj_split; [lia|done..].
  - apply list_remove_Some in Hrm as (a1 & a2 & Heq & Hag1 & _).
    destruct (occupancy_inv_split s r a1 a2 Hinv Heq)
      as (_ & _ & _ & Hnotin & _ & _).
    exists ([EvActivate r; EvHarvest d false; EvDeath r] ++ tr).
    rewrite activated_app, harvested_app, deaths_app, spawned_app.
    cbn [activated harvested deaths spawned omap list_omap app].
    conj_split.
    + by rewrite Htr, Ht, <- app_assoc.
    + by rewrite Hact.
    + by constructor.
    + cbn [length]. by rewrite Hlen.
    + rewrite Hag1 in Hcount. rewrite Heq.
      rewrite !length_app in *. cbn [length] in *. lia.
    + done.
    + intros ?; congruence.
    + intros x [->|Hx]%elem_of_cons.
      * split; [apply list_elem_of_here|].
        apply Habs; [by rewrite Hag1|lia].
      * apply Hdeath in Hx as [Hx Hx']. split; [|done].
        by apply list_elem_of_further.
    + intros x [->|Hx]%elem_of_cons.
      * rewrite Hobj by (done || lia). rewrite Hd. split; [done|].
        intros _. apply list_elem_of_here.
      * rewrite elem_of_cons. rewrite <- Hdead by done.
        split; [|by right]. intros [->|Hx']; [|done].
        by destruct Hr.
    + intros x b Hx. apply Hspawn in Hx as (? & ? & ?).
      conj_split; [lia|done..].
  - apply list_remove_Some in Hrm as (a1 & a2 & Heq & -> & _).
    destruct (occupancy_inv_split s r a1 a2 Hinv Heq)
      as (_ & _ & _ & Hnotin & _ & _).
    exists ([EvActivate r; EvHarvest d false; EvDeath r;
             EvSpawn (next_ref s) a] ++ tr).
    rewrite activated_app, harvested_app, deaths_app, spawned_app.
    cbn [activated harvested deaths spawned omap list_omap app].
    conj_split.
    + by rewrite Htr, Ht, <- app_assoc.
    + by rewrite Hact.
    + by constructor.
    + cbn [length]. by rewrite Hlen.
    + rewrite Hag in Hcount. rewrite Heq.
      rewrite !length_app in *. cbn [length] in *. lia.
    + intros ?; congruence.
    + intros _. cbn [length]. by rewrite Hsp.
    + intros x [->|Hx]%elem_of_cons.
      * split; [apply list_elem_of_here|].
        apply Habs; [|lia]. rewrite Hag.
        intros [Hx|Hx%list_elem_of_singleton]%elem_of_app; [done|lia].
      * apply Hdeath in Hx as [Hx Hx']. split; [|done].
        by apply list_elem_of_further.
    + intros x [->|Hx]%elem_of_cons.
      * rewrite Hobj by (done || lia). rewrite Hd by lia. split; [done|].
        intros _. apply list_elem_of_here.
      * rewrite elem_of_cons. rewrite <- Hdead by done.
        split; [|by right]. intros [->|Hx']; [|done].
        by destruct Hr.
    + intros x b [[= -> ->]|Hx]%elem_of_cons.
      * assert (next_ref s ∉ order) as Hfresh.
        { intros Hx. apply (proj1 (list.Forall_forall _ _) Hlt) in Hx. lia. }
        conj_split; [lia| |].
        -- apply Hstay; [|done]. rewrite Hag, elem_of_app.
           right. apply list_elem_of_here.
        -- rewrite Hobj by (done || lia). done.
      * apply Hspawn in Hx as (? & ? & ?). conj_split; [lia|done..].
Qed.

(** ** One step *)

Lemma step_Ok (fuel k : nat) (s s' : Sugarscape) :
  step draw_traits fuel s = Ok (k, s') →
  ∃ order g s1,
    order ≡ₚ agents s ∧
    run_spec (default false (replace (params s))) order (set_rng g s) s1 ∧
    s' = grow (set_agent_count_seq
                 (agent_count_seq s1 ++ [length (agents s1)]) s1) ∧
    k = length (agents s1).
Proof.
  unfold step.
  pose proof (shuffle_Permutation (agents s) (rng s)) as Hperm.
  destruct (shuffle (agents s) (rng s)) as [order g]. cbn [fst] in Hperm.
  destruct (step_loop _ _ _ _ _) as [s1| |] eqn:Hloop; [|done..].
  cbn [res_bind]. intros [= <- <-].
  exists order, g, s1. split_and!; [done| |done..].
  by eapply step_loop_spec.
Qed.

Lemma init_inv (n : Z) (p : Params) (g : Rng) (s : Sugarscape) :
  Sugarscape_init draw_traits n p g = Ok s → occupancy_inv s.
Proof.
  unfold Sugarscape_init. case_bool_decide; [done|]. intros Hmk.
  destruct (make_agents_cases
              (MkSugarscape n p [] (make_capacity n) (make_capacity n) [] ∅
                 (λ _, null_agent) 0%nat g []))
    as [[_ Hraise]|(_ & s' & Hok & _ & Hnd & _ & Hocc & Hrefs & _)].
  - by rewrite Hraise in Hmk.
  - rewrite Hok in Hmk. injection Hmk as <-. by split_and!.
Qed.

Lemma step_facts (fuel k : nat) (s s' : Sugarscape) :
  occupancy_inv s → step draw_traits fuel s = Ok (k, s') →
  occupancy_inv s' ∧ k = length (agents s') ∧
  ∃ tr, trace s' = trace s ++ tr ∧
    activated tr ≡ₚ agents s ∧
    Forall (λ h, h.2 = false) (harvested tr) ∧
    length (harvested tr) = length (agents s) ∧
    (length (agents s') + length (deaths tr)
       = length (agents s) + length (spawned tr))%nat ∧
    (default false (replace (params s)) = false → spawned tr = []) ∧
    (default false (replace (params s)) = true →
       length (spawned tr) = length (deaths tr)) ∧
    (∀ r, r ∈ deaths tr → r ∈ agents s ∧ r ∉ agents s') ∧
    (∀ r, r ∈ agents s → r ∈ deaths tr ↔ is_dead (objects s' r) = true) ∧
    (∀ r a, (r, a) ∈ spawned tr →
       (next_ref s ≤ r)%nat ∧ r ∈ agents s' ∧ objects s' r = a).
Proof.
  intros Hinv Hstep.
  apply step_Ok in Hstep as (order & g & s1 & Hperm & Hrun & -> & ->).
  assert (occupancy_inv (set_rng g s)) as Hinv0 by exact Hinv.
  assert (NoDup order) as Hnd.
  { rewrite Hperm. destruct Hinv as (Hnd & _). by apply NoDup_fmap_1 in Hnd. }
  assert (Forall (λ r, r ∈ agents (set_rng g s)) order) as Hin.
  { apply list.Forall_forall. intros r Hr. by rewrite <- Hperm. }
  split; [|split; [done|]].
  { exact (run_spec_inv _ _ _ _ Hrun Hinv0 Hnd Hin). }
  destruct (run_spec_facts _ _ _ _ Hrun Hinv0 Hnd Hin)
    as (tr & Htr & Hact & Hocc & Hlen & Hcount & Hnosp & Hsp
        & Hdeath & Hdead & Hspawn).
  exists tr. cbn [trace agents objects next_ref grow set_array
                  set_agent_count_seq set_rng] in *.
  conj_split; try done.
  - by rewrite Hact.
  - by rewrite Hlen, Hperm.
  - intros r Hr. apply Hdeath in Hr as [Hr Hr']. by rewrite <- Hperm.
  - intros r Hr. apply Hdead. by rewrite Hperm.
Qed.

Lemma reachable_inv (s : Sugarscape) :
  reachable draw_traits s → occupancy_inv s.
Proof.
  induction 1 as [n p g s Hinit|fuel k s s' _ IH Hstep].
  - by eapply init_inv.
  - by eapply step_facts.
Qed.

(** C1: in every state reachable from construction by completed steps,
    the occupied set is the set of the agents' locations, it has as many
    elements as there are agents, and no two agents share a location. *)
Theorem occupancy_invariant (s : Sugarscape) :
  reachable draw_traits s →
  occupied s = list_to_set (agent_locs s) ∧
  size (occupied s) = length (agents s) ∧
  NoDup (agent_locs s).
Proof.
  intros (Hnd & Hocc & _)%reachable_inv. split_and!; [done| |done].
  rewrite Hocc, size_list_to_set by done.
  unfold agent_locs. by rewrite length_fmap.
Qed.

(** C5: in a step from a state satisfying the occupancy invariant, the
    agents that die are agents of the step-start population, they are the
    activated agents found starving or old, and none of them is in the
    agent list when the step returns; with [replace] enabled the
    population size is unchanged, with [replace] disabled it has decreased
    by the number of deaths. *)
Theorem step_deaths (fuel k : nat) (s s' : Sugarscape) (tr : list Event) :
  occupancy_inv s → step draw_traits fuel s = Ok (k, s') →
  trace s' = trace s ++ tr →
  (∀ r, r ∈ deaths tr → r ∈ agents s ∧ r ∉ agents s') ∧
  (∀ r, r ∈ agents s → r ∈ deaths tr ↔ is_dead (objects s' r) = true) ∧
  (default false (replace (params s)) = true →
     length (agents s') = length (agents s)) ∧
  (default false (replace (params s)) = false →
     length (agents s') = (length (agents s) - length (deaths tr))%nat ∧
     (length (deaths tr) ≤ length (agents s))%nat) ∧
  k = length (agents s').
Proof.
  intros Hinv Hstep Htr.
  destruct (step_facts _ _ _ _ Hinv Hstep)
    as (_ & Hk & tr' & Htr' & _ & _ & _ & Hcount & Hnosp & Hsp
        & Hdeath & Hdead & _).
  rewrite Htr in Htr'. apply app_inv_head in Htr' as <-.
  conj_split; try done.
  - intros Hrep. specialize (Hsp Hrep). lia.
  - intros Hrep. rewrite (Hnosp Hrep) in Hcount. cbn [length] in Hcount. lia.
Qed.

(** C10: in a step from a state satisfying the occupancy invariant, the
    activation order is a permutation of the population at step start;
    an agent spawned during the step is not in that population and is not
    activated, it is in the agent list when the step returns, and its
    object (location, reserve, age and the rest) is then as it was at
    spawn. *)
Theorem step_spawned_untouched (fuel k : nat) (s s' : Sugarscape)
    (tr : list Event) :
  occupancy_inv s → step draw_traits fuel s = Ok (k, s') →
  trace s' = trace s ++ tr →
  activated tr ≡ₚ agents s ∧
  length (harvested tr) = length (agents s) ∧
  ∀ r a, (r, a) ∈ spawned tr →
    (r ∉ agents s) ∧ (r ∉ activated tr) ∧ r ∈ agents s' ∧ objects s' r = a.
Proof.
  intros Hinv Hstep Htr.
  destruct (step_facts _ _ _ _ Hinv Hstep)
    as (_ & _ & tr' & Htr' & Hact & _ & Hlen & _ & _ & _ & _ & _ & Hspawn).
  rewrite Htr in Htr'. apply app_inv_head in Htr' as <-.
  conj_split; [done..|].
  intros r a Hr. apply Hspawn in Hr as (Hge & Hin & Hobj).
  assert (r ∉ agents s) as Hfresh.
  { destruct Hinv as (_ & _ & Hrefs). intros Hx.
    apply (proj1 (list.Forall_forall _ _) Hrefs) in Hx. lia. }
  conj_split; [done| |done..]. by rewrite Hact.
Qed.

(** ** [occupied.remove] never fails *)

Lemma nk_Ok {A} (a : A) : never_KeyError (Ok a).
Proof. done. Qed.

Lemma nk_bind {A B} (m : Res A) (k : A → Res B) :
  never_KeyError m → (∀ a, m = Ok a → never_KeyError (k a)) →
  never_KeyError (res_bind m k).
Proof.
  intros Hm Hk. destruct m as [a|e|]; simpl; [by apply Hk| |done].
  intros [= ->]. by apply Hm.
Qed.

Lemma nk_or_raise {A} (e : Exn) (o : option A) :
  e ≠ KeyError → never_KeyError (or_raise e o).
Proof. intros He. destruct o; simpl; [done|]. by intros [= ->]. Qed.

Lemma nk_getitems (a : list (list Z)) (locs : list (Z * Z)) :
  never_KeyError (getitems a locs).
Proof.
  induction locs as [|l locs IH]; simpl; [done|].
  apply nk_bind; [by apply nk_or_raise|]. intros x _.
  apply nk_bind; [done|]. intros xs _. done.
Qed.

Lemma nk_look_and_move (c : Z * Z) (v : Z) (s : Sugarscape) :
  never_KeyError (look_and_move c v s).
Proof.
  unfold look_and_move. apply nk_bind.
  - unfold make_visible_locs. destruct (make_arrays _ _) as [[|a arrays] g];
      done.
  - intros [locs g] _. case_bool_decide; [done|].
    apply nk_bind; [apply nk_getitems|]. intros t _.
    apply nk_bind; [by apply nk_or_raise|]. done.
Qed.

Lemma nk_harvest (l : Z * Z) (s : Sugarscape) : never_KeyError (harvest l s).
Proof.
  unfold harvest. apply nk_bind; [by apply nk_or_raise|]. intros x _.
  apply nk_bind; [by apply nk_or_raise|]. done.
Qed.

Lemma nk_Agent_step (r : nat) (s : Sugarscape) :
  never_KeyError (Agent_step r s).
Proof.
  unfold Agent_step. apply nk_bind; [apply nk_look_and_move|].
  intros [d s1] _. apply nk_bind; [apply nk_harvest|]. by intros [x s2] _.
Qed.

Lemma nk_random_loc (fuel : nat) (s : Sugarscape) :
  never_KeyError (random_loc fuel s).
Proof.
  revert s. induction fuel as [|fuel IH]; intros s; cbn [random_loc]; [done|].
  case_bool_decide; [done|]. unfold randint. case_bool_decide; [done|].
  apply IH.
Qed.

Lemma nk_add_agent (fuel : nat) (s : Sugarscape) :
  never_KeyError (add_agent draw_traits fuel s).
Proof.
  unfold add_agent. apply nk_bind; [apply nk_random_loc|].
  intros [l s1] _. by destruct (new_Agent _ _ _ _).
Qed.

Lemma nk_agent_turn (fuel : nat) (replace : bool) (r : nat) (s : Sugarscape) :
  loc (objects s r) ∈ occupied s →
  never_KeyError (agent_turn draw_traits fuel replace r s).
Proof.
  intros Hocc. unfold agent_turn. cbn [objects occupied emit].
  rewrite bool_decide_eq_true_2 by done.
  apply nk_bind; [apply nk_Agent_step|]. intros s1 _.
  destruct (_ || _); [|done].
  apply nk_bind; [by apply nk_or_raise|]. intros rs _.
  destruct replace; [|done].
  apply nk_bind; [apply nk_add_agent|]. by intros [r' s2] _.
Qed.

Lemma nk_step_loop (fuel : nat) (replace : bool) (order : list nat)
    (s : Sugarscape) :
  occupancy_inv s → NoDup order → Forall (λ r, r ∈ agents s) order →
  never_KeyError (step_loop draw_traits fuel replace order s).
Proof.
  revert s. induction order as [|r order IH]; intros s Hinv Hnd Hin;
    cbn [step_loop]; [done|].
  apply list.NoDup_cons in Hnd as [Hr Hnd].
  apply Forall_cons_1 in Hin as [Hrin Hin].
  apply nk_bind.
  - apply nk_agent_turn.
    apply list_elem_of_split in Hrin as (a1 & a2 & Heq).
    by destruct (occupancy_inv_split s r a1 a2 Hinv Heq) as (_ & _ & ? & _).
  - intros s1 Hturn%agent_turn_spec. apply IH; [|done|].
    + by eapply turn_spec_inv.
    + apply list.Forall_forall. intros x Hx.
      apply (turn_spec_agents _ _ _ _ Hturn).
      * by apply (proj1 (list.Forall_forall _ _) Hin).
      * by intros ->.
Qed.

(** The loop of [step] pass by pass: the history is the concatenation of
    one segment per activated agent, a surviving harvester stands on the
    harvested cell at the end of the loop, no harvested cell is the cell
    of an agent that is not activated in the loop, and a cell harvested
    by a survivor is not harvested again. *)
Lemma run_spec_turns (replace : bool) (order : list nat) (s s' : Sugarscape) :
  run_spec replace order s s' →
  occupancy_inv s → NoDup order → Forall (λ r, r ∈ agents s) order →
  ∃ turns,
    trace s' = trace s ++ concat (turn_events <$> turns) ∧
    who <$> turns = order ∧
    (∀ t, t ∈ turns → fate t = Survived ↔ who t ∈ agents s') ∧
    (∀ t, t ∈ turns → fate t = Survived →
       loc (objects s' (who t)) = cell t) ∧
    (∀ t x, t ∈ turns → x ∈ agents s → x ∉ order →
       cell t ≠ loc (objects s x)) ∧
    (∀ i j ti tj, (i < j)%nat → turns !! i = Some ti → turns !! j = Some tj →
       cell ti = cell tj → fate ti ≠ Survived).
Proof.
  induction 1 as [s|r order s s1 s' Hturn Hrun IH]; intros Hinv Hnd Hin.
  { exists []. rewrite app_nil_r.
    split; [done|]. split; [done|].
    split; [by intros t ?%elem_of_nil|].
    split; [by intros t ?%elem_of_nil|].
    split; [by intros t x ?%elem_of_nil|].
    intros i j ti tj _ Hi. by rewrite lookup_nil in Hi. }
  pose proof (turn_spec_inv _ _ _ _ Hinv
                (proj1 (Forall_cons_1 _ _ _ Hin)) Hturn) as Hinv1.
  apply list.NoDup_cons in Hnd as [Hr Hnd].
  apply Forall_cons_1 in Hin as [Hrin Hin].
  assert (∀ x, x ∈ agents s → (x < next_ref s)%nat) as Hlt.
  { destruct Hinv as (_ & _ & Hrefs).
    by apply (proj1 (list.Forall_forall _ _) Hrefs). }
  destruct (turn_spec_agents _ _ _ _ Hturn) as (Hnext1 & Hkeep1 & Hnew1 & Hobj1).
  destruct (run_spec_frame _ _ _ _ Hrun) as (Hnext & Habs & Hstay & Hobj).
  destruct IH as (turns & Htr & Hwho & Hfate & Hloc & Hset & Hpair);
    [done..| |].
  { apply list.Forall_forall. intros x Hx. apply Hkeep1.
    - by apply (proj1 (list.Forall_forall _ _) Hin).
    - by intros ->. }
  destruct (list_elem_of_split _ _ Hrin) as (a1 & a2 & Heq).
  destruct (occupancy_inv_split s r a1 a2 Hinv Heq)
    as (_ & Hrest & _ & Hnotin & _ & _).
  (* the cell harvested in this pass is not the cell of another agent *)
  assert (∀ d, d ∉ occupied s ∖ {[loc (objects s r)]} →
          ∀ x, x ∈ agents s → x ≠ r → d ≠ loc (objects s x)) as Hfree0.
  { intros d Hd x Hx Hxr ->. apply Hd. rewrite Hrest.
    apply elem_of_list_to_set, list_elem_of_fmap. exists x. split; [done|].
    rewrite Heq in Hx. rewrite elem_of_app, elem_of_cons in Hx.
    rewrite elem_of_app. naive_solver. }
  (* the passes that follow leave the agents outside the order alone *)
  assert (∀ t x, t ∈ turns → x ∈ agents s → x ∉ r :: order →
          cell t ≠ loc (objects s x)) as Hset0.
  { intros t x Ht Hx Hxo.
    rewrite not_elem_of_cons in Hxo. destruct Hxo as [Hxr Hxo].
    rewrite <- (Hobj1 x Hxr (Hlt x Hx)).
    apply Hset; [done| |done]. by apply Hkeep1. }
  assert (∀ (fate0 : Fate) (d : Z * Z),
            d ∉ occupied s ∖ {[loc (objects s r)]} →
            trace s1 = trace s ++ turn_events (MkTurn r d fate0) →
            (fate0 = Survived ↔ r ∈ agents s') →
            (fate0 = Survived → loc (objects s1 r) = d ∧ r ∈ agents s1) →
            ∃ turns0,
              trace s' = trace s ++ concat (turn_events <$> turns0) ∧
              who <$> turns0 = r :: order ∧
              (∀ t, t ∈ turns0 → fate t = Survived ↔ who t ∈ agents s') ∧
              (∀ t, t ∈ turns0 → fate t = Survived →
                 loc (objects s' (who t)) = cell t) ∧
              (∀ t x, t ∈ turns0 → x ∈ agents s → x ∉ r :: order →
                 cell t ≠ loc (objects s x)) ∧
              (∀ i j ti tj, (i < j)%nat → turns0 !! i = Some ti →
                 turns0 !! j = Some tj → cell ti = cell tj →
                 fate ti ≠ Survived)) as Hbuild.
  { intros fate0 d Hd Ht Hf0 Hs0.
    exists (MkTurn r d fate0 :: turns).
    cbn [fmap list_fmap concat].
    split; [by rewrite Htr, Ht, <- app_assoc|].
    split; [cbn [who]; by rewrite <- Hwho|].
    split.
    { intros t [->|Ht']%elem_of_cons; [exact Hf0|by apply Hfate]. }
    split.
    { intros t [->|Ht']%elem_of_cons; [|by apply Hloc].
      cbn [fate who cell]. intros Hsv. destruct (Hs0 Hsv) as [Hl _].
      rewrite Hobj; [exact Hl|exact Hr|]. specialize (Hlt r Hrin). lia. }
    split.
    { intros t x [->|Ht']%elem_of_cons Hx Hxo; [|by apply Hset0].
      cbn [cell]. rewrite not_elem_of_cons in Hxo. destruct Hxo as [Hxr _].
      by apply Hfree0. }
    intros i j ti tj Hij Hi Hj Hcell.
    destruct j as [|j]; [lia|]. cbn in Hj.
    destruct i as [|i]; cbn in Hi.
    - injection Hi as <-. cbn [fate cell] in *. intros Hsv.
      destruct (Hs0 Hsv) as [Hl Hr1].
      apply (Hset tj r); [by eapply list_elem_of_lookup_2|exact Hr1|exact Hr|].
      by rewrite Hl.
    - apply (Hpair i j ti tj); [lia|done..]. }
  assert ((r < next_ref s)%nat) as Hrlt by (by apply Hlt).
  destruct Hturn as
    [d Hfree Hd Ht Hag _ Hl Hn1 _
    |d Hrep Hfree Hd Ht Hrm _ Hn1 _
    |d a rs Hrep Hfree Hd Ht Hrm Hag Hafree _ Hnew Hn1 _].
  - apply (Hbuild Survived d Hfree Ht).
    + split; [|done]. intros _. apply Hstay; [by rewrite Hag|exact Hr].
    + intros _. split; [exact Hl|by rewrite Hag].
  - apply (Hbuild Died d Hfree Ht).
    + split; [done|]. intros Hin'. exfalso. revert Hin'. apply Habs; [|lia].
      apply list_remove_Some in Hrm as (b1 & b2 & Heq' & Hag1 & _).
      destruct (occupancy_inv_split s r b1 b2 Hinv Heq')
        as (_ & _ & _ & Hnotin' & _ & _).
      by rewrite Hag1.
    + done.
  - apply (Hbuild (Replaced (next_ref s) a) d Hfree Ht).
    + split; [done|]. intros Hin'. exfalso. revert Hin'. apply Habs; [|lia].
      apply list_remove_Some in Hrm as (b1 & b2 & Heq' & -> & _).
      destruct (occupancy_inv_split s r b1 b2 Hinv Heq')
        as (_ & _ & _ & Hnotin' & _ & _).
      rewrite Hag. intros [Hx|Hx%list_elem_of_singleton]%elem_of_app;
        [done|lia].
    + done.
Qed.

(** C6, amended: in a step from a state satisfying the occupancy
    invariant the removal of an agent's location from the occupied set
    never fails, and the history of the step is one segment per agent of
    the step-start population, each agent once: its activation, exactly
    one harvest on its behalf, of a cell that is outside the occupied set
    at that moment, then its death and replacement, if any.  A harvester
    that survives stands on the harvested cell at return, and a cell is
    harvested a second time in the step only if its earlier harvester
    died in the step: the cells harvested by survivors are harvested
    once.  (A cell vacated by a death may be harvested again: see
    [harvested_twice_counterexample].) *)
Theorem step_harvests_unoccupied (fuel : nat) (s : Sugarscape) :
  occupancy_inv s →
  never_KeyError (step draw_traits fuel s) ∧
  ∀ k s' tr,
    step draw_traits fuel s = Ok (k, s') → trace s' = trace s ++ tr →
    Forall (λ h, h.2 = false) (harvested tr) ∧
    length (harvested tr) = length (activated tr) ∧
    activated tr ≡ₚ agents s ∧
    ∃ turns,
      tr = concat (turn_events <$> turns) ∧
      NoDup (who <$> turns) ∧ who <$> turns ≡ₚ agents s ∧
      (∀ t, t ∈ turns → fate t = Survived ↔ who t ∈ agents s') ∧
      (∀ t, t ∈ turns → fate t = Survived →
         loc (objects s' (who t)) = cell t) ∧
      (∀ i j ti tj, (i < j)%nat → turns !! i = Some ti →
         turns !! j = Some tj → cell ti = cell tj → fate ti ≠ Survived).
Proof.
  intros Hinv. split.
  - unfold step.
    pose proof (shuffle_Permutation (agents s) (rng s)) as Hperm.
    destruct (shuffle (agents s) (rng s)) as [order g]. cbn [fst] in Hperm.
    apply nk_bind; [|done].
    apply nk_step_loop.
    + exact Hinv.
    + rewrite Hperm. destruct Hinv as (Hnd & _). by apply NoDup_fmap_1 in Hnd.
    + apply list.Forall_forall. intros r Hr. by rewrite <- Hperm.
  - intros k s' tr Hstep Htr.
    destruct (step_facts _ _ _ _ Hinv Hstep)
      as (_ & _ & tr' & Htr' & Hact & Hfree & Hlen & _).
    rewrite Htr in Htr'. apply app_inv_head in Htr' as <-.
    split; [done|]. split; [by rewrite Hlen, Hact|]. split; [done|].
    apply step_Ok in Hstep as (order & g & s1 & Hperm & Hrun & -> & _).
    assert (occupancy_inv (set_rng g s)) as Hinv0 by exact Hinv.
    assert (NoDup order) as Hnd.
    { rewrite Hperm. destruct Hinv as (Hnd & _).
      by apply NoDup_fmap_1 in Hnd. }
    assert (Forall (λ r, r ∈ agents (set_rng g s)) order) as Hin.
    { apply list.Forall_forall. intros r Hr. by rewrite <- Hperm. }
    destruct (run_spec_turns _ _ _ _ Hrun Hinv0 Hnd Hin)
      as (turns & Htr1 & Hwho & Hfate & Hloc & _ & Hpair).
    cbn [trace agents objects grow set_array set_agent_count_seq set_rng] in *.
    exists turns.
    split; [rewrite Htr1 in Htr; by apply app_inv_head in Htr|].
    split; [by rewrite Hwho|]. split; [by rewrite Hwho|].
    split; [exact Hfate|]. split; [exact Hloc|exact Hpair].
Qed.

(** ** The capacity grid *)

Lemma dist_lt_edge (x : Dist) (b : Z) :
  0 ≤ dist_sq x → 0 ≤ b → (dist_R x < IZR b)%R ↔ dist_sq x < b * b.
Proof.
  intros Hx Hb. unfold dist_R.
  assert (IZR b = sqrt (IZR (b * b))) as ->.
  { rewrite mult_IZR, sqrt_square; [done|]. by apply IZR_le. }
  split.
  - intros Hlt%sqrt_lt_0_alt. by apply lt_IZR.
  - intros Hlt. apply sqrt_lt_1_alt. split; [by apply IZR_le|by apply IZR_lt].
Qed.

Lemma dist_R_min (x y : Dist) :
  0 ≤ dist_sq x → 0 ≤ dist_sq y →
  dist_R (dist_min x y) = Rmin (dist_R x) (dist_R y).
Proof.
  intros Hx Hy. unfold dist_R, dist_min. cbn [dist_sq].
  destruct (Z.le_ge_cases (dist_sq x) (dist_sq y)) as [Hle|Hle].
  - rewrite Z.min_l, Rmin_left; [done| |done].
    apply sqrt_le_1_alt. by apply IZR_le.
  - rewrite Z.min_r, Rmin_right; [done| |done].
    apply sqrt_le_1_alt. by apply IZR_le.
Qed.

Lemma hypot_nonneg (dx dy : Z) : 0 ≤ dist_sq (hypot dx dy).
Proof. unfold hypot. cbn [dist_sq]. nia. Qed.

Lemma digitize1_tiers (x : Dist) :
  let c := digitize1 [21; 16; 11; 6] x in
  (21 * 21 ≤ dist_sq x → c = 0) ∧
  (16 * 16 ≤ dist_sq x < 21 * 21 → c = 1) ∧
  (11 * 11 ≤ dist_sq x < 16 * 16 → c = 2) ∧
  (6 * 6 ≤ dist_sq x < 11 * 11 → c = 3) ∧
  (dist_sq x < 6 * 6 → c = 4).
Proof.
  intros c. subst c. unfold digitize1, dist_ltb_edge.
  rewrite !filter_cons, filter_nil.
  repeat case_decide; rewrite ?bool_decide_eq_true in *; cbn [length];
    conj_split; intros; lia.
Qed.

Lemma cell_capacity_reflect (i j : Z) :
  cell_capacity (50 - i) (50 - j) = cell_capacity i j ∧
  cell_capacity (50 - j) (50 - i) = cell_capacity i j.
Proof.
  unfold cell_capacity, dist_min, hypot. cbn [dist_sq].
  split; f_equal; f_equal; rewrite Z.min_comm; f_equal; ring.
Qed.

Lemma agent_turn_frame (fuel : nat) (replace : bool) (r : nat)
    (s s' : Sugarscape) :
  agent_turn draw_traits fuel replace r s = Ok s' →
  capacity s' = capacity s ∧ grid_n s' = grid_n s ∧ params s' = params s.
Proof.
  intros H. apply agent_turn_Ok in H as (_ & s1 & Hstep & Hcase).
  apply Agent_step_Ok in Hstep as (d & g & a' & sugar & _ & _ & ->).
  destruct Hcase
    as [[_ ->]|(_ & rs & _ & [[_ ->]|(_ & r' & Hadd)])]; [done..|].
  by apply add_agent_Ok in Hadd as (a & g2 & _ & _ & _ & _ & ->).
Qed.

Lemma step_loop_frame (fuel : nat) (replace : bool) (order : list nat)
    (s s' : Sugarscape) :
  step_loop draw_traits fuel replace order s = Ok s' →
  capacity s' = capacity s ∧ grid_n s' = grid_n s ∧ params s' = params s.
Proof.
  revert s. induction order as [|r order IH]; intros s; cbn [step_loop].
  - by intros [= <-].
  - destruct (agent_turn _ _ _ _ s) as [s1| |] eqn:Hturn; [|done..].
    cbn [res_bind]. intros (-> & -> & ->)%IH. by eapply agent_turn_frame.
Qed.

Lemma step_frame (fuel k : nat) (s s' : Sugarscape) :
  step draw_traits fuel s = Ok (k, s') →
  capacity s' = capacity s ∧ grid_n s' = grid_n s ∧ params s' = params s.
Proof.
  unfold step. destruct (shuffle (agents s) (rng s)) as [order g].
  destruct (step_loop _ _ _ _ _) as [s1| |] eqn:Hloop; [|done..].
  cbn [res_bind]. intros [= <- <-].
  by apply step_loop_frame in Hloop as (? & ? & ?).
Qed.

Lemma reachable_capacity (s : Sugarscape) :
  reachable draw_traits s → 0 ≤ grid_n s ∧ capacity s = make_capacity (grid_n s).
Proof.
  induction 1 as [n p g s Hinit|fuel k s s' _ IH Hstep].
  - by apply Sugarscape_init_field in Hinit as (? & -> & _ & -> & _).
  - by apply step_frame in Hstep as (-> & -> & _).
Qed.

(** C7: in every state reachable from construction, and after any further
    [grow] and [harvest] calls, the capacity of cell [(i, j)] is the tier
    of the smaller of its two Euclidean distances to the peaks [(15, 15)]
    and [(35, 35)]: 0 from 21 up, 1 from 16, 2 from 11, 3 from 6, and 4
    below 6.  The capacity grid is the one computed at construction. *)
Theorem capacity_tiers (s : Sugarscape) (ops : list FieldOp) (i j : Z) :
  reachable draw_traits s → 0 ≤ i < grid_n s → 0 ≤ j < grid_n s →
  let d := Rmin (dist_R (hypot (i - 15) (j - 15)))
                (dist_R (hypot (i - 35) (j - 35))) in
  capacity (run_ops ops s) = make_capacity (grid_n s) ∧
  ∃ c, getitem (capacity (run_ops ops s)) (i, j) = Some c ∧
    ((21 <= d)%R → c = 0) ∧
    ((16 <= d < 21)%R → c = 1) ∧
    ((11 <= d < 16)%R → c = 2) ∧
    ((6 <= d < 11)%R → c = 3) ∧
    ((d < 6)%R → c = 4).
Proof.
  intros [Hn Hcap]%reachable_capacity Hi Hj d.
  destruct (run_ops_frame ops s) as [-> _]. rewrite Hcap.
  split; [done|]. exists (cell_capacity i j).
  split; [by apply make_capacity_getitem|].
  unfold cell_capacity.
  set (x := dist_min (hypot (i - 15) (j - 15)) (hypot (i - 35) (j - 35))).
  assert (0 ≤ dist_sq x) as Hx.
  { unfold x, dist_min. cbn [dist_sq].
    pose proof (hypot_nonneg (i - 15) (j - 15)).
    pose proof (hypot_nonneg (i - 35) (j - 35)). lia. }
  assert (d = dist_R x) as Hd.
  { unfold d, x. symmetry. apply dist_R_min; apply hypot_nonneg. }
  pose proof (dist_lt_edge x 21 Hx ltac:(lia)) as H21.
  pose proof (dist_lt_edge x 16 Hx ltac:(lia)) as H16.
  pose proof (dist_lt_edge x 11 Hx ltac:(lia)) as H11.
  pose proof (dist_lt_edge x 6 Hx ltac:(lia)) as H6.
  destruct (digitize1_tiers x) as (T0 & T1 & T2 & T3 & T4).
  rewrite Hd. conj_split.
  - intros Hr. apply T0. apply Z.le_ngt. intros Hlt%H21. lra.
  - intros [Hr1 Hr2]. apply T1. split.
    + apply Z.le_ngt. intros Hlt%H16. lra.
    + by apply H21.
  - intros [Hr1 Hr2]. apply T2. split.
    + apply Z.le_ngt. intros Hlt%H11. lra.
    + by apply H16.
  - intros [Hr1 Hr2]. apply T3. split.
    + apply Z.le_ngt. intros Hlt%H6. lra.
    + by apply H11.
  - intros Hr. apply T4. by apply H6.
Qed.

(** C9, amended: in every state reachable from construction, a cell
    [(i, j)] whose image [(50 - i, 50 - j)] under the point reflection
    that exchanges the peaks lies in the grid has the capacity of that
    image; the same holds for the reflection [(50 - j, 50 - i)] across
    the other diagonal.  On a grid of size 51 every cell has its image in
    the grid. *)
Theorem capacity_reflection (s : Sugarscape) (i j : Z) :
  reachable draw_traits s →
  0 ≤ i < grid_n s → 0 ≤ j < grid_n s →
  0 ≤ 50 - i < grid_n s → 0 ≤ 50 - j < grid_n s →
  is_Some (getitem (capacity s) (i, j)) ∧
  getitem (capacity s) (50 - i, 50 - j) = getitem (capacity s) (i, j) ∧
  getitem (capacity s) (50 - j, 50 - i) = getitem (capacity s) (i, j).
Proof.
  intros [Hn Hcap]%reachable_capacity Hi Hj Hi' Hj'. rewrite Hcap.
  rewrite !make_capacity_getitem by done.
  destruct (cell_capacity_reflect i j) as [-> ->]. by split_and!.
Qed.

(** * Further properties of the code *)

(** ** [make_locs] *)

Lemma bind_lookup_block {A B} (f : A → list B) (m : nat) (l : list A)
    (k j : nat) (x : A) :
  Forall (λ y, length (f y) = m) l → l !! k = Some x → (j < m)%nat →
  (l ≫= f) !! (k * m + j)%nat = f x !! j.
Proof.
  intros Hlen. revert k. induction Hlen as [|y l Hy _ IH]; intros k Hk Hj.
  { done. }
  rewrite bind_cons. destruct k as [|k]; simpl in Hk.
  - injection Hk as ->. simpl. rewrite lookup_app_l by lia. done.
  - rewrite lookup_app_r by lia.
    replace (S k * m + j - length (f y))%nat with (k * m + j)%nat by lia.
    by apply IH.
Qed.

(** X1: [make_locs n m] lists the index pairs of an [n] by [m] grid, each
    exactly once, in row-major order; a dimension of zero or less gives
    the empty list. *)
Theorem make_locs_row_major (n m : Z) :
  length (make_locs n m) = (Z.to_nat n * Z.to_nat m)%nat ∧
  NoDup (make_locs n m) ∧
  (∀ l, l ∈ make_locs n m ↔ 0 ≤ l.1 < n ∧ 0 ≤ l.2 < m) ∧
  (∀ i j, 0 ≤ i < n → 0 ≤ j < m →
     make_locs n m !! Z.to_nat (i * m + j) = Some (i, j)) ∧
  (n ≤ 0 ∨ m ≤ 0 → make_locs n m = []).
Proof.
  conj_split.
  - apply make_locs_length.
  - apply NoDup_make_locs.
  - apply elem_of_make_locs.
  - intros i j Hi Hj. unfold make_locs.
    replace (Z.to_nat (i * m + j))
      with (Z.to_nat i * Z.to_nat m + Z.to_nat j)%nat by nia.
    rewrite (bind_lookup_block _ (Z.to_nat m) _ _ _ i).
    + rewrite list_lookup_fmap, lookup_seqZ_lt by lia. simpl.
      do 2 f_equal. lia.
    + apply list.Forall_forall. intros y _.
      by rewrite length_fmap, length_seqZ.
    + rewrite lookup_seqZ_lt by lia. f_equal. lia.
    + lia.
  - intros Hnm. apply length_zero_iff_nil. rewrite make_locs_length. lia.
Qed.

(** ** A vision of zero or less *)

Lemma make_arrays_length (ds : list Z) (g : Rng) :
  length (make_arrays ds g).1 = length ds.
Proof.
  pose proof (make_arrays_blocks ds g) as H. by rewrite (Forall2_length H).
Qed.

(** X2: with a vision of zero or less the list of arrays handed to
    [np.vstack] is empty, so [make_visible_locs] raises [ValueError], and
    so does [look_and_move], whatever the center and the state. *)
Theorem vision_not_positive_raises (v : Z) (c : Z * Z) (s : Sugarscape) :
  v ≤ 0 →
  make_visible_locs v (rng s) = Raise ValueError ∧
  look_and_move c v s = Raise ValueError.
Proof.
  intros Hv.
  assert (make_visible_locs v (rng s) = Raise ValueError) as Hk.
  { unfold make_visible_locs.
    pose proof (make_arrays_length (seqZ 1 v) (rng s)) as Hlen.
    destruct (make_arrays (seqZ 1 v) (rng s)) as [arrays g].
    rewrite length_seqZ in Hlen. simpl in Hlen.
    destruct arrays; [done|simpl in Hlen; lia]. }
  split; [done|]. unfold look_and_move. by rewrite Hk.
Qed.

(** ** [grow], repeated *)

Lemma zip_with_getitem (f : Z → Z → Z) (a b : list (list Z)) (l : Z * Z)
    (x c : Z) :
  same_shape a b → getitem a l = Some x → getitem b l = Some c →
  getitem (zip_with (zip_with f) a b) l = Some (f x c).
Proof.
  intros Hsh. unfold getitem.
  rewrite length_zip_with, <- (Forall2_length Hsh), Nat.min_id.
  destruct (norm_index (length a) l.1) as [r|]; [simpl|done].
  destruct (a !! r) as [row|] eqn:Hrow; [simpl|done].
  destruct (Forall2_lookup_l _ _ _ _ _ Hsh Hrow) as (crow & Hcrow & Hlen).
  rewrite Hcrow. simpl. rewrite lookup_zip_with, Hrow, Hcrow. simpl.
  rewrite length_zip_with, <- Hlen, Nat.min_id.
  destruct (norm_index (length row) l.2) as [k|]; [simpl|done].
  intros Hx Hc. by rewrite lookup_zip_with, Hx, Hc.
Qed.

Lemma zip_with_same_shape (f : Z → Z → Z) (a b : list (list Z)) :
  same_shape a b → same_shape (zip_with (zip_with f) a b) b.
Proof.
  induction 1 as [|r cr a b Hlen _ IH]; simpl; constructor; [|done].
  rewrite length_zip_with. lia.
Qed.

Lemma grow_iter_frame (k : nat) (s : Sugarscape) :
  capacity (Nat.iter k grow s) = capacity s ∧
  params (Nat.iter k grow s) = params s ∧
  (same_shape (array s) (capacity s) →
   same_shape (array (Nat.iter k grow s)) (capacity s)).
Proof.
  induction k as [|k (Hc & Hp & Hsh)]; [done|].
  change (Nat.iter (S k) grow s) with (grow (Nat.iter k grow s)).
  unfold grow at 1 2 3. cbn [capacity params array set_array].
  split; [exact Hc|]. split; [exact Hp|]. intros H.
  unfold grow. cbn [array set_array]. rewrite <- Hc.
  apply zip_with_same_shape. rewrite Hc. by apply Hsh.
Qed.

(** X3: a cell that holds [x] with capacity [c].  When the grow rate [g]
    is not negative, [x] is a 64-bit value at most [c] and [c + g] does not
    overflow, the cell holds [min (x + k * g) c] after [k >= 1] calls of
    [grow]: a cell at capacity stays at capacity, and every cell is full
    again once [x + k * g] reaches its capacity.  When [x + g] does
    overflow the 64-bit integers and the capacity is not negative, one
    call of [grow] leaves the wrapped sum [x + g - 2 ^ 64], a negative
    level. *)
Theorem grow_iter (s : Sugarscape) (l : Z * Z) (x c : Z) :
  same_shape (array s) (capacity s) →
  getitem (array s) l = Some x → getitem (capacity s) l = Some c →
  let g := default 1 (grow_rate (params s)) in
  (0 ≤ g → int64_min ≤ x ≤ c → c + g ≤ int64_max →
   ∀ k, (1 ≤ k)%nat →
     getitem (array (Nat.iter k grow s)) l
     = Some (Z.min (x + Z.of_nat k * g) c)) ∧
  (x ≤ int64_max → g ≤ int64_max → int64_max < x + g → 0 ≤ c →
   getitem (array (grow s)) l = Some (x + g - 2 ^ 64) ∧ x + g - 2 ^ 64 < 0).
Proof.
  intros Hsh Hx Hc g. split.
  - intros Hg Hxc Hcg k Hk.
    destruct k as [|k]; [lia|]. clear Hk.
    induction k as [|k IH].
    + change (Nat.iter 1 grow s) with (grow s).
      unfold grow. cbn [array set_array]. fold g.
      rewrite (zip_with_getitem _ _ _ l x c Hsh Hx Hc). f_equal.
      rewrite wrap64_small by lia. lia.
    + change (Nat.iter (S (S k)) grow s) with (grow (Nat.iter (S k) grow s)).
      destruct (grow_iter_frame (S k) s) as (Hcap & Hpar & Hshk).
      unfold grow at 1. cbn [array set_array]. rewrite Hcap, Hpar. fold g.
      rewrite (zip_with_getitem _ _ _ l _ c (Hshk Hsh) IH Hc). f_equal.
      assert (0 ≤ Z.of_nat (S k) * g) as Hm by (apply Z.mul_nonneg_nonneg; lia).
      assert (Z.of_nat (S (S k)) * g = Z.of_nat (S k) * g + g) as -> by lia.
      rewrite wrap64_small by lia. lia.
  - intros Hxm Hgm Hov Hcm.
    unfold grow. cbn [array set_array]. fold g.
    rewrite (zip_with_getitem _ _ _ l x c Hsh Hx Hc).
    rewrite wrap64_over by lia.
    unfold int64_min, int64_max in *. split; [f_equal|]; lia.
Qed.

(** ** [harvest] *)

Lemma sum_insert (row : list Z) (i : nat) (y v : Z) :
  row !! i = Some y →
  foldr Z.add 0 (<[i := v]> row) = foldr Z.add 0 row - y + v.
Proof.
  revert i. induction row as [|z row IH]; intros [|i] Hi; simplify_eq/=.
  - lia.
  - rewrite (IH i Hi). lia.
Qed.

Lemma array_sum_insert (a : list (list Z)) (r : nat) (row row' : list Z) :
  a !! r = Some row →
  array_sum (<[r := row']> a)
  = array_sum a - foldr Z.add 0 row + foldr Z.add 0 row'.
Proof.
  unfold array_sum. revert r.
  induction a as [|z a IH]; intros [|r] Hr; simplify_eq/=.
  - rewrite !foldr_app.
    assert (∀ (l : list Z) (b : Z), foldr Z.add b l = foldr Z.add 0 l + b) as Hf.
    { induction l as [|u l IHl]; intros b; simpl; [lia|]. rewrite IHl. lia. }
    rewrite (Hf row), (Hf row'). lia.
  - rewrite !foldr_app.
    assert (∀ (l : list Z) (b : Z), foldr Z.add b l = foldr Z.add 0 l + b) as Hf.
    { induction l as [|u l IHl]; intros b; simpl; [lia|]. rewrite IHl. lia. }
    rewrite (Hf z (foldr Z.add 0 (concat (<[r:=row']> a)))).
    rewrite (Hf z (foldr Z.add 0 (concat a))).
    rewrite (IH r Hr). lia.
Qed.

(** X4: [harvest(loc)] on a valid index returns the level of the cell and
    sets it to zero: every other cell, the capacity grid, the agents and
    the occupied set are unchanged, and the total of the grid drops by
    exactly the amount returned.  On an index outside the array it raises
    [IndexError]. *)
Theorem harvest_effect (l : Z * Z) (s : Sugarscape) :
  (getitem (array s) l = None → harvest l s = Raise IndexError) ∧
  (∀ x, getitem (array s) l = Some x →
     ∃ s', harvest l s = Ok (x, s') ∧
       getitem (array s') l = Some 0 ∧
       (∀ l', 0 ≤ l.1 → 0 ≤ l.2 → 0 ≤ l'.1 → 0 ≤ l'.2 → l' ≠ l →
          getitem (array s') l' = getitem (array s) l') ∧
       array_sum (array s') = array_sum (array s) - x ∧
       capacity s' = capacity s ∧ agents s' = agents s ∧
       occupied s' = occupied s).
Proof.
  split.
  - intros Hnone. unfold harvest. cbn [array emit]. by rewrite Hnone.
  - intros x Hx. unfold harvest. cbn [array emit]. rewrite Hx.
    cbn [or_raise res_bind]. revert Hx. unfold getitem, setitem.
    destruct (norm_index (length (array s)) l.1) as [r|] eqn:Hr; [simpl|done].
    destruct (array s !! r) as [row|] eqn:Hrow; [simpl|done].
    destruct (norm_index (length row) l.2) as [k|] eqn:Hk; [simpl|done].
    intros Hx. eexists. split; [done|]. cbn [array set_array capacity agents
      occupied emit].
    assert (r < length (array s))%nat as Hrlt by by eapply lookup_lt_Some.
    assert (k < length row)%nat as Hklt by by eapply lookup_lt_Some.
    conj_split; try done.
    + rewrite length_insert, Hr. simpl.
      rewrite list_lookup_insert_eq by done. simpl.
      rewrite length_insert, Hk. simpl.
      by rewrite list_lookup_insert_eq.
    + intros [i j] H1 H2 H1' H2' Hne. simpl in *.
      rewrite length_insert.
      destruct (norm_index (length (array s)) i) as [r'|] eqn:Hr'; [simpl|done].
      destruct (decide (r' = r)) as [->|Hrne].
      * rewrite list_lookup_insert_eq by done. rewrite Hrow. simpl.
        rewrite length_insert.
        destruct (norm_index (length row) j) as [k'|] eqn:Hk'; [simpl|done].
        rewrite list_lookup_insert_ne; [done|]. intros ->.
        apply Hne. unfold norm_index in *.
        repeat case_bool_decide; simplify_eq; try lia.
        destruct l as [l1 l2]. simpl in *. f_equal; lia.
      * by rewrite list_lookup_insert_ne.
    + rewrite (array_sum_insert _ _ row _ Hrow), (sum_insert _ _ x 0 Hx). lia.
Qed.

(** ** [random_loc] and [add_agent] *)

(** X5: when [random_loc] returns, the cell is inside the grid and not
    occupied, and only the random source has advanced; when every cell of
    the grid is occupied it never returns, whatever the random source
    draws and however long it is followed. *)
Theorem random_loc_free_cell (fuel : nat) (s : Sugarscape) :
  (∀ l s', random_loc fuel s = Ok (l, s') →
     (l ∉ occupied s) ∧ in_grid (grid_n s) l ∧ ∃ g, s' = set_rng g s) ∧
  (0 < grid_n s → (∀ l, in_grid (grid_n s) l → l ∈ occupied s) →
   random_loc fuel s = Looping).
Proof.
  split.
  - intros l s' H. by apply random_loc_Ok in H.
  - intros Hn Hfull. revert s Hn Hfull.
    induction fuel as [|fuel IH]; intros s Hn Hfull; cbn [random_loc]; [done|].
    rewrite bool_decide_eq_false_2 by lia. unfold randint.
    cbn [occupied set_rng].
    rewrite bool_decide_eq_false_2.
    + by apply IH.
    + intros Hfree. apply Hfree, Hfull.
      assert (Z.to_nat (grid_n s) ≠ 0%nat) as Hnz by lia.
      split; cbn [fst snd tape cursor].
      * pose proof (Nat.mod_upper_bound
          (tape (rng s) (cursor (rng s))) (Z.to_nat (grid_n s)) Hnz). lia.
      * pose proof (Nat.mod_upper_bound
          (tape (rng s) (S (cursor (rng s)))) (Z.to_nat (grid_n s)) Hnz). lia.
Qed.

(** X6: when [add_agent] returns from a state satisfying the occupancy
    invariant, exactly one agent has been appended to the agent list,
    behind a new reference, at a cell inside the grid that was not
    occupied; that cell has joined the occupied set, the other agents and
    the grid are untouched, and the occupancy invariant still holds. *)
Theorem add_agent_effect (fuel : nat) (s s' : Sugarscape) (r : nat) :
  occupancy_inv s → add_agent draw_traits fuel s = Ok (r, s') →
  occupancy_inv s' ∧
  agents s' = agents s ++ [r] ∧ (r ∉ agents s) ∧
  in_grid (grid_n s) (loc (objects s' r)) ∧
  (loc (objects s' r) ∉ occupied s) ∧
  occupied s' = {[loc (objects s' r)]} ∪ occupied s ∧
  array s' = array s ∧
  (∀ x, x ∈ agents s → objects s' x = objects s x).
Proof.
  intros (Hnd & Hocc & Hrefs) Hadd.
  apply add_agent_Ok in Hadd as (a & g & Hfree & Hgrid & _ & -> & ->).
  cbn [agents occupied objects array grid_n next_ref].
  assert (next_ref s ∉ agents s) as Hfresh.
  { intros Hin. apply (proj1 (list.Forall_forall _ _) Hrefs) in Hin. lia. }
  assert (∀ x, x ∈ agents s → <[next_ref s := a]> (objects s) x = objects s x)
    as Hold.
  { intros x Hx. apply fn_lookup_insert_ne. by intros <-. }
  rewrite fn_lookup_insert.
  split;
    [|split; [reflexivity|]; split; [exact Hfresh|]; split; [exact Hgrid|];
      split; [exact Hfree|]; split; [reflexivity|]; split;
      [reflexivity|exact Hold]].
  assert (agent_locs
            (MkSugarscape (grid_n s) (params s) (agent_count_seq s)
               (capacity s) (array s) (agents s ++ [next_ref s])
               ({[loc a]} ∪ occupied s) (<[next_ref s:=a]> (objects s))
               (S (next_ref s)) g (trace s ++ [EvSpawn (next_ref s) a]))
          = agent_locs s ++ [loc a]) as Hlocs.
  { unfold agent_locs. cbn [agents objects].
    rewrite fmap_app. cbn [fmap list_fmap]. rewrite fn_lookup_insert.
    by rewrite (locs_ext (objects s) _ (agents s) Hold). }
  unfold occupancy_inv. rewrite Hlocs. cbn [agents occupied next_ref].
  split; [|split].
  - rewrite Permutation_app_comm. apply list.NoDup_cons. split; [|done].
    rewrite Hocc in Hfree. by apply not_elem_of_list_to_set in Hfree.
  - rewrite list_to_set_app_L, Hocc. simpl. set_solver.
  - apply Forall_app. split.
    + eapply List.Forall_impl; [|exact Hrefs]. intros; simpl in *; lia.
    + apply Forall_singleton. lia.
Qed.

(** ** Construction with default and degenerate arguments *)

Lemma make_capacity_shape (n : Z) : 0 ≤ n → shape (make_capacity n) = (n, n).
Proof.
  intros Hn. unfold shape. rewrite make_capacity_length.
  destruct (make_capacity n) as [|row rows] eqn:Hcap.
  - apply (f_equal length) in Hcap. rewrite make_capacity_length in Hcap.
    simpl in Hcap. f_equal; lia.
  - assert (make_capacity n !! 0%nat = Some row) as Hrow by by rewrite Hcap.
    apply (f_equal length) in Hcap. rewrite make_capacity_length in Hcap.
    simpl in Hcap.
    rewrite make_capacity_row in Hrow by lia.
    injection Hrow as <-. rewrite length_fmap, length_seqZ. f_equal; lia.
Qed.

Lemma Sugarscape_init_cases (n : Z) (p : Params) (g : Rng) :
  0 ≤ n →
  let box := default (n, n) (starting_box p) in
  let cells := Z.of_nat (Z.to_nat box.1 * Z.to_nat box.2) in
  let k := default 400 (num_agents p) in
  (cells < k ∧ Sugarscape_init draw_traits n p g = Raise AssertionError) ∨
  (k ≤ cells ∧
   ∃ s, Sugarscape_init draw_traits n p g = Ok s ∧
     length (agents s) = Z.to_nat k ∧
     Forall (λ l, 0 ≤ l.1 < box.1 ∧ 0 ≤ l.2 < box.2) (agent_locs s) ∧
     occupied s = list_to_set (agent_locs s)).
Proof.
  intros Hn box cells k. unfold Sugarscape_init.
  rewrite bool_decide_eq_false_2 by lia.
  set (s0 := MkSugarscape n p [] (make_capacity n) (make_capacity n) [] ∅
               (λ _, null_agent) 0%nat g []).
  pose proof (make_agents_cases s0) as Hcases.
  cbn [array params s0] in Hcases. rewrite make_capacity_shape in Hcases by done.
  fold box in Hcases. fold cells in Hcases. fold k in Hcases.
  destruct Hcases
    as [[Hlt Hraise]|(Hle & s' & Hok & Hlen & _ & Hbox & Hocc & _)].
  - left. by split.
  - right. split; [done|]. by exists s'.
Qed.

(** X7: with neither [num_agents] nor [starting_box] given, construction
    asks for 400 agents on the whole grid: it raises the assertion failure
    on every grid smaller than 20 by 20 and succeeds with 400 agents on
    every other. *)
Theorem default_construction (n : Z) (p : Params) (g : Rng) :
  0 ≤ n → starting_box p = None → num_agents p = None →
  (n < 20 → Sugarscape_init draw_traits n p g = Raise AssertionError) ∧
  (20 ≤ n → ∃ s, Sugarscape_init draw_traits n p g = Ok s ∧
                 length (agents s) = 400%nat).
Proof.
  intros Hn Hbox Hnum.
  pose proof (Sugarscape_init_cases n p g Hn) as Hcases.
  rewrite Hbox, Hnum in Hcases. cbn [default fst snd] in Hcases.
  destruct Hcases as [[Hlt Hraise]|(Hle & s & Hok & Hlen & _)].
  - split; [done|]. intros Hbig. nia.
  - split; [intros Hsmall; nia|]. intros _. exists s. split; [done|].
    rewrite Hlen. reflexivity.
Qed.

(** X8: a [num_agents] of zero or less is not rejected: construction
    succeeds with no agents and an empty occupied set. *)
Theorem construction_without_agents (n k : Z) (p : Params) (g : Rng) :
  0 ≤ n → num_agents p = Some k → k ≤ 0 →
  ∃ s, Sugarscape_init draw_traits n p g = Ok s ∧
       agents s = [] ∧ occupied s = ∅.
Proof.
  intros Hn Hnum Hk.
  pose proof (Sugarscape_init_cases n p g Hn) as Hcases.
  rewrite Hnum in Hcases. cbv zeta in Hcases. simpl in Hcases.
  destruct Hcases as [[Hlt _]|(_ & s & Hok & Hlen & _ & Hocc)]; [lia|].
  exists s. split; [done|].
  assert (agents s = []) as Hag.
  { apply length_zero_iff_nil. rewrite Hlen. lia. }
  split; [done|]. rewrite Hocc. unfold agent_locs. by rewrite Hag.
Qed.

(** ** Steps keep the agents inside the grid *)

Lemma setitem_square (n : Z) (a a' : list (list Z)) (l : Z * Z) (v : Z) :
  square n a → setitem a l v = Some a' → square n a'.
Proof.
  intros [Hlen Hrows]. unfold setitem.
  destruct (norm_index (length a) l.1) as [r|]; [simpl|done].
  destruct (a !! r) as [row|] eqn:Hrow; [simpl|done].
  destruct (norm_index (length row) l.2) as [c|]; [simpl|done].
  intros [= <-]. split; [by rewrite length_insert|].
  apply Forall_insert; [done|]. rewrite length_insert.
  by apply (Forall_lookup_1 _ _ _ _ Hrows Hrow).
Qed.

Lemma grow_square (s : Sugarscape) :
  square (grid_n s) (array s) → square (grid_n s) (capacity s) →
  square (grid_n s) (array (grow s)).
Proof.
  intros [Hla Hra] [Hlc Hrc]. unfold grow. cbn [array set_array]. split.
  - rewrite length_zip_with. lia.
  - apply Forall_lookup_2. intros i row Hrow.
    apply lookup_zip_with_Some in Hrow as (x & y & -> & Hx & Hy).
    rewrite length_zip_with.
    rewrite (Forall_lookup_1 _ _ _ _ Hra Hx), (Forall_lookup_1 _ _ _ _ Hrc Hy).
    lia.
Qed.

Lemma make_capacity_square (n : Z) : square n (make_capacity n).
Proof.
  split; [apply make_capacity_length|].
  apply Forall_lookup_2. intros i row Hrow.
  assert (i < Z.to_nat n)%nat as Hi.
  { rewrite <- make_capacity_length. by eapply lookup_lt_Some. }
  rewrite make_capacity_row in Hrow by done. injection Hrow as <-.
  by rewrite length_fmap, length_seqZ.
Qed.

(** What a completed turn changes: the grid size, the parameters, the
    capacity and the history are kept, the level array keeps its shape,
    and every object is either untouched, or the activated agent moved to
    its own cell or to a wrapped kernel cell with its vision kept, or the
    replacement, created inside the grid. *)
Lemma agent_turn_effect (fuel : nat) (replace : bool) (r : nat)
    (s s' : Sugarscape) :
  agent_turn draw_traits fuel replace r s = Ok s' →
  grid_n s' = grid_n s ∧ params s' = params s ∧ capacity s' = capacity s ∧
  agent_count_seq s' = agent_count_seq s ∧
  (∃ l a, setitem (array s) l 0 = Some a ∧ array s' = a) ∧
  (∀ x, x ∈ agents s' →
     (x ∈ agents s ∧ objects s' x = objects s x) ∨
     (x = r ∧ r ∈ agents s ∧
      vision (objects s' x) = vision (objects s r) ∧
      (loc (objects s' x) = loc (objects s r) ∨
       ∃ o, loc (objects s' x) = wrap (grid_n s) (loc (objects s r)) o)) ∨
     (x = next_ref s ∧ replace = true ∧
      in_grid (grid_n s) (loc (objects s' x)) ∧
      ∃ p g0, vision (objects s' x) = t_vision (draw_traits p g0).1)).
Proof.
  intros H. apply agent_turn_Ok in H as (_ & s1 & Hstep & Hcase).
  apply Agent_step_Ok in Hstep as (d & g & a' & sugar & Hd & Hset & Hs1).
  cbn [objects occupied agents emit set_occupied grid_n array params
       capacity agent_count_seq next_ref] in Hd, Hset, Hs1.
  assert (grid_n s1 = grid_n s ∧ params s1 = params s ∧
          capacity s1 = capacity s ∧ agent_count_seq s1 = agent_count_seq s ∧
          array s1 = a' ∧ next_ref s1 = next_ref s ∧ agents s1 = agents s)
    as (Hn1 & Hp1 & Hc1 & Hq1 & Ha1 & Hr1 & Hg1)
    by (by rewrite Hs1).
  assert (∀ x, x ∈ agents s →
     (x ∈ agents s ∧ objects s1 x = objects s x) ∨
     (x = r ∧ r ∈ agents s ∧
      vision (objects s1 x) = vision (objects s r) ∧
      (loc (objects s1 x) = loc (objects s r) ∨
       ∃ o, loc (objects s1 x) = wrap (grid_n s) (loc (objects s r)) o)))
    as Hobj.
  { intros x Hx. rewrite Hs1. cbn [objects].
    destruct (decide (x = r)) as [->|Hne].
    - right. rewrite fn_lookup_insert. split; [done|]. split; [exact Hx|].
      split; [done|].
      destruct Hd as [->|[_ [o ->]]]; [by left|right; by exists o].
    - left. by rewrite !fn_lookup_insert_ne. }
  clear Hs1.
  assert (∃ l a, setitem (array s) l 0 = Some a ∧ array s1 = a) as Harr
    by (by exists d, a').
  destruct Hcase
    as [[_ ->]|(_ & rs & Hrm & [[_ ->]|(-> & r' & Hadd)])].
  - cbn [grid_n params capacity agent_count_seq array objects agents
         set_occupied].
    split; [exact Hn1|]. split; [exact Hp1|]. split; [exact Hc1|].
    split; [exact Hq1|]. split; [exact Harr|].
    intros x Hx. rewrite Hg1 in Hx.
    destruct (Hobj x Hx) as [H1|H2]; [left; exact H1|].
    right. left. exact H2.
  - cbn [grid_n params capacity agent_count_seq array objects agents
         set_agents emit].
    split; [exact Hn1|]. split; [exact Hp1|]. split; [exact Hc1|].
    split; [exact Hq1|]. split; [exact Harr|].
    intros x Hx. rewrite Hg1 in Hrm.
    apply list_remove_Some in Hrm as (a1 & a2 & Heq & -> & _).
    assert (x ∈ agents s) as Hxs.
    { rewrite Heq. rewrite elem_of_app in Hx. rewrite elem_of_app, elem_of_cons.
      naive_solver. }
    destruct (Hobj x Hxs) as [H1|H2]; [left; exact H1|].
    right. left. exact H2.
  - apply add_agent_Ok in Hadd as (a & g2 & _ & Hgrid & Hvis & _ & ->).
    cbn [grid_n params capacity agent_count_seq array objects agents
         next_ref emit set_agents] in *.
    split; [exact Hn1|]. split; [exact Hp1|]. split; [exact Hc1|].
    split; [exact Hq1|]. split; [exact Harr|].
    intros x Hx. rewrite Hr1. destruct (decide (x = next_ref s)) as [->|Hne].
    + right. right. rewrite fn_lookup_insert. rewrite Hn1 in Hgrid.
      split; [done|]. split; [done|]. split; [exact Hgrid|exact Hvis].
    + rewrite fn_lookup_insert_ne by done.
      rewrite Hg1 in Hrm.
      apply list_remove_Some in Hrm as (a1 & a2 & Heq & -> & _).
      assert (x ∈ agents s) as Hxs.
      { rewrite Heq. rewrite !elem_of_app, list_elem_of_singleton in Hx.
        rewrite Hr1 in Hx. rewrite elem_of_app, elem_of_cons. naive_solver. }
      destruct (Hobj x Hxs) as [H1|H2]; [left; exact H1|].
      right. left. exact H2.
Qed.

(** One pass through the loop body keeps the grid invariant. *)
Lemma agent_turn_grid (fuel : nat) (replace : bool) (r : nat)
    (s s' : Sugarscape) :
  grid_inv s → agent_turn draw_traits fuel replace r s = Ok s' → grid_inv s'.
Proof.
  intros (Hn & Ha & Hc & Hl) H.
  apply agent_turn_effect in H
    as (Hn' & _ & Hc' & _ & (l & a & Hset & Ha') & Hobj).
  unfold grid_inv. rewrite Hn', Hc', Ha'.
  split; [exact Hn|]. split; [exact (setitem_square _ _ _ _ _ Ha Hset)|]. split; [exact Hc|].
  apply list.Forall_forall. intros x Hx.
  rewrite list.Forall_forall in Hl.
  destruct (Hobj x Hx) as [[Hxs ->]|[(-> & Hr & _ & Hloc)|(_ & _ & Hg & _)]].
  - by apply Hl.
  - destruct Hloc as [->|[o ->]]; [by apply Hl|by apply wrap_range].
  - exact Hg.
Qed.

Lemma step_loop_grid (fuel : nat) (replace : bool) (order : list nat)
    (s s' : Sugarscape) :
  grid_inv s → step_loop draw_traits fuel replace order s = Ok s' →
  grid_inv s'.
Proof.
  revert s. induction order as [|r order IH]; intros s Hinv H.
  - cbn in H. by injection H as <-.
  - cbn [step_loop] in H.
    destruct (agent_turn draw_traits fuel replace r s) as [s1| |] eqn:Ht;
      try discriminate.
    cbn [res_bind] in H. eapply IH; [|exact H]. by eapply agent_turn_grid.
Qed.

Lemma step_grid (fuel k : nat) (s s' : Sugarscape) :
  grid_inv s → step draw_traits fuel s = Ok (k, s') → grid_inv s'.
Proof.
  intros Hinv H. unfold step in H.
  destruct (shuffle (agents s) (rng s)) as [order g].
  destruct (step_loop draw_traits fuel _ order (set_rng g s))
    as [s1| |] eqn:Hl; try discriminate.
  cbn [res_bind] in H. injection H as _ <-.
  apply step_loop_grid in Hl; [|exact Hinv].
  destruct Hl as (Hn & Ha & Hc & Hg).
  split; [exact Hn|]. split; [|split; [exact Hc|exact Hg]].
  by apply (grow_square (set_agent_count_seq _ s1)).
Qed.

Lemma new_Agent_vision (l : Z * Z) (p : Params) (g : Rng) :
  vision (new_Agent draw_traits l p g).1 = t_vision (draw_traits p g).1.
Proof. unfold new_Agent. by destruct (draw_traits p g). Qed.

Lemma make_agent_list_vision (locs : list (Z * Z)) (s s' : Sugarscape)
    (rs : list nat) :
  make_agent_list draw_traits locs s = (rs, s') →
  Forall (λ r, ∃ p g, vision (objects s' r) = t_vision (draw_traits p g).1) rs.
Proof.
  revert s rs. induction locs as [|l locs IH]; intros s rs; simpl.
  { intros [= <- <-]. constructor. }
  pose proof (new_Agent_vision l (params s) (rng s)) as Hvis.
  destruct (new_Agent draw_traits l (params s) (rng s)) as [a g].
  destruct (make_agent_list draw_traits locs _) as [rs' s1] eqn:Hrec.
  intros [= <- <-]. constructor; [|by eapply IH].
  apply make_agent_list_refs in Hrec as (_ & _ & Hold & _).
  cbn [next_ref objects fst] in *. rewrite Hold by lia.
  rewrite fn_lookup_insert. by eexists _, _.
Qed.

Lemma init_vision (n : Z) (p : Params) (g : Rng) (s : Sugarscape) :
  Sugarscape_init draw_traits n p g = Ok s →
  Forall (λ r, ∃ p g, vision (objects s r) = t_vision (draw_traits p g).1)
    (agents s).
Proof.
  unfold Sugarscape_init. case_bool_decide as Hn; [done|].
  unfold make_agents. cbn [array params rng starting_box].
  destruct (default _ _) as [bn bm].
  destruct (shuffle (make_locs bn bm) g) as [locs g1].
  case_bool_decide; [|done].
  destruct (make_agent_list _ _ _) as [rs s1] eqn:Hl.
  apply make_agent_list_vision in Hl.
  intros [= <-]. exact Hl.
Qed.

Lemma init_grid (n : Z) (p : Params) (g : Rng) (s : Sugarscape) :
  0 < n →
  (default (n, n) (starting_box p)).1 ≤ n →
  (default (n, n) (starting_box p)).2 ≤ n →
  Sugarscape_init draw_traits n p g = Ok s → grid_inv s.
Proof.
  intros Hn Hb1 Hb2 H.
  pose proof (Sugarscape_init_field _ _ _ _ H) as (_ & Hg & _ & Hc & Ha & _).
  destruct (Sugarscape_init_cases n p g ltac:(lia))
    as [[_ Hr]|(_ & s0 & Hs0 & _ & Hl & _)]; [congruence|].
  assert (s0 = s) as -> by congruence.
  unfold grid_inv. rewrite Hg, Hc, Ha.
  split; [exact Hn|]. split; [apply make_capacity_square|].
  split; [apply make_capacity_square|].
  unfold agent_locs in Hl. rewrite Forall_fmap in Hl.
  eapply List.Forall_impl; [|exact Hl].
  intros r [H1 H2]. unfold in_grid. cbn in H1, H2. lia.
Qed.

Lemma setitem_is_Some (a : list (list Z)) (l : Z * Z) (v : Z) :
  is_Some (getitem a l) → is_Some (setitem a l v).
Proof.
  unfold getitem, setitem. intros [x Hx].
  destruct (norm_index (length a) l.1) as [r|]; [|done]. cbn in *.
  destruct (a !! r) as [row|]; [|done]. cbn in *.
  destruct (norm_index (length row) l.2) as [c|]; [|done]. cbn. eauto.
Qed.

Lemma argmax_lt (t : list Z) : t ≠ [] → (argmax t < length t)%nat.
Proof.
  intros Ht. destruct (argmax_split t Ht) as (l1 & m & l2 & Heq & Hlen & _).
  rewrite Heq at 2. rewrite length_app. cbn [length]. lia.
Qed.

(** With a positive vision on a grid of positive size whose level array
    is [n] by [n], [look_and_move] returns. *)
Lemma look_and_move_total (c : Z * Z) (v : Z) (s : Sugarscape) :
  1 ≤ v → 0 < grid_n s → square (grid_n s) (array s) →
  ∃ d s', look_and_move c v s = Ok (d, s').
Proof.
  intros Hv Hn Hsq. unfold look_and_move.
  rewrite make_visible_locs_Ok by done. cbn [res_bind].
  set (g := (make_arrays (seqZ 1 v) (rng s)).2).
  set (locs := concat (make_arrays (seqZ 1 v) (rng s)).1).
  cbn [grid_n occupied array set_rng].
  set (cand := filter _ _).
  case_bool_decide as Hlen; [by eexists _, _|].
  destruct (getitems_total (array s) cand) as [t Ht].
  { apply list.Forall_forall. intros l Hl.
    apply list_elem_of_filter in Hl as [_ Hl].
    apply list_elem_of_fmap in Hl as (o & -> & _).
    destruct (wrap_range (grid_n s) c o Hn) as [H1 H2].
    destruct (wrap (grid_n s) c o) as [i j]. by apply (getitem_square (grid_n s)). }
  rewrite Ht. cbn [res_bind].
  apply getitems_Ok in Ht. apply Forall2_length in Ht.
  assert (t ≠ []) as Hne by (intros ->; cbn in Ht; lia).
  pose proof (argmax_lt t Hne) as Hlt. rewrite <- Ht in Hlt.
  apply lookup_lt_is_Some in Hlt as [l Hl]. rewrite Hl.
  by eexists _, _.
Qed.

Lemma harvest_total (l : Z * Z) (s : Sugarscape) :
  is_Some (getitem (array s) l) → ∃ x s', harvest l s = Ok (x, s').
Proof.
  intros Hget. pose proof (setitem_is_Some _ _ 0 Hget) as [a Ha].
  destruct Hget as [x Hx]. unfold harvest. cbn [array emit].
  rewrite Hx, Ha. by eexists _, _.
Qed.

Lemma Agent_step_total (r : nat) (s : Sugarscape) :
  1 ≤ vision (objects s r) → 0 < grid_n s → square (grid_n s) (array s) →
  in_grid (grid_n s) (loc (objects s r)) →
  ∃ s', Agent_step r s = Ok s'.
Proof.
  intros Hv Hn Hsq Hin. unfold Agent_step.
  destruct (look_and_move_total (loc (objects s r)) _ s Hv Hn Hsq)
    as (d & s1 & Hlm).
  rewrite Hlm. cbn [res_bind].
  apply look_and_move_Ok in Hlm as (g & -> & Hd).
  assert (in_grid (grid_n s) d) as Hdin.
  { destruct Hd as [->|[_ [o ->]]]; [exact Hin|by apply wrap_range]. }
  destruct (harvest_total d
    (set_object r
       (MkAgent d (vision (objects s r)) (metabolism (objects s r))
          (reserve (objects s r)) (age (objects s r))
          (lifespan (objects s r))) (set_rng g s))) as (x & s2 & Hh).
  { cbn [array set_object set_rng]. destruct d as [i j].
    destruct Hdin as [H1 H2]. by apply (getitem_square (grid_n s)). }
  rewrite Hh. cbn [res_bind]. by eexists.
Qed.

Lemma random_loc_total (fuel : nat) (s : Sugarscape) :
  0 < grid_n s →
  (∃ l s', random_loc fuel s = Ok (l, s')) ∨ random_loc fuel s = Looping.
Proof.
  intros Hn. revert s Hn. induction fuel as [|fuel IH]; intros s Hn.
  { by right. }
  cbn [random_loc]. rewrite bool_decide_eq_false_2 by lia.
  destruct (randint _ (rng s)) as [i g1]. destruct (randint _ g1) as [j g2].
  case_bool_decide; [left; by eexists _, _|].
  apply IH. exact Hn.
Qed.

Lemma add_agent_total (fuel : nat) (s : Sugarscape) :
  0 < grid_n s →
  (∃ r s', add_agent draw_traits fuel s = Ok (r, s')) ∨
  add_agent draw_traits fuel s = Looping.
Proof.
  intros Hn. unfold add_agent.
  destruct (random_loc_total fuel s Hn) as [(l & s1 & ->)| ->]; [|by right].
  left. cbn [res_bind]. destruct (new_Agent _ _ _ _) as [a g].
  by eexists _, _.
Qed.

(** One pass through the loop body, for a live agent with a positive
    vision in a state that satisfies the occupancy and grid invariants,
    returns, unless the search for a free cell for the replacement runs
    out of draws. *)
Lemma agent_turn_total (fuel : nat) (replace : bool) (r : nat)
    (s : Sugarscape) :
  occupancy_inv s → grid_inv s → r ∈ agents s → 1 ≤ vision (objects s r) →
  (∃ s', agent_turn draw_traits fuel replace r s = Ok s') ∨
  (replace = true ∧ agent_turn draw_traits fuel replace r s = Looping).
Proof.
  intros (_ & Hocc & _) (Hn & Ha & _ & Hl) Hr Hv.
  rewrite list.Forall_forall in Hl. specialize (Hl r Hr).
  unfold agent_turn. cbn [objects occupied emit].
  rewrite bool_decide_eq_true_2; last first.
  { rewrite Hocc, elem_of_list_to_set. unfold agent_locs.
    apply list_elem_of_fmap. by exists r. }
  destruct (Agent_step_total r
    (set_occupied (occupied s ∖ {[loc (objects s r)]}) (emit (EvActivate r) s)))
    as [s1 Hs1]; [exact Hv|exact Hn|exact Ha|exact Hl|].
  rewrite Hs1. cbn [res_bind].
  apply Agent_step_Ok in Hs1 as (d & g & a' & sugar & _ & _ & Hs1).
  assert (agents s1 = agents s ∧ grid_n s1 = grid_n s) as [Hag Hgn]
    by (by rewrite Hs1).
  clear Hs1.
  destruct (is_starving (objects s1 r) || is_old (objects s1 r));
    [|left; by eexists].
  destruct (list_remove_is_Some r (agents s1)) as [rs ->];
    [by rewrite Hag|].
  cbn [or_raise res_bind]. destruct replace; [|left; by eexists].
  destruct (add_agent_total fuel (emit (EvDeath r) (set_agents rs s1)))
    as [(r' & s2 & ->)| ->]; [by rewrite <- Hgn in Hn| |].
  - left. by eexists.
  - by right.
Qed.

Lemma step_loop_total (fuel : nat) (replace : bool) (order : list nat)
    (s : Sugarscape) :
  occupancy_inv s → grid_inv s → NoDup order →
  Forall (λ r, r ∈ agents s ∧ 1 ≤ vision (objects s r)) order →
  (∃ s', step_loop draw_traits fuel replace order s = Ok s') ∨
  (replace = true ∧ step_loop draw_traits fuel replace order s = Looping).
Proof.
  revert s. induction order as [|r order IH]; intros s Hocc Hgrid Hnd Hall.
  { left. by eexists. }
  apply list.NoDup_cons in Hnd as [Hr Hnd].
  apply list.Forall_cons in Hall as [[Hin Hv] Hall].
  cbn [step_loop].
  destruct (agent_turn_total fuel replace r s Hocc Hgrid Hin Hv)
    as [[s1 Ht]|[-> Ht]]; rewrite Ht; [|by right].
  cbn [res_bind]. pose proof (agent_turn_spec _ _ _ _ _ Ht) as Hspec.
  apply IH.
  - by eapply turn_spec_inv.
  - by eapply agent_turn_grid.
  - exact Hnd.
  - destruct (turn_spec_agents _ _ _ _ Hspec) as (_ & Hkeep & _ & Hobj).
    destruct Hocc as (_ & _ & Hlt). rewrite list.Forall_forall in Hlt.
    apply list.Forall_forall. intros x Hx.
    rewrite list.Forall_forall in Hall. destruct (Hall x Hx) as [Hxa Hxv].
    assert (x ≠ r) as Hne by (intros ->; done).
    split; [by apply Hkeep|]. rewrite Hobj; [done|done|by apply Hlt].
Qed.

Lemma step_total (fuel : nat) (s : Sugarscape) :
  occupancy_inv s → grid_inv s → vision_inv s →
  (∃ k s', step draw_traits fuel s = Ok (k, s')) ∨
  (default false (replace (params s)) = true ∧
   step draw_traits fuel s = Looping).
Proof.
  intros Hocc Hgrid Hvis. unfold step.
  pose proof (shuffle_Permutation (agents s) (rng s)) as Hperm.
  destruct (shuffle (agents s) (rng s)) as [order g]. cbn [fst] in Hperm.
  destruct (step_loop_total fuel (default false (replace (params s))) order
              (set_rng g s)) as [[s1 ->]|[Hrep ->]].
  - exact Hocc.
  - exact Hgrid.
  - rewrite Hperm. destruct Hocc as (Hnd & _). by apply NoDup_fmap_1 in Hnd.
  - unfold vision_inv in Hvis. rewrite list.Forall_forall in Hvis.
    apply list.Forall_forall. intros x Hx. rewrite Hperm in Hx.
    split; [exact Hx|by apply Hvis].
  - left. cbn [res_bind]. by eexists _, _.
  - right. by split.
Qed.

Lemma agent_turn_vision (fuel : nat) (replace : bool) (r : nat)
    (s s' : Sugarscape) :
  (∀ p g, 1 ≤ t_vision (draw_traits p g).1) →
  vision_inv s → agent_turn draw_traits fuel replace r s = Ok s' →
  vision_inv s'.
Proof.
  intros Hdraw Hv H.
  apply agent_turn_effect in H as (_ & _ & _ & _ & _ & Hobj).
  unfold vision_inv in *. rewrite list.Forall_forall in Hv.
  apply list.Forall_forall. intros x Hx.
  destruct (Hobj x Hx)
    as [[Hxs ->]|[(-> & Hr & -> & _)|(_ & _ & _ & p & g & ->)]].
  - by apply Hv.
  - by apply Hv.
  - apply Hdraw.
Qed.

Lemma step_loop_vision (fuel : nat) (replace : bool) (order : list nat)
    (s s' : Sugarscape) :
  (∀ p g, 1 ≤ t_vision (draw_traits p g).1) →
  vision_inv s → step_loop draw_traits fuel replace order s = Ok s' →
  vision_inv s'.
Proof.
  intros Hdraw. revert s. induction order as [|r order IH]; intros s Hinv H.
  - cbn in H. by injection H as <-.
  - cbn [step_loop] in H.
    destruct (agent_turn draw_traits fuel replace r s) as [s1| |] eqn:Ht;
      try discriminate.
    cbn [res_bind] in H. eapply IH; [|exact H]. by eapply agent_turn_vision.
Qed.

Lemma step_vision (fuel k : nat) (s s' : Sugarscape) :
  (∀ p g, 1 ≤ t_vision (draw_traits p g).1) →
  vision_inv s → step draw_traits fuel s = Ok (k, s') → vision_inv s'.
Proof.
  intros Hdraw Hinv H. unfold step in H.
  destruct (shuffle (agents s) (rng s)) as [order g].
  destruct (step_loop draw_traits fuel _ order (set_rng g s))
    as [s1| |] eqn:Hl; try discriminate.
  cbn [res_bind] in H. injection H as _ <-.
  apply step_loop_vision in Hl; [exact Hl|exact Hdraw|exact Hinv].
Qed.

(** The invariants of the states reached from a construction whose
    starting box lies inside a grid of positive size. *)
Lemma steps_inv (n : Z) (p : Params) (g : Rng) (m : nat)
    (s0 s : Sugarscape) :
  0 < n →
  (default (n, n) (starting_box p)).1 ≤ n →
  (default (n, n) (starting_box p)).2 ≤ n →
  Sugarscape_init draw_traits n p g = Ok s0 →
  steps draw_traits m s0 s →
  occupancy_inv s ∧ grid_inv s ∧ grid_n s = n ∧ params s = p ∧
  capacity s = make_capacity n ∧
  ((∀ p g, 1 ≤ t_vision (draw_traits p g).1) → vision_inv s).
Proof.
  intros Hn Hb1 Hb2 Hinit Hsteps.
  induction Hsteps as [s|m fuel k s s1 s2 Hsteps IH Hstep].
  - pose proof (Sugarscape_init_field _ _ _ _ Hinit)
      as (_ & Hg & Hp & Hc & _).
    split; [by eapply init_inv|]. split; [by eapply init_grid|].
    split; [exact Hg|]. split; [exact Hp|]. split; [exact Hc|].
    intros Hdraw. apply init_vision in Hinit.
    eapply List.Forall_impl; [|exact Hinit].
    intros r (p' & g' & ->). apply Hdraw.
  - destruct (IH Hinit) as (Hocc & Hgrid & Hg & Hp & Hc & Hvis).
    pose proof (step_frame _ _ _ _ Hstep) as (Hc' & Hg' & Hp').
    split; [exact (proj1 (step_facts _ _ _ _ Hocc Hstep))|].
    split; [by eapply step_grid|].
    split; [by rewrite Hg'|]. split; [by rewrite Hp'|].
    split; [by rewrite Hc'|].
    intros Hdraw. eapply step_vision; [exact Hdraw|by apply Hvis|exact Hstep].
Qed.

(** X9: From a construction on a grid of positive size [n] whose
    starting box lies inside the grid, after any number of completed calls
    of [step] the grid size is still [n], the level and capacity arrays are
    [n] by [n], and every live agent stands on a cell of the grid: moves
    wrap around the edges and replacements are drawn inside the grid. *)
Theorem agents_stay_in_grid (n : Z) (p : Params) (g : Rng) (m : nat)
    (s0 s : Sugarscape) :
  0 < n →
  (default (n, n) (starting_box p)).1 ≤ n →
  (default (n, n) (starting_box p)).2 ≤ n →
  Sugarscape_init draw_traits n p g = Ok s0 →
  steps draw_traits m s0 s →
  grid_n s = n ∧ square n (array s) ∧ square n (capacity s) ∧
  Forall (λ r, in_grid n (loc (objects s r))) (agents s).
Proof.
  intros Hn Hb1 Hb2 Hinit Hsteps.
  destruct (steps_inv n p g m s0 s Hn Hb1 Hb2 Hinit Hsteps)
    as (_ & (_ & Ha & Hc & Hl) & Hg & _).
  rewrite Hg in Ha, Hc, Hl. by split.
Qed.

(** X10: From a construction on a grid of positive size whose starting
    box lies inside the grid, with agents whose vision is at least one,
    every call of [step] after any number of completed steps returns
    without raising: no [KeyError] from [occupied.remove], no [IndexError]
    from the array reads, no [ValueError] from [agents.remove].  With
    replacement the only other outcome is that [random_loc] finds no free
    cell within the draws followed. *)
Theorem step_never_raises (n : Z) (p : Params) (g : Rng) (m fuel : nat)
    (s0 s : Sugarscape) :
  0 < n →
  (default (n, n) (starting_box p)).1 ≤ n →
  (default (n, n) (starting_box p)).2 ≤ n →
  (∀ p g, 1 ≤ t_vision (draw_traits p g).1) →
  Sugarscape_init draw_traits n p g = Ok s0 →
  steps draw_traits m s0 s →
  (∃ k s', step draw_traits fuel s = Ok (k, s')) ∨
  (default false (replace p) = true ∧ step draw_traits fuel s = Looping).
Proof.
  intros Hn Hb1 Hb2 Hdraw Hinit Hsteps.
  destruct (steps_inv n p g m s0 s Hn Hb1 Hb2 Hinit Hsteps)
    as (Hocc & Hgrid & _ & Hp & _ & Hvis).
  rewrite <- Hp. apply step_total; [exact Hocc|exact Hgrid|by apply Hvis].
Qed.

Lemma step_loop_count_seq (fuel : nat) (replace : bool) (order : list nat)
    (s s' : Sugarscape) :
  step_loop draw_traits fuel replace order s = Ok s' →
  agent_count_seq s' = agent_count_seq s.
Proof.
  revert s. induction order as [|r order IH]; intros s H.
  - cbn in H. by injection H as <-.
  - cbn [step_loop] in H.
    destruct (agent_turn draw_traits fuel replace r s) as [s1| |] eqn:Ht;
      try discriminate.
    cbn [res_bind] in H. apply IH in H. rewrite H.
    by apply agent_turn_effect in Ht as (_ & _ & _ & -> & _).
Qed.

Lemma step_count_seq (fuel k : nat) (s s' : Sugarscape) :
  step draw_traits fuel s = Ok (k, s') →
  agent_count_seq s' = agent_count_seq s ++ [k] ∧ k = length (agents s').
Proof.
  intros H. unfold step in H.
  destruct (shuffle (agents s) (rng s)) as [order g].
  destruct (step_loop draw_traits fuel _ order (set_rng g s))
    as [s1| |] eqn:Hl; try discriminate.
  cbn [res_bind] in H. injection H as <- <-.
  apply step_loop_count_seq in Hl.
  cbn [agent_count_seq agents grow set_array set_agent_count_seq set_rng] in *.
  by rewrite Hl.
Qed.

(** X11: The history [agent_count_seq] gains exactly one entry per
    completed call of [step], and that entry is the size of the population
    at the return of the call.  From a state satisfying the occupancy
    invariant the entries never increase from one step to the next when
    replacement is off, and all equal the starting population when it is
    on. *)
Theorem population_history (m : nat) (s0 s : Sugarscape) :
  occupancy_inv s0 → steps draw_traits m s0 s →
  ∃ h, agent_count_seq s = agent_count_seq s0 ++ h ∧ length h = m ∧
    list.last (length (agents s0) :: h) = Some (length (agents s)) ∧
    (default false (replace (params s0)) = false →
       ∀ i a b, (length (agents s0) :: h) !! i = Some a →
                (length (agents s0) :: h) !! S i = Some b → (b ≤ a)%nat) ∧
    (default false (replace (params s0)) = true →
       Forall (λ k, k = length (agents s0)) h).
Proof.
  intros Hocc0 Hsteps.
  cut (occupancy_inv s ∧ params s = params s0 ∧
       ∃ h, agent_count_seq s = agent_count_seq s0 ++ h ∧ length h = m ∧
         list.last (length (agents s0) :: h) = Some (length (agents s)) ∧
         (default false (replace (params s0)) = false →
            ∀ i a b, (length (agents s0) :: h) !! i = Some a →
                     (length (agents s0) :: h) !! S i = Some b → (b ≤ a)%nat) ∧
         (default false (replace (params s0)) = true →
            Forall (λ k, k = length (agents s0)) h)).
  { intros (_ & _ & H). exact H. }
  induction Hsteps as [s0|m fuel k s0 s1 s2 Hsteps IH Hstep].
  - split; [exact Hocc0|]. split; [done|]. exists [].
    split; [by rewrite app_nil_r|]. split; [done|]. split; [done|].
    split; [|by constructor].
    intros _ i a b _ Hb. by destruct i.
  - destruct (IH Hocc0) as (Hocc & Hp & h & Hseq & Hlen & Hlast & Hoff & Hon).
    pose proof (step_frame _ _ _ _ Hstep) as (_ & _ & Hp').
    pose proof (step_count_seq _ _ _ _ Hstep) as (Hseq' & Hk).
    pose proof (step_facts _ _ _ _ Hocc Hstep)
      as (Hocc' & _ & tr & _ & _ & _ & _ & Hcount & Hsp0 & Hsp1 & _).
    rewrite Hp in Hsp0, Hsp1.
    split; [exact Hocc'|]. split; [by rewrite Hp'|].
    exists (h ++ [k]).
    split; [by rewrite Hseq', Hseq, app_assoc|].
    split; [rewrite length_app; cbn [length]; lia|].
    split; [by rewrite app_comm_cons, last_snoc, Hk|].
    split.
    + intros Hoff' i a b Ha Hb. specialize (Hsp0 Hoff'). rewrite Hsp0 in Hcount.
      cbn [length] in Hcount.
      rewrite app_comm_cons in Ha, Hb.
      destruct (decide (S i < length (length (agents s0) :: h))%nat) as [Hi|Hi].
      * rewrite lookup_app_l in Ha by lia. rewrite lookup_app_l in Hb by lia.
        by eapply Hoff.
      * assert (S i = length (length (agents s0) :: h)) as Hi'.
        { apply lookup_lt_Some in Hb. rewrite length_app in Hb.
          cbn [length] in *. lia. }
        rewrite lookup_app_l in Ha by lia.
        rewrite lookup_app_r in Hb by lia.
        rewrite Hi', Nat.sub_diag in Hb. cbn in Hb. injection Hb as <-.
        rewrite last_lookup, <- Hi' in Hlast. cbn [Nat.pred] in Hlast.
        assert (a = length (agents s1)) as -> by congruence.
        rewrite Hk. lia.
    + intros Hon'. specialize (Hsp1 Hon'). specialize (Hon Hon').
      apply Forall_app. split; [exact Hon|].
      constructor; [|constructor].
      assert (length (agents s1) = length (agents s0)) as <-.
      { destruct h as [|x h _] using rev_ind.
        - cbn in Hlast. congruence.
        - rewrite app_comm_cons, last_snoc in Hlast.
          apply Forall_app in Hon as [_ Hx]. inversion Hx; subst. congruence. }
      rewrite Hk. lia.
Qed.

Lemma agent_turn_field_ok (fuel : nat) (replace : bool) (r : nat)
    (s s' : Sugarscape) :
  field_ok s → agent_turn draw_traits fuel replace r s = Ok s' → field_ok s'.
Proof.
  intros Hok H.
  apply agent_turn_effect in H
    as (_ & Hp & Hc & _ & (l & a & Hset & Ha) & _).
  unfold field_ok in *. rewrite Hp, Hc, Ha. by eapply setitem_field_ok.
Qed.

Lemma step_loop_field_ok (fuel : nat) (replace : bool) (order : list nat)
    (s s' : Sugarscape) :
  field_ok s → step_loop draw_traits fuel replace order s = Ok s' →
  field_ok s'.
Proof.
  revert s. induction order as [|r order IH]; intros s Hinv H.
  - cbn in H. by injection H as <-.
  - cbn [step_loop] in H.
    destruct (agent_turn draw_traits fuel replace r s) as [s1| |] eqn:Ht;
      try discriminate.
    cbn [res_bind] in H. eapply IH; [|exact H]. by eapply agent_turn_field_ok.
Qed.

Lemma step_field_ok (fuel k : nat) (s s' : Sugarscape) :
  field_ok s → step draw_traits fuel s = Ok (k, s') → field_ok s'.
Proof.
  intros Hinv H. unfold step in H.
  destruct (shuffle (agents s) (rng s)) as [order g].
  destruct (step_loop draw_traits fuel _ order (set_rng g s))
    as [s1| |] eqn:Hl; try discriminate.
  cbn [res_bind] in H. injection H as _ <-.
  apply step_loop_field_ok in Hl; [|exact Hinv].
  by apply (grow_field_ok (set_agent_count_seq _ s1)).
Qed.

(** X12: in every state reached from construction by completed calls of
    [step], each cell of the grid holds a level at most its capacity, the
    capacity is the one [make_capacity] gave the cell and lies between 0
    and 4, and the level is not negative when the grow rate is not
    negative and its sum with the capacity does not overflow the 64-bit
    integers of the array (so for every grow rate from 0 to [2 ^ 63 - 5]):
    the loop of [step] only ever writes 0 into the level array and the
    regrowth at the end of the step is capped by the capacity. *)
Theorem step_levels_bounded (n : Z) (p : Params) (g : Rng) (m : nat)
    (s0 s : Sugarscape) (i j : Z) :
  Sugarscape_init draw_traits n p g = Ok s0 →
  steps draw_traits m s0 s →
  0 ≤ i < n → 0 ≤ j < n →
  ∃ x c,
    getitem (array s) (i, j) = Some x ∧
    getitem (capacity s) (i, j) = Some c ∧
    c = cell_capacity i j ∧ x ≤ c ∧ 0 ≤ c ≤ 4 ∧
    (0 ≤ default 1 (grow_rate p) →
     c + default 1 (grow_rate p) ≤ int64_max → 0 ≤ x).
Proof.
  intros Hinit Hsteps Hi Hj.
  assert (field_ok s ∧ params s = p ∧ capacity s = make_capacity n)
    as (Hok & Hp & Hc).
  { induction Hsteps as [s0|m fuel k s0 s1 s2 Hsteps IH Hstep].
    - apply Sugarscape_init_field in Hinit as (_ & _ & Hp & Hcap & Harr & _).
      split; [|by split].
      unfold field_ok. rewrite Harr, Hcap. apply Forall_Forall2_diag.
      eapply List.Forall_impl; [|apply make_capacity_nonneg].
      intros row Hrow. apply Forall_Forall2_diag.
      eapply List.Forall_impl; [|exact Hrow].
      intros c Hc. unfold cell_ok. simpl in *. lia.
    - destruct (IH Hinit) as (Hok & Hp & Hc).
      pose proof (step_frame _ _ _ _ Hstep) as (Hc' & _ & Hp').
      split; [by eapply step_field_ok|]. split; [by rewrite Hp'|].
      by rewrite Hc'. }
  assert (getitem (capacity s) (i, j) = Some (cell_capacity i j)) as Hget
    by (rewrite Hc; by apply make_capacity_getitem).
  unfold field_ok in Hok.
  destruct (getitem_Forall2 _ _ _ _ _ Hok Hget) as (x & Hx & H1 & _ & H3).
  exists x, (cell_capacity i j). rewrite Hp in H3.
  pose proof (cell_capacity_range i j).
  split; [exact Hx|]. split; [exact Hget|]. split; [done|].
  split; [exact H1|]. split; [done|exact H3].
Qed.

Lemma omap_pairs_lookup (locs : list (Z * Z)) :
  omap (λ r : list Z, r !! 0%nat) ((λ l, [l.1; l.2]) <$> locs) = fst <$> locs ∧
  omap (λ r : list Z, r !! 1%nat) ((λ l, [l.1; l.2]) <$> locs) = snd <$> locs.
Proof.
  induction locs as [|l locs [IH1 IH2]]; [done|].
  cbn. rewrite IH1, IH2. done.
Qed.

(** X13: [get_coords] raises [ValueError] when there is no agent (the
    transposed empty array cannot be unpacked into rows and columns);
    otherwise it returns, in the order of the agent list, each agent's
    column plus one half as its x and its row plus one half as its y. *)
Theorem get_coords_centres (s : Sugarscape) :
  (agents s = [] → get_coords s = Raise ValueError) ∧
  (agents s ≠ [] →
   get_coords s =
     Ok ((λ r, inject_Z (loc (objects s r)).2 + (1 # 2))%Q <$> agents s,
         (λ r, inject_Z (loc (objects s r)).1 + (1 # 2))%Q <$> agents s)).
Proof.
  unfold get_coords, agent_locs. split.
  - intros ->. done.
  - intros Hne. destruct (agents s) as [|r rs] eqn:Hag; [done|].
    set (locs := (λ r, loc (objects s r)) <$> r :: rs).
    destruct (omap_pairs_lookup locs) as [H1 H2].
    unfold transpose. change ((λ l : Z * Z, [l.1; l.2]) <$> locs)
      with ([(loc (objects s r)).1; (loc (objects s r)).2]
              :: ((λ l : Z * Z, [l.1; l.2]) <$>
                    ((λ r, loc (objects s r)) <$> rs))).
    cbn [length seq fmap list_fmap].
    change ([(loc (objects s r)).1; (loc (objects s r)).2]
              :: ((λ l : Z * Z, [l.1; l.2]) <$>
                    ((λ r, loc (objects s r)) <$> rs)))
      with ((λ l : Z * Z, [l.1; l.2]) <$> locs).
    rewrite H1, H2. cbn [unpack2 res_bind].
    unfold locs. by rewrite <- !list_fmap_compose.
Qed.

(** X14: both peaks of [make_capacity] lie on the main diagonal, so for
    every grid size the capacity grid is symmetric about it: the cells
    [(i, j)] and [(j, i)] have the same capacity. *)
Theorem capacity_diagonal_symmetry (n i j : Z) :
  0 ≤ i < n → 0 ≤ j < n →
  ∃ c, getitem (make_capacity n) (i, j) = Some c ∧
       getitem (make_capacity n) (j, i) = Some c.
Proof.
  intros Hi Hj. exists (cell_capacity i j).
  rewrite !make_capacity_getitem by done. split; [done|].
  f_equal. unfold cell_capacity, hypot. do 3 f_equal; lia.
Qed.

End Properties.

(** * Concrete runs *)

(** C2, as stated, fails: on the one-cell grid with a grow rate of [-1],
    one call of [grow] after construction leaves the level at [-1]; and
    with the grow rate [2 ^ 63 - 1], which is not negative, one call of
    [grow] on the grid of size 2 wraps the level 1 of cell [(1, 1)] around
    to [- 2 ^ 63]. *)
Lemma level_negative_counterexample :
  (∃ s x,
    Sugarscape_init sample_traits 1 (MkParams None (Some 0) (Some (-1)) None)
      (list_tape []) = Ok s ∧
    getitem (array (run_ops [OpGrow] s)) (0, 0) = Some x ∧ ¬ (0 ≤ x)) ∧
  (∃ s x,
    Sugarscape_init sample_traits 2
      (MkParams None (Some 0) (Some (2 ^ 63 - 1)) None) (list_tape []) = Ok s ∧
    getitem (array s) (1, 1) = Some 1 ∧
    getitem (array (run_ops [OpGrow] s)) (1, 1) = Some x ∧ ¬ (0 ≤ x)).
Proof.
  split.
  - eexists _, _. split_and!.
    + vm_compute. reflexivity.
    + vm_compute. reflexivity.
    + lia.
  - eexists _, _. split_and!.
    + vm_compute. reflexivity.
    + vm_compute. reflexivity.
    + vm_compute. reflexivity.
    + lia.
Qed.

Lemma demo_state_init :
  Sugarscape_init sample_traits 2 demo_params demo_tape = Ok demo_state.
Proof. vm_compute. reflexivity. Qed.

Lemma demo_after_step : step sample_traits 3 demo_state = Ok (1%nat, demo_after).
Proof. vm_compute. reflexivity. Qed.

Lemma demo_state_replace_init :
  Sugarscape_init sample_traits 2 demo_params_replace demo_tape_replace
  = Ok demo_state_replace.
Proof. vm_compute. reflexivity. Qed.

Lemma demo_after_replace_step :
  step sample_traits 3 demo_state_replace = Ok (2%nat, demo_after_replace).
Proof. vm_compute. reflexivity. Qed.

Lemma demo_state_reachable : reachable sample_traits demo_state.
Proof.
  exact (reachable_init sample_traits 2 demo_params demo_tape demo_state
           demo_state_init).
Qed.

Lemma demo_after_reachable : reachable sample_traits demo_after.
Proof.
  exact (reachable_step sample_traits 3 1 demo_state demo_after
           demo_state_reachable demo_after_step).
Qed.

Lemma demo_state_inv : occupancy_inv demo_state.
Proof. exact (init_inv sample_traits _ _ _ _ demo_state_init). Qed.

Lemma demo_state_replace_inv : occupancy_inv demo_state_replace.
Proof. exact (init_inv sample_traits _ _ _ _ demo_state_replace_init). Qed.

Lemma demo_state_grid : grid_n demo_state = 2.
Proof. vm_compute. reflexivity. Qed.

Lemma demo_state_square : square (grid_n demo_state) (array demo_state).
Proof.
  split; [vm_compute; reflexivity|].
  change (array demo_state) with [[0; 1]; [1; 1]]. rewrite demo_state_grid.
  repeat constructor.
Qed.

Lemma level_within_capacity_witness :
  Sugarscape_init sample_traits 2 demo_params demo_tape = Ok demo_state ∧
  ∃ x c,
    getitem (array (run_ops [OpHarvest (1, 1); OpGrow] demo_state)) (1, 1)
      = Some x ∧
    getitem (capacity (run_ops [OpHarvest (1, 1); OpGrow] demo_state)) (1, 1)
      = Some c ∧
    x ≤ c ∧ 0 ≤ c ≤ 4 ∧ 0 ≤ x.
Proof.
  split; [exact demo_state_init|].
  destruct (level_within_capacity sample_traits 2 demo_params demo_tape
              demo_state [OpHarvest (1, 1); OpGrow] 1 1 demo_state_init
              ltac:(lia) ltac:(lia)) as (x & c & Hx & Hc & Hle & Hr & H0).
  exists x, c. split; [exact Hx|]. split; [exact Hc|]. split; [exact Hle|].
  split; [exact Hr|].
  apply H0; cbn; unfold int64_max; lia.
Defined.

Lemma occupancy_invariant_witness :
  reachable sample_traits demo_after ∧
  occupied demo_after = list_to_set (agent_locs demo_after) ∧
  size (occupied demo_after) = length (agents demo_after) ∧
  NoDup (agent_locs demo_after).
Proof.
  split; [exact demo_after_reachable|].
  exact (occupancy_invariant sample_traits demo_after demo_after_reachable).
Defined.

Lemma look_and_move_policy_witness :
  1 ≤ 1 ∧ 0 < grid_n demo_state ∧
  square (grid_n demo_state) (array demo_state) ∧
  ∃ locs g', make_visible_locs 1 (rng demo_state) = Ok (locs, g') ∧
    (Forall (λ o, wrap (grid_n demo_state) (1, 0) o ∈ occupied demo_state)
       locs →
     look_and_move (1, 0) 1 demo_state = Ok ((1, 0), set_rng g' demo_state)).
Proof.
  assert (0 < grid_n demo_state) as Hn by (rewrite demo_state_grid; lia).
  split; [lia|]. split; [exact Hn|]. split; [exact demo_state_square|].
  destruct (look_and_move_policy (1, 0) 1 demo_state ltac:(lia) Hn
              demo_state_square) as (locs & g' & Hk & Hstay & _).
  exists locs, g'. split; [exact Hk|exact Hstay].
Defined.

Lemma make_visible_locs_blocks_witness :
  1 ≤ 2 ∧
  (∃ locs g',
    make_visible_locs 2 (list_tape [3; 1; 0; 2; 2; 1]%nat) = Ok (locs, g') ∧
    length locs = 8%nat ∧
    take 4 locs ≡ₚ [(- 1, 0); (1, 0); (0, - 1); (0, 1)] ∧
    take 4 (drop 4 locs) ≡ₚ [(- 2, 0); (2, 0); (0, - 2); (0, 2)] ∧
    Forall (λ o, (5 | (wrap 5 (4, 0) o).1 - (4 + o.1)) ∧
                 (5 | (wrap 5 (4, 0) o).2 - (0 + o.2))) locs) ∧
  (∃ g0 locs0 g0',
    make_visible_locs 2 g0 = Ok (locs0, g0') ∧
    take 4 (drop 4 locs0) = [(0, 2); (0, - 2); (2, 0); (- 2, 0)]).
Proof.
  split; [lia|].
  destruct (make_visible_locs_blocks 2 (list_tape [3; 1; 0; 2; 2; 1]%nat)
              ltac:(lia))
    as ((locs & g' & Hk & _ & Hlen & Hblocks & _ & Hwrap & _) & Honto).
  split.
  - exists locs, g'. split; [exact Hk|]. split; [exact Hlen|]. split.
    + apply (Hblocks 1). lia.
    + split; [apply (Hblocks 2); lia|].
      apply (Hwrap 5 (4, 0)). lia.
  - apply (Honto 2); [lia|].
    exact (Permutation_sym
             (Permutation_rev [(- 2, 0); (2, 0); (0, - 2); (0, 2)])).
Defined.

Lemma demo_after_trace :
  trace demo_after
  = trace demo_state ++ [EvActivate 1; EvHarvest (1, 1) false; EvDeath 1;
                         EvActivate 0; EvHarvest (1, 1) false].
Proof. vm_compute. reflexivity. Qed.

Lemma demo_after_replace_trace :
  trace demo_after_replace
  = trace demo_state_replace
      ++ [EvActivate 1; EvHarvest (1, 1) false; EvDeath 1;
          EvSpawn 2 (MkAgent (0, 0) 1 1 5 0 50);
          EvActivate 0; EvHarvest (1, 1) false; EvDeath 0;
          EvSpawn 3 (MkAgent (1, 0) 1 1 5 0 50)].
Proof. vm_compute. reflexivity. Qed.

Lemma step_deaths_witness :
  occupancy_inv demo_state ∧
  step sample_traits 3 demo_state = Ok (1%nat, demo_after) ∧
  deaths [EvActivate 1; EvHarvest (1, 1) false; EvDeath 1;
          EvActivate 0; EvHarvest (1, 1) false] = [1%nat] ∧
  (1%nat ∉ agents demo_after) ∧
  length (agents demo_after) = (length (agents demo_state) - 1)%nat.
Proof.
  split; [exact demo_state_inv|]. split; [exact demo_after_step|].
  destruct (step_deaths sample_traits 3 1 demo_state demo_after _
              demo_state_inv demo_after_step demo_after_trace)
    as (Hd & _ & _ & Hoff & _).
  split; [reflexivity|]. split.
  - apply (Hd 1%nat). apply list_elem_of_here.
  - assert (default false (replace (params demo_state)) = false) as Hrep
      by (vm_compute; reflexivity).
    exact (proj1 (Hoff Hrep)).
Defined.

Lemma step_harvests_unoccupied_witness :
  occupancy_inv demo_state ∧
  never_KeyError (step sample_traits 3 demo_state) ∧
  Forall (λ h, h.2 = false)
    (harvested [EvActivate 1; EvHarvest (1, 1) false; EvDeath 1;
                EvActivate 0; EvHarvest (1, 1) false]) ∧
  ∃ turns,
    [EvActivate 1; EvHarvest (1, 1) false; EvDeath 1;
     EvActivate 0; EvHarvest (1, 1) false]
    = concat (turn_events <$> turns) ∧
    NoDup (who <$> turns) ∧ who <$> turns ≡ₚ agents demo_state ∧
    (∀ t, t ∈ turns → fate t = Survived →
       loc (objects demo_after (who t)) = cell t) ∧
    (∀ i j ti tj, (i < j)%nat → turns !! i = Some ti →
       turns !! j = Some tj → cell ti = cell tj → fate ti ≠ Survived).
Proof.
  split; [exact demo_state_inv|].
  destruct (step_harvests_unoccupied sample_traits 3 demo_state demo_state_inv)
    as [Hnk Hh].
  split; [exact Hnk|].
  destruct (Hh _ _ _ demo_after_step demo_after_trace)
    as (Hfree & _ & _ & turns & Htr & Hnd & Hperm & _ & Hloc & Hpair).
  split; [exact Hfree|].
  exists turns. split; [exact Htr|]. split; [exact Hnd|].
  split; [exact Hperm|]. split; [exact Hloc|exact Hpair].
Defined.

(** C6, as stated, fails: in this step the agent behind reference 1 moves
    to cell [(1, 1)], harvests it and dies there; the agent behind
    reference 0 then moves to the same cell and harvests it again. *)
Lemma harvested_twice_counterexample :
  reachable sample_traits demo_state ∧ occupancy_inv demo_state ∧
  ∃ tr,
    step sample_traits 3 demo_state = Ok (1%nat, demo_after) ∧
    trace demo_after = trace demo_state ++ tr ∧
    harvested tr = [((1, 1), false); ((1, 1), false)] ∧
    ¬ NoDup ((harvested tr).*1).
Proof.
  split; [exact demo_state_reachable|]. split; [exact demo_state_inv|].
  exists [EvActivate 1; EvHarvest (1, 1) false; EvDeath 1;
          EvActivate 0; EvHarvest (1, 1) false].
  split; [exact demo_after_step|]. split; [exact demo_after_trace|].
  split; [reflexivity|].
  intros Hnd. apply list.NoDup_cons in Hnd as [Hnot _].
  apply Hnot. apply list_elem_of_here.
Qed.

Lemma step_spawned_untouched_witness :
  occupancy_inv demo_state_replace ∧
  step sample_traits 3 demo_state_replace = Ok (2%nat, demo_after_replace) ∧
  (2%nat ∉ agents demo_state_replace) ∧
  2%nat ∈ agents demo_after_replace ∧
  objects demo_after_replace 2%nat = MkAgent (0, 0) 1 1 5 0 50.
Proof.
  split; [exact demo_state_replace_inv|].
  split; [exact demo_after_replace_step|].
  destruct (step_spawned_untouched sample_traits 3 2 demo_state_replace
              demo_after_replace _
              demo_state_replace_inv demo_after_replace_step
              demo_after_replace_trace)
    as (_ & _ & Hsp).
  destruct (Hsp 2%nat (MkAgent (0, 0) 1 1 5 0 50)) as (H1 & _ & H3 & H4).
  { apply list_elem_of_here. }
  split; [exact H1|]. split; [exact H3|exact H4].
Defined.

Lemma capacity_tiers_witness :
  reachable sample_traits demo_state ∧
  0 ≤ 1 < grid_n demo_state ∧
  capacity (run_ops [OpHarvest (1, 1); OpGrow] demo_state)
  = make_capacity (grid_n demo_state) ∧
  ∃ c, getitem (capacity (run_ops [OpHarvest (1, 1); OpGrow] demo_state))
         (1, 1) = Some c.
Proof.
  assert (0 ≤ 1 < grid_n demo_state) as Hi by (rewrite demo_state_grid; lia).
  split; [exact demo_state_reachable|]. split; [exact Hi|].
  destruct (capacity_tiers sample_traits demo_state
              [OpHarvest (1, 1); OpGrow] 1 1 demo_state_reachable Hi Hi)
    as (Hcap & c & Hc & _).
  split; [exact Hcap|]. exists c. exact Hc.
Defined.

Lemma construction_placement_witness :
  0 ≤ 2 ∧
  (Sugarscape_init sample_traits 2 (MkParams (Some (2, 2)) (Some 5) None None)
     demo_tape = Raise AssertionError) ∧
  ∃ s, Sugarscape_init sample_traits 2 demo_params demo_tape = Ok s ∧
       length (agents s) = 2%nat ∧ NoDup (agent_locs s).
Proof.
  split; [lia|]. split.
  - apply (construction_placement sample_traits 2
             (MkParams (Some (2, 2)) (Some 5) None None) demo_tape ltac:(lia)).
    vm_compute. reflexivity.
  - destruct (construction_placement sample_traits 2 demo_params demo_tape
                ltac:(lia)) as [_ Hok].
    destruct Hok as (s & Hs & Hlen & Hnd & _).
    { vm_compute. intros Hgt. discriminate Hgt. }
    exists s. split; [exact Hs|]. split; [exact Hlen|exact Hnd].
Defined.

Lemma corner_state_51_init :
  Sugarscape_init sample_traits 51 corner_params (list_tape [])
  = Ok (corner_state 51).
Proof. vm_compute. reflexivity. Qed.

Lemma corner_state_51_reachable : reachable sample_traits (corner_state 51).
Proof.
  exact (reachable_init sample_traits 51 corner_params (list_tape []) _
           corner_state_51_init).
Qed.

Lemma corner_state_51_grid : grid_n (corner_state 51) = 51.
Proof. vm_compute. reflexivity. Qed.

Lemma capacity_reflection_witness :
  reachable sample_traits (corner_state 51) ∧
  0 ≤ 3 < grid_n (corner_state 51) ∧ 0 ≤ 50 - 3 < grid_n (corner_state 51) ∧
  getitem (capacity (corner_state 51)) (50 - 3, 50 - 3)
  = getitem (capacity (corner_state 51)) (3, 3).
Proof.
  assert (0 ≤ 3 < grid_n (corner_state 51)) as Hi
    by (rewrite corner_state_51_grid; lia).
  assert (0 ≤ 50 - 3 < grid_n (corner_state 51)) as Hi'
    by (rewrite corner_state_51_grid; lia).
  split; [exact corner_state_51_reachable|]. split; [exact Hi|].
  split; [exact Hi'|].
  exact (proj1 (proj2 (capacity_reflection sample_traits (corner_state 51) 3 3
                         corner_state_51_reachable Hi Hi Hi' Hi'))).
Defined.

Lemma corner_state_50_init :
  Sugarscape_init sample_traits 50 corner_params (list_tape [])
  = Ok (corner_state 50).
Proof. vm_compute. reflexivity. Qed.

(** C9, as stated, fails on the grid of size 50: the image [(50, 50)] of
    cell [(0, 0)] under the reflection that exchanges the peaks is outside
    the grid, and under the grid's own point reflection, which sends
    [(0, 0)] to [(49, 49)] and does not exchange the peaks, the capacities
    differ. *)
Lemma capacity_reflection_counterexample :
  reachable sample_traits (corner_state 50) ∧
  grid_n (corner_state 50) = 50 ∧
  getitem (capacity (corner_state 50)) (0, 0) = Some 0 ∧
  getitem (capacity (corner_state 50)) (50 - 0, 50 - 0) = None ∧
  getitem (capacity (corner_state 50)) (49, 49) = Some 1.
Proof.
  split.
  - exact (reachable_init sample_traits 50 corner_params (list_tape []) _
             corner_state_50_init).
  - split; [vm_compute; reflexivity|]. split; [vm_compute; reflexivity|].
    split; vm_compute; reflexivity.
Qed.

(** ** The further properties on concrete inputs *)

Lemma make_locs_row_major_witness :
  length (make_locs 2 3) = 6%nat ∧ make_locs 2 3 !! 5%nat = Some (1, 2).
Proof.
  destruct (make_locs_row_major 2 3) as (Hlen & _ & _ & Hrow & _).
  split; [exact Hlen|].
  exact (Hrow 1 2 ltac:(lia) ltac:(lia)).
Defined.

Lemma vision_not_positive_raises_witness :
  0 ≤ 0 ∧ look_and_move (0, 0) 0 demo_state = Raise ValueError.
Proof.
  split; [lia|].
  exact (proj2 (vision_not_positive_raises 0 (0, 0) demo_state ltac:(lia))).
Defined.

Lemma grow_iter_witness :
  getitem (array (run_op (OpHarvest (1, 1)) demo_state)) (1, 1) = Some 0 ∧
  getitem
    (array (Nat.iter 2 grow (run_op (OpHarvest (1, 1)) demo_state))) (1, 1)
  = Some 1 ∧
  getitem (array overflow_state) (1, 1) = Some 1 ∧
  getitem (array (grow overflow_state)) (1, 1) = Some int64_min.
Proof.
  assert (getitem (array (run_op (OpHarvest (1, 1)) demo_state)) (1, 1)
          = Some 0) as Hx by (vm_compute; reflexivity).
  assert (getitem (capacity (run_op (OpHarvest (1, 1)) demo_state)) (1, 1)
          = Some 1) as Hc by (vm_compute; reflexivity).
  assert (default 1 (grow_rate (params (run_op (OpHarvest (1, 1)) demo_state)))
          = 1) as Hg by (vm_compute; reflexivity).
  assert (same_shape (array (run_op (OpHarvest (1, 1)) demo_state))
            (capacity (run_op (OpHarvest (1, 1)) demo_state))) as Hs.
  { change (array (run_op (OpHarvest (1, 1)) demo_state))
      with [[0; 1]; [1; 0]].
    change (capacity (run_op (OpHarvest (1, 1)) demo_state))
      with [[0; 1]; [1; 1]].
    repeat constructor. }
  assert (getitem (array overflow_state) (1, 1) = Some 1) as Hx'
    by (vm_compute; reflexivity).
  assert (getitem (capacity overflow_state) (1, 1) = Some 1) as Hc'
    by (vm_compute; reflexivity).
  assert (default 1 (grow_rate (params overflow_state)) = int64_max) as Hg'
    by (vm_compute; reflexivity).
  assert (same_shape (array overflow_state) (capacity overflow_state)) as Hs'.
  { change (array overflow_state) with [[0; 1]; [1; 1]].
    change (capacity overflow_state) with [[0; 1]; [1; 1]].
    repeat constructor. }
  split; [exact Hx|]. split.
  - pose proof (proj1 (grow_iter (run_op (OpHarvest (1, 1)) demo_state) (1, 1)
                         0 1 Hs Hx Hc)) as H.
    cbv zeta in H. rewrite Hg in H.
    exact (H ltac:(lia) ltac:(unfold int64_min; lia)
             ltac:(unfold int64_max; lia) 2%nat ltac:(lia)).
  - split; [exact Hx'|].
    pose proof (proj2 (grow_iter overflow_state (1, 1) 1 1 Hs' Hx' Hc')) as H.
    cbv zeta in H. rewrite Hg' in H.
    exact (proj1 (H ltac:(unfold int64_max; lia) ltac:(lia)
                    ltac:(unfold int64_max; lia) ltac:(lia))).
Defined.

Lemma harvest_effect_witness :
  ∃ s', harvest (1, 1) demo_state = Ok (1, s') ∧
    getitem (array s') (1, 1) = Some 0 ∧
    array_sum (array s') = array_sum (array demo_state) - 1.
Proof.
  destruct (harvest_effect (1, 1) demo_state) as [_ H].
  destruct (H 1 ltac:(vm_compute; reflexivity))
    as (s' & H1 & H2 & _ & H3 & _).
  exists s'. split; [exact H1|]. split; [exact H2|exact H3].
Defined.

Lemma corner_state_1_full (l : Z * Z) :
  in_grid (grid_n (corner_state 1)) l → l ∈ occupied (corner_state 1).
Proof.
  change (grid_n (corner_state 1)) with 1.
  destruct l as [i j]. intros [H1 H2]. cbn [fst snd] in H1, H2.
  assert (i = 0) as -> by lia. assert (j = 0) as -> by lia.
  change (occupied (corner_state 1)) with ({[(0, 0)]} ∪ ∅ : gset (Z * Z)).
  apply elem_of_union_l, elem_of_singleton. reflexivity.
Qed.

Lemma random_loc_free_cell_witness :
  0 < grid_n (corner_state 1) ∧ random_loc 5 (corner_state 1) = Looping.
Proof.
  assert (0 < grid_n (corner_state 1)) as Hn by (vm_compute; reflexivity).
  split; [exact Hn|].
  exact (proj2 (random_loc_free_cell 5 (corner_state 1)) Hn
           corner_state_1_full).
Defined.

Lemma add_agent_effect_witness :
  occupancy_inv demo_state ∧
  ∃ r s', add_agent sample_traits 3 demo_state = Ok (r, s') ∧
    occupancy_inv s' ∧ agents s' = agents demo_state ++ [r].
Proof.
  split; [exact demo_state_inv|].
  destruct (add_agent sample_traits 3 demo_state) as [[r s']|e|] eqn:H.
  - exists r, s'. split; [reflexivity|].
    destruct (add_agent_effect sample_traits 3 demo_state s' r demo_state_inv H)
      as (Hinv & Hag & _).
    split; [exact Hinv|exact Hag].
  - vm_compute in H. discriminate H.
  - vm_compute in H. discriminate H.
Defined.

Lemma default_construction_witness :
  Sugarscape_init sample_traits 10 (MkParams None None None None) (list_tape [])
    = Raise AssertionError ∧
  ∃ s, Sugarscape_init sample_traits 20 (MkParams None None None None)
         (list_tape []) = Ok s ∧
       length (agents s) = 400%nat.
Proof.
  split.
  - exact (proj1 (default_construction sample_traits 10
                    (MkParams None None None None) (list_tape [])
                    ltac:(lia) eq_refl eq_refl) ltac:(lia)).
  - exact (proj2 (default_construction sample_traits 20
                    (MkParams None None None None) (list_tape [])
                    ltac:(lia) eq_refl eq_refl) ltac:(lia)).
Defined.

Lemma construction_without_agents_witness :
  ∃ s, Sugarscape_init sample_traits 2 (MkParams None (Some (-3)) None None)
         (list_tape []) = Ok s ∧
       agents s = [] ∧ occupied s = ∅.
Proof.
  exact (construction_without_agents sample_traits 2 (-3)
           (MkParams None (Some (-3)) None None) (list_tape [])
           ltac:(lia) eq_refl ltac:(lia)).
Defined.

Lemma demo_steps : steps sample_traits 1 demo_state demo_after.
Proof.
  exact (steps_S sample_traits 0 3 1 demo_state demo_state demo_after
           (steps_O sample_traits demo_state) demo_after_step).
Qed.

Lemma sample_traits_vision (p : Params) (g : Rng) :
  1 ≤ t_vision (sample_traits p g).1.
Proof.
  unfold sample_traits.
  destruct (randint 6 g) as [v g1]. destruct (randint 4 g1) as [m g2].
  destruct (randint 21 g2) as [r g3]. destruct (randint 100 g3) as [l g4].
  cbn [fst t_vision]. lia.
Qed.

Lemma agents_stay_in_grid_witness :
  steps sample_traits 1 demo_state demo_after ∧
  grid_n demo_after = 2 ∧
  Forall (λ r, in_grid 2 (loc (objects demo_after r))) (agents demo_after).
Proof.
  split; [exact demo_steps|].
  destruct (agents_stay_in_grid sample_traits 2 demo_params demo_tape 1
              demo_state demo_after ltac:(lia) ltac:(cbn; lia) ltac:(cbn; lia)
              demo_state_init demo_steps) as (Hn & _ & _ & Hl).
  split; [exact Hn|exact Hl].
Defined.

Lemma step_never_raises_witness :
  steps sample_traits 1 demo_state demo_after ∧
  ∃ k s', step sample_traits 3 demo_after = Ok (k, s').
Proof.
  split; [exact demo_steps|].
  destruct (step_never_raises sample_traits 2 demo_params demo_tape 1 3
              demo_state demo_after ltac:(lia) ltac:(cbn; lia) ltac:(cbn; lia)
              sample_traits_vision demo_state_init demo_steps)
    as [H|[Hrep _]]; [exact H|].
  cbn in Hrep. discriminate Hrep.
Defined.

Lemma population_history_witness :
  occupancy_inv demo_state ∧ steps sample_traits 1 demo_state demo_after ∧
  ∃ h, agent_count_seq demo_after = agent_count_seq demo_state ++ h ∧
    length h = 1%nat ∧
    list.last (length (agents demo_state) :: h)
      = Some (length (agents demo_after)).
Proof.
  split; [exact demo_state_inv|]. split; [exact demo_steps|].
  destruct (population_history sample_traits 1 demo_state demo_after
              demo_state_inv demo_steps) as (h & Hseq & Hlen & Hlast & _).
  exists h. split; [exact Hseq|]. split; [exact Hlen|exact Hlast].
Defined.

Lemma step_levels_bounded_witness :
  steps sample_traits 1 demo_state demo_after ∧
  ∃ x c,
    getitem (array demo_after) (1, 1) = Some x ∧
    getitem (capacity demo_after) (1, 1) = Some c ∧
    x ≤ c ∧ 0 ≤ c ≤ 4 ∧ 0 ≤ x.
Proof.
  split; [exact demo_steps|].
  destruct (step_levels_bounded sample_traits 2 demo_params demo_tape 1
              demo_state demo_after 1 1 demo_state_init demo_steps
              ltac:(lia) ltac:(lia))
    as (x & c & Hx & Hc & _ & Hle & Hr & H0).
  exists x, c. split; [exact Hx|]. split; [exact Hc|]. split; [exact Hle|].
  split; [exact Hr|]. apply H0; cbn; unfold int64_max; lia.
Defined.

Lemma get_coords_centres_witness :
  get_coords blank = Raise ValueError ∧
  get_coords demo_state =
    Ok ((λ r, inject_Z (loc (objects demo_state r)).2 + (1 # 2))%Q
          <$> agents demo_state,
        (λ r, inject_Z (loc (objects demo_state r)).1 + (1 # 2))%Q
          <$> agents demo_state).
Proof.
  split.
  - exact (proj1 (get_coords_centres blank) eq_refl).
  - apply (proj2 (get_coords_centres demo_state)).
    assert (agents demo_state = [0; 1]%nat) as Hag by (vm_compute; reflexivity).
    rewrite Hag. discriminate.
Defined.

Lemma capacity_diagonal_symmetry_witness :
  ∃ c, getitem (make_capacity 51) (10, 30) = Some c ∧
       getitem (make_capacity 51) (30, 10) = Some c.
Proof.
  exact (capacity_diagonal_symmetry 51 10 30 ltac:(lia) ltac:(lia)).
Defined.
